(** * Reproductor: the playlist sequence, the ID3v2 artwork extractor and the
    playback session controller, embedded from the TypeScript sources.

    - [Num]    : the numbers the methods are called with
    - [DLL]    : src/app/models/doubly-linked-list.ts
    - [ID3]    : the byte-level routines of app.component.ts
                 (extractArtworkUrl, parseApicFrame, readSynchsafe*, ...)
    - [Player] : the controller part of app.component.ts
                 (seekTo, playTrack, removeTrack, selectNode, ...) *)

From Stdlib Require Import ZArith QArith Qround Lia Lqa.
From Stdlib.Strings Require Import Byte.
From stdpp Require Import base option list sets strings.

Local Open Scope Z_scope.

(* ===================================================================== *)
(** * Numbers *)
(* ===================================================================== *)

Module Num.

(** A JavaScript number: NaN, an infinity, or a finite value.  Finite
    values are kept as exact rationals, so the rounding of doubles is not
    modelled: sums and differences of integers and of halves in the range of
    a playlist are exact in both.  The sign of zero, which nothing here
    observes, is not kept. *)
Inductive num :=
| NaN
| Inf (positive : bool)
| Fin (q : Q).

Definition num_isFinite (x : num) : bool :=
  match x with Fin _ => true | _ => false end.

(** [x <= y] on numbers other than NaN *)
Definition num_le (x y : num) : bool :=
  match x, y with
  | Fin p, Fin q => Qle_bool p q
  | Inf false, _ => true
  | _, Inf true => true
  | _, _ => false
  end.

(** [x > y], false when either is NaN *)
Definition num_gt (x y : num) : bool :=
  match x, y with
  | NaN, _ | _, NaN => false
  | _, _ => negb (num_le x y)
  end.

(** [x < y], [x <= y] and [x >= y], false when either is NaN *)
Definition num_lt (x y : num) : bool := num_gt y x.
Definition num_leq (x y : num) : bool :=
  match x, y with
  | NaN, _ | _, NaN => false
  | _, _ => num_le x y
  end.
Definition num_geq (x y : num) : bool := num_leq y x.

(** [x === y] *)
Definition num_eq (x y : num) : bool :=
  match x, y with
  | Fin p, Fin q => Qeq_bool p q
  | Inf a, Inf b => bool_decide (a = b)
  | _, _ => false
  end.

(** [Math.max(x, y)] and [Math.min(x, y)]: NaN when either is NaN *)
Definition num_max (x y : num) : num :=
  match x, y with
  | NaN, _ | _, NaN => NaN
  | _, _ => if num_le x y then y else x
  end.

Definition num_min (x y : num) : num :=
  match x, y with
  | NaN, _ | _, NaN => NaN
  | _, _ => if num_le x y then x else y
  end.

(** [x - y] *)
Definition num_sub (x y : num) : num :=
  match x, y with
  | NaN, _ | _, NaN => NaN
  | Fin p, Fin q => Fin (p - q)
  | Inf a, Inf b => if bool_decide (a = b) then NaN else Inf a
  | Inf a, Fin _ => Inf a
  | Fin _, Inf b => Inf (negb b)
  end.

(** [x / 2] *)
Definition num_half (x : num) : num :=
  match x with
  | Fin q => Fin (q / 2)
  | _ => x
  end.

(** A number as a condition: 0 and NaN are falsy. *)
Definition num_truthy (x : num) : bool :=
  match x with
  | NaN => false
  | Inf _ => true
  | Fin q => negb (Qeq_bool q 0)
  end.

(** [x || y] on numbers *)
Definition num_or (x y : num) : num := if num_truthy x then x else y.

Definition zero : num := Fin 0.
Definition one : num := Fin 1.

(** An integer as a number, the numbers that are integers, and the
    integer such a number is. *)
Definition of_Z (z : Z) : num := Fin (inject_Z z).

Definition integral (x : num) : Prop := exists z, x = of_Z z.

Definition to_Z (x : num) : Z :=
  match x with
  | Fin q => Qfloor q
  | _ => 0
  end.

End Num.

(* ===================================================================== *)
(** * The doubly linked list *)
(* ===================================================================== *)

Module DLL.
Import Num.

(** Nodes are JavaScript objects: they have identity and are mutated in
    place.  The model keeps them in a store indexed by addresses; a
    reference to a node is its address, [null] is [None].  Objects are
    never freed (a detached node simply becomes unreachable), and
    [createNode] allocates at the end of the store. *)
Abbreviation addr := nat (only parsing).

(** ** List operations the methods realise *)

(** [z] brought into [lo, hi]. *)
Definition clamp (lo hi z : Z) : Z := Z.min hi (Z.max lo z).

(** [a] placed before position [i] of [l]. *)
Definition place {A} (i : nat) (a : A) (l : list A) : list A :=
  take i l ++ a :: drop i l.

(** [l] once the element at position [i] has gone. *)
Definition removed {A} (i : Z) (l : list A) : list A :=
  if (i <? 0) then l else delete (Z.to_nat i) l.

(** [l] once the element at position [i] has moved to position [j], the
    target being brought into [0, length - 1] first. *)
Definition moved {A} (i j : Z) (l : list A) : list A :=
  if i =? j then l
  else if i <? 0 then l
  else match l !! Z.to_nat i with
       | None => l
       | Some c =>
           place (Z.to_nat (clamp 0 (Z.of_nat (length l) - 1) j)) c
                 (delete (Z.to_nat i) l)
       end.

(** The position of [n] in [l] counted from [i], or -1. *)
Fixpoint index_from (n : nat) (l : list nat) (i : Z) : Z :=
  match l with
  | [] => -1
  | a :: l' => if bool_decide (a = n) then i else index_from n l' (i + 1)
  end.

Section Model.
Context {T : Type}.

(** interface DoublyLinkedListNode<T> *)
Record Node := mkNode {
  value : T;
  next : option addr;
  prev : option addr
}.

(** class DoublyLinkedList<T>: the three private fields, and the objects
    they can reach. *)
Record DoublyLinkedList := mkList {
  store : list Node;
  l_head : option addr;
  l_tail : option addr;
  l_length : Z
}.

Definition empty : DoublyLinkedList := mkList [] None None 0.

(** ** Field reads and writes *)

Definition upd_next (x : option addr) (n : Node) : Node :=
  mkNode (value n) x (prev n).
Definition upd_prev (x : option addr) (n : Node) : Node :=
  mkNode (value n) (next n) x.

(** [a.next] and [a.prev], as [follow next] and [follow prev]; a dangling
    address reads as [null]. *)
Definition follow (f : Node -> option addr) (h : list Node) (a : addr)
  : option addr :=
  h !! a ≫= f.
Definition node_next := follow next.
Definition node_prev := follow prev.

Definition set_store (h : list Node) (s : DoublyLinkedList) :=
  mkList h (l_head s) (l_tail s) (l_length s).
Definition set_head (x : option addr) (s : DoublyLinkedList) :=
  mkList (store s) x (l_tail s) (l_length s).
Definition set_tail (x : option addr) (s : DoublyLinkedList) :=
  mkList (store s) (l_head s) x (l_length s).
Definition set_length (z : Z) (s : DoublyLinkedList) :=
  mkList (store s) (l_head s) (l_tail s) z.

(** [a.next = x] and [a.prev = x] *)
Definition set_next (a : addr) (x : option addr) (s : DoublyLinkedList) :=
  set_store (alter (upd_next x) a (store s)) s.
Definition set_prev (a : addr) (x : option addr) (s : DoublyLinkedList) :=
  set_store (alter (upd_prev x) a (store s)) s.

(** [!x] for a nullable reference *)
Definition is_null (x : option addr) : bool :=
  match x with None => true | Some _ => false end.

Definition get_next (s : DoublyLinkedList) (a : addr) := node_next (store s) a.
Definition get_prev (s : DoublyLinkedList) (a : addr) := node_prev (store s) a.
Definition get_value (s : DoublyLinkedList) (a : addr) : option T :=
  value <$> store s !! a.

(** ** The methods *)

Definition size (s : DoublyLinkedList) : Z := l_length s.
Definition getHead (s : DoublyLinkedList) : option addr := l_head s.
Definition getTail (s : DoublyLinkedList) : option addr := l_tail s.

(** private createNode(value): { value, next: null, prev: null } *)
Definition createNode (v : T) (s : DoublyLinkedList) : DoublyLinkedList * addr :=
  (set_store (store s ++ [mkNode v None None]) s, length (store s)).

Definition insertAtStart (v : T) (s : DoublyLinkedList) : DoublyLinkedList * addr :=
  let '(s, node) := createNode v s in
  let s :=
    match l_head s with
    | None => set_tail (Some node) (set_head (Some node) s)
    | Some h =>
        let s := set_next node (Some h) s in
        let s := set_prev h (Some node) s in
        set_head (Some node) s
    end in
  (set_length (l_length s + 1) s, node).

Definition insertAtEnd (v : T) (s : DoublyLinkedList) : DoublyLinkedList * addr :=
  let '(s, node) := createNode v s in
  let s :=
    match l_tail s with
    | None => set_tail (Some node) (set_head (Some node) s)
    | Some t =>
        let s := set_prev node (Some t) s in
        let s := set_next t (Some node) s in
        set_tail (Some node) s
    end in
  (set_length (l_length s + 1) s, node).

(** [n] links followed from [current], stopping at [null]. *)
Fixpoint hops (link : addr -> option addr) (n : nat) (current : option addr)
  : option addr :=
  match n, current with
  | S k, Some a => hops link k (link a)
  | _, _ => current
  end.

(** [while (steps > 0 && current) { current = current.<link>; steps -= 1 }].
    [steps] is a number: the loop runs once for every unit of it, rounded
    up, and not at all when it is NaN.  [fuel] bounds the recursion; a loop
    whose [steps] do not exceed it ends by its own test ([walk_hops],
    [walk_fuel] in [DLLFacts]), which is the case of both loops of
    getNodeAt, where [steps] is below the length ([getNodeAt_fuel]). *)
Fixpoint walk (link : addr -> option addr) (fuel : nat) (steps : num)
    (current : option addr) : option addr :=
  match fuel with
  | O => current
  | S k =>
      if num_gt steps zero then
        match current with
        | Some a => walk link k (num_sub steps one) (link a)
        | None => current
        end
      else current
  end.

Definition getNodeAt (index : num) (s : DoublyLinkedList) : option addr :=
  if num_lt index zero || num_geq index (of_Z (l_length s)) then None
  else
    let fuel := Z.to_nat (l_length s) in
    if num_leq index (num_half (of_Z (l_length s)))
    then walk (get_next s) fuel index (l_head s)
    else walk (get_prev s) fuel
              (num_sub (num_sub (of_Z (l_length s)) one) index) (l_tail s).

Definition insertAt (v : T) (index : num) (s : DoublyLinkedList)
  : DoublyLinkedList * addr :=
  if num_leq index zero || is_null (l_head s) then insertAtStart v s
  else if num_geq index (of_Z (l_length s)) then insertAtEnd v s
  else match getNodeAt index s with
       | None => insertAtEnd v s
       | Some current =>
           let '(s, node) := createNode v s in
           let s := set_prev node (get_prev s current) s in
           let s := set_next node (Some current) s in
           let s := match get_prev s current with
                    | Some p => set_next p (Some node) s
                    | None => s
                    end in
           let s := set_prev current (Some node) s in
           (set_length (l_length s + 1) s, node)
       end.

(** [while (current) { ...; current = current.next }], bounded by [fuel]
    iterations; [None] when the bound is hit before [null] is. *)
Fixpoint traverse (link : addr -> option addr) (fuel : nat) (current : option addr)
  : option (list addr) :=
  match current with
  | None => Some []
  | Some a =>
      match fuel with
      | O => None
      | S k => (a ::.) <$> traverse link k (link a)
      end
  end.

(** The loop of indexOfNode, [index] counting the nodes passed so far. *)
Fixpoint indexOf_loop (link : addr -> option addr) (node : addr) (fuel : nat)
    (current : option addr) (index : Z) : option Z :=
  match current with
  | None => Some (-1)
  | Some a =>
      if bool_decide (a = node) then Some index
      else match fuel with
           | O => None
           | S k => indexOf_loop link node k (link a) (index + 1)
           end
  end.

(** A simple chain has no more nodes than the store has objects, which
    bounds every loop over it. *)
Definition fuel_of (s : DoublyLinkedList) : nat := length (store s).

Definition indexOfNode (node : option addr) (s : DoublyLinkedList) : option Z :=
  match node with
  | None => Some (-1)
  | Some n => indexOf_loop (get_next s) n (fuel_of s) (l_head s) 0
  end.

Definition detachNode (node : addr) (s : DoublyLinkedList) : DoublyLinkedList :=
  let s := match get_prev s node with
           | Some p => set_next p (get_next s node) s
           | None => set_head (get_next s node) s
           end in
  let s := match get_next s node with
           | Some n => set_prev n (get_prev s node) s
           | None => set_tail (get_prev s node) s
           end in
  let s := set_length (Z.max 0 (l_length s - 1)) s in
  let s := set_next node None s in
  set_prev node None s.

Definition moveNode (fromIndex toIndex : num) (s : DoublyLinkedList)
  : DoublyLinkedList * option addr :=
  if num_eq fromIndex toIndex then (s, getNodeAt fromIndex s)
  else match getNodeAt fromIndex s with
  | None => (s, None)
  | Some node =>
      let s := detachNode node s in
      let targetIndex := toIndex in
      let targetIndex := if num_lt targetIndex zero then zero else targetIndex in
      let targetIndex :=
        if num_gt targetIndex (of_Z (l_length s)) then of_Z (l_length s)
        else targetIndex in
      match l_head s with
      | None =>
          (set_length 1 (set_tail (Some node) (set_head (Some node) s)), Some node)
      | Some h =>
          if l_length s =? 0 then
            (set_length 1 (set_tail (Some node) (set_head (Some node) s)), Some node)
          else
            let s :=
              if num_eq targetIndex zero then
                let s := set_next node (Some h) s in
                let s := set_prev h (Some node) s in
                set_head (Some node) s
              else if num_eq targetIndex (of_Z (l_length s)) then
                let s := set_prev node (l_tail s) s in
                let s := match l_tail s with
                         | Some t => set_next t (Some node) s
                         | None => s
                         end in
                set_tail (Some node) s
              else
                match getNodeAt targetIndex s with
                | None =>
                    let s := set_prev node (l_tail s) s in
                    let s := match l_tail s with
                             | Some t => set_next t (Some node) s
                             | None => s
                             end in
                    set_tail (Some node) s
                | Some target =>
                    let s := set_next node (Some target) s in
                    let s := set_prev node (get_prev s target) s in
                    let s := match get_prev s target with
                             | Some p => set_next p (Some node) s
                             | None => set_head (Some node) s
                             end in
                    set_prev target (Some node) s
                end in
            (set_length (l_length s + 1) s, Some node)
      end
  end.

Definition removeNode (node : option addr) (s : DoublyLinkedList)
  : DoublyLinkedList * option addr :=
  match node with
  | None => (s, None)
  | Some n =>
      let s := detachNode n s in
      let s := set_next n None s in
      let s := set_prev n None s in
      (s, Some n)
  end.

Definition removeAt (index : num) (s : DoublyLinkedList)
  : DoublyLinkedList * option addr :=
  removeNode (getNodeAt index s) s.

(** toArray(): the values met from head on; [None] if the walk does not
    reach [null] within the bound. *)
Definition toArray (s : DoublyLinkedList) : option (list T) :=
  nodes ← traverse (get_next s) (fuel_of s) (l_head s);
  mapM (get_value s) nodes.

(** The nodes met from head on, and from tail on. *)
Definition forward (s : DoublyLinkedList) : option (list addr) :=
  traverse (get_next s) (fuel_of s) (l_head s).

(** ** Operation sequences *)

Inductive op :=
| InsertAtStart (v : T)
| InsertAtEnd (v : T)
| InsertAt (v : T) (index : num)
| RemoveAt (index : num)
| MoveNode (fromIndex toIndex : num).

Definition apply_op (s : DoublyLinkedList) (o : op) : DoublyLinkedList :=
  match o with
  | InsertAtStart v => fst (insertAtStart v s)
  | InsertAtEnd v => fst (insertAtEnd v s)
  | InsertAt v i => fst (insertAt v i s)
  | RemoveAt i => fst (removeAt i s)
  | MoveNode i j => fst (moveNode i j s)
  end.

Definition run (ops : list op) : DoublyLinkedList := foldl apply_op empty ops.

(** The indices insertAt takes without harm: every number but NaN and
    those strictly between 1/2 and 1. *)
Definition insert_ok (index : num) : bool :=
  num_leq index (Fin (1 # 2)) || num_geq index one.

(** An operation that is no insertAt at another index; the indices of
    removeAt and moveNode are any numbers. *)
Definition insert_safe (o : op) : Prop :=
  match o with
  | InsertAt _ i => insert_ok i = true
  | _ => True
  end.

(** An operation whose indices are integers. *)
Definition integral_op (o : op) : Prop :=
  match o with
  | InsertAtStart _ | InsertAtEnd _ => True
  | InsertAt _ i | RemoveAt i => integral i
  | MoveNode i j => integral i /\ integral j
  end.


(** The second half of moveNode: the detached [node] goes back in. *)
Definition reinsert (node : addr) (toIndex : num) (s : DoublyLinkedList)
  : DoublyLinkedList * option addr :=
      let targetIndex := toIndex in
      let targetIndex := if num_lt targetIndex zero then zero else targetIndex in
      let targetIndex :=
        if num_gt targetIndex (of_Z (l_length s)) then of_Z (l_length s)
        else targetIndex in
      match l_head s with
      | None =>
          (set_length 1 (set_tail (Some node) (set_head (Some node) s)), Some node)
      | Some h =>
          if l_length s =? 0 then
            (set_length 1 (set_tail (Some node) (set_head (Some node) s)), Some node)
          else
            let s :=
              if num_eq targetIndex zero then
                let s := set_next node (Some h) s in
                let s := set_prev h (Some node) s in
                set_head (Some node) s
              else if num_eq targetIndex (of_Z (l_length s)) then
                let s := set_prev node (l_tail s) s in
                let s := match l_tail s with
                         | Some t => set_next t (Some node) s
                         | None => s
                         end in
                set_tail (Some node) s
              else
                match getNodeAt targetIndex s with
                | None =>
                    let s := set_prev node (l_tail s) s in
                    let s := match l_tail s with
                             | Some t => set_next t (Some node) s
                             | None => s
                             end in
                    set_tail (Some node) s
                | Some target =>
                    let s := set_next node (Some target) s in
                    let s := set_prev node (get_prev s target) s in
                    let s := match get_prev s target with
                             | Some p => set_next p (Some node) s
                             | None => set_head (Some node) s
                             end in
                    set_prev target (Some node) s
                end in
            (set_length (l_length s + 1) s, Some node)
      end.

(** ** The shape of a well-formed list *)

(** The link field [f] of the object at [a], when there is one. *)
Definition fld (f : Node -> option addr) (h : list Node) (a : addr)
  : option (option addr) :=
  f <$> h !! a.

Definition hd_or (l : list addr) (e : option addr) : option addr :=
  match l with [] => e | b :: _ => Some b end.

(** Every node of [l] links through [f] to the one after it in [l], and
    the last one to [e]. *)
Fixpoint chain (f : Node -> option addr) (h : list Node) (e : option addr)
    (l : list addr) : Prop :=
  match l with
  | [] => True
  | a :: l' => fld f h a = Some (hd_or l' e) /\ chain f h e l'
  end.

(** [wf s l]: the list [s] holds exactly the nodes [l], in this order. *)
Record wf (s : DoublyLinkedList) (l : list addr) : Prop := mkWf {
  wf_nodup : NoDup l;
  wf_next : chain next (store s) None l;
  wf_prev : chain prev (store s) None (reverse l);
  wf_head : l_head s = head l;
  wf_tail : l_tail s = last l;
  wf_length : l_length s = Z.of_nat (length l)
}.

(** A node no list holds: both links are [null]. *)
Definition isolated (s : DoublyLinkedList) (a : addr) : Prop :=
  fld next (store s) a = Some None /\ fld prev (store s) a = Some None.

(** What one operation at integer indices does to the node order, [a]
    being the address a new node would get. *)
Definition op_nodes (a : addr) (o : op) (l : list addr) : list addr :=
  match o with
  | InsertAtStart _ => a :: l
  | InsertAtEnd _ => l ++ [a]
  | InsertAt _ i =>
      place (Z.to_nat (clamp 0 (Z.of_nat (length l)) (to_Z i))) a l
  | RemoveAt i => removed (to_Z i) l
  | MoveNode i j => moved (to_Z i) (to_Z j) l
  end.

(** What one operation at integer indices does to the sequence of
    values. *)
Definition op_values (o : op) (vs : list T) : list T :=
  match o with
  | InsertAtStart v => v :: vs
  | InsertAtEnd v => vs ++ [v]
  | InsertAt v i =>
      place (Z.to_nat (clamp 0 (Z.of_nat (length vs)) (to_Z i))) v vs
  | RemoveAt i => removed (to_Z i) vs
  | MoveNode i j => moved (to_Z i) (to_Z j) vs
  end.

(** The value an operation brings in, if any. *)
Definition op_value (o : op) : option T :=
  match o with
  | InsertAtStart v | InsertAtEnd v | InsertAt v _ => Some v
  | _ => None
  end.

(** The plain list a run of operations at integer indices stands for. *)
Definition model (ops : list op) : list T :=
  foldl (fun vs o => op_values o vs) [] ops.

(** [holds s l vs]: [s] holds the nodes [l], which carry the values [vs]. *)
Definition holds (s : DoublyLinkedList) (l : list addr) (vs : list T) : Prop :=
  wf s l /\ Forall2 (fun a v => get_value s a = Some v) l vs.

End Model.

Arguments Node : clear implicits.
Arguments DoublyLinkedList : clear implicits.
Arguments op : clear implicits.

End DLL.

(* ===================================================================== *)
(** * The ID3v2 artwork extractor *)
(* ===================================================================== *)

Module ID3.

(** ** Bytes, buffers and guarded reads *)

Definition u8 (b : byte) : Z := Z.of_N (Byte.to_N b).

Definition len (data : list byte) : Z := Z.of_nat (length data).

(** The outcome of a routine that reads a buffer and loops.  The model
    stops at the first read outside the buffer ([OutOfBounds]) and at a loop
    bound hit before the loop's own test fails ([OutOfFuel]); a run that
    ends in [Val] made every read inside the buffer and left every loop by
    the loop's test. *)
Inductive res (A : Type) : Type :=
| Val (a : A)
| OutOfBounds
| OutOfFuel.
Arguments Val {A} a.
Arguments OutOfBounds {A}.
Arguments OutOfFuel {A}.

#[global] Instance res_ret : MRet res := fun A a => Val a.
#[global] Instance res_bind : MBind res := fun A B f m =>
  match m with
  | Val a => f a
  | OutOfBounds => OutOfBounds
  | OutOfFuel => OutOfFuel
  end.

(** [data[i]] on a Uint8Array, [view.getUint8(i)] on a DataView. *)
Definition read (data : list byte) (i : Z) : res Z :=
  if i <? 0 then OutOfBounds
  else match data !! Z.to_nat i with
       | Some b => Val (u8 b)
       | None => OutOfBounds
       end.

(** [view.getUint32(offset)], big-endian. *)
Definition getUint32 (view : list byte) (offset : Z) : res Z :=
  b0 ← read view offset;
  b1 ← read view (offset + 1);
  b2 ← read view (offset + 2);
  b3 ← read view (offset + 3);
  Val (b0 * 2 ^ 24 + b1 * 2 ^ 16 + b2 * 2 ^ 8 + b3).

(** [data.subarray(begin, end)] and [blob.slice(begin, end)], for
    [0 <= begin]: both ends are brought into the buffer. *)
Definition subarray (data : list byte) (begin end_ : Z) : list byte :=
  take (Z.to_nat (end_ - begin)) (drop (Z.to_nat begin) data).

(** [data.indexOf(v, fromIndex)]: a built-in, it searches inside the
    buffer only. *)
Fixpoint find_from (l : list byte) (v : Z) (i : Z) : Z :=
  match l with
  | [] => -1
  | b :: l' => if u8 b =? v then i else find_from l' v (i + 1)
  end.

Definition indexOf (data : list byte) (v : Z) (fromIndex : Z) : Z :=
  find_from (drop (Z.to_nat fromIndex) data) v fromIndex.

(** ** 32-bit integer operators *)

(** ToInt32 *)
Definition to_int32 (z : Z) : Z :=
  let m := z mod 2 ^ 32 in
  if m <? 2 ^ 31 then m else m - 2 ^ 32.

(** [x << n] and [x | y] *)
Definition shl32 (x n : Z) : Z := to_int32 (Z.shiftl (to_int32 x) (n mod 32)).
Definition or32 (x y : Z) : Z := to_int32 (Z.lor (to_int32 x) (to_int32 y)).
Definition and32 (x y : Z) : Z := to_int32 (Z.land (to_int32 x) (to_int32 y)).

(** ** Synchsafe integers *)

Definition synchsafe (b0 b1 b2 b3 : Z) : Z :=
  or32 (or32 (or32 (shl32 b0 21) (shl32 b1 14)) (shl32 b2 7)) b3.

Definition readSynchsafeInteger (bytes : list byte) (offset : Z) : res Z :=
  if offset + 4 >? len bytes then Val 0
  else
    b0 ← read bytes offset;
    b1 ← read bytes (offset + 1);
    b2 ← read bytes (offset + 2);
    b3 ← read bytes (offset + 3);
    Val (synchsafe b0 b1 b2 b3).

Definition readSynchsafeFromView (view : list byte) (offset : Z) : res Z :=
  if offset + 4 >? len view then Val 0
  else
    b0 ← read view offset;
    b1 ← read view (offset + 1);
    b2 ← read view (offset + 2);
    b3 ← read view (offset + 3);
    Val (synchsafe b0 b1 b2 b3).

(** ** Frame identifiers *)

(** [A-Z0-9] *)
Definition is_id_char (c : Z) : bool :=
  ((65 <=? c) && (c <=? 90)) || ((48 <=? c) && (c <=? 57)).

(** A JavaScript string is modelled by its list of code points. *)
Definition jsstring := list Z.

Definition str (s : string) : jsstring := map u8 (String.list_byte_of_string s).

(** decodeFrameId: the four characters when they match [^[A-Z0-9]{4}$],
    the empty string otherwise. *)
Definition decodeFrameId (bytes : list byte) (offset : Z) : res jsstring :=
  if offset + 4 >? len bytes then Val []
  else
    c0 ← read bytes offset;
    c1 ← read bytes (offset + 1);
    c2 ← read bytes (offset + 2);
    c3 ← read bytes (offset + 3);
    let chars := [c0; c1; c2; c3] in
    Val (if forallb is_id_char chars then chars else []).

(** ** Text *)

(** The decoder [new TextDecoder('iso-8859-1')] gives: by the Encoding
    standard that label names windows-1252, which differs from Latin-1 on
    0x80..0x9F. *)
Definition windows1252_high : list Z :=
  [ 0x20AC; 0x0081; 0x201A; 0x0192; 0x201E; 0x2026; 0x2020; 0x2021;
    0x02C6; 0x2030; 0x0160; 0x2039; 0x0152; 0x008D; 0x017D; 0x008F;
    0x0090; 0x2018; 0x2019; 0x201C; 0x201D; 0x2022; 0x2013; 0x2014;
    0x02DC; 0x2122; 0x0161; 0x203A; 0x0153; 0x009D; 0x017E; 0x0178 ].

Definition decode_char (c : Z) : Z :=
  if (0x80 <=? c) && (c <=? 0x9F)
  then default c (windows1252_high !! Z.to_nat (c - 0x80))
  else c.

Definition decode (bytes : list byte) : jsstring :=
  map (fun b => decode_char (u8 b)) bytes.

(** WhiteSpace and LineTerminator of ECMAScript, what [trim] strips. *)
Definition is_space (c : Z) : bool :=
  ((9 <=? c) && (c <=? 13)) || (c =? 32) || (c =? 0xA0) || (c =? 0x1680)
  || ((0x2000 <=? c) && (c <=? 0x200A)) || (c =? 0x2028) || (c =? 0x2029)
  || (c =? 0x202F) || (c =? 0x205F) || (c =? 0x3000) || (c =? 0xFEFF).

Fixpoint trimStart (s : jsstring) : jsstring :=
  match s with
  | c :: s' => if is_space c then trimStart s' else s
  | [] => []
  end.

Definition trim (s : jsstring) : jsstring :=
  reverse (trimStart (reverse (trimStart s))).

(** [toLowerCase] on the code points a windows-1252 decoder can give (and
    on ASCII literals). *)
Definition lower_char (c : Z) : Z :=
  if (65 <=? c) && (c <=? 90) then c + 32
  else if (0xC0 <=? c) && (c <=? 0xDE) && negb (c =? 0xD7) then c + 32
  else if (c =? 0x160) || (c =? 0x152) || (c =? 0x17D) then c + 1
  else if c =? 0x178 then 0xFF
  else c.

Definition toLowerCase (s : jsstring) : jsstring := map lower_char s.

(** [a || b] on strings: the empty string is falsy. *)
Definition or_else (a b : jsstring) : jsstring :=
  match a with [] => b | _ => a end.

(** ** The picture frame *)

(** What [new Blob([imageBytes], { type })] is given; the object URL made
    of it is the platform's business. *)
Record Artwork := mkArtwork {
  art_type : jsstring;
  art_bytes : list byte
}.

(** [while (offset < end && data[offset] !== 0) offset += 1] *)
Fixpoint skip_to_null (fuel : nat) (data : list byte) (offset end_ : Z) : res Z :=
  match fuel with
  | O => OutOfFuel
  | S k =>
      if offset <? end_ then
        b ← read data offset;
        if negb (b =? 0) then skip_to_null k data (offset + 1) end_
        else Val offset
      else Val offset
  end.

(** [while (offset + 1 < end) { if (data[offset] === 0 &&
    data[offset + 1] === 0) return min(offset + 2, end); offset += 2 }
    return end] *)
Fixpoint skip_to_null_pair (fuel : nat) (data : list byte) (offset end_ : Z)
  : res Z :=
  match fuel with
  | O => OutOfFuel
  | S k =>
      if offset + 1 <? end_ then
        b0 ← read data offset;
        if b0 =? 0 then
          b1 ← read data (offset + 1);
          if b1 =? 0 then Val (Z.min (offset + 2) end_)
          else skip_to_null_pair k data (offset + 2) end_
        else skip_to_null_pair k data (offset + 2) end_
      else Val end_
  end.

Definition advancePastEncodedString (data : list byte) (offset end_ encoding : Z)
  : res Z :=
  if offset >=? end_ then Val end_
  else if (encoding =? 0) || (encoding =? 3) then
    offset ← skip_to_null (S (Z.to_nat (end_ - offset))) data offset end_;
    Val (Z.min (offset + 1) end_)
  else
    skip_to_null_pair (S (Z.to_nat (end_ - offset))) data offset end_.

(** The MIME type of parseApicFrame:
    [(this.latin1Decoder?.decode(mimeBytes).trim() || 'image/jpeg')
     .toLowerCase()]; [latin1Decoder] is [null] where the platform has no
    TextDecoder. *)
Definition mime_of (latin1Decoder : option (list byte -> jsstring))
    (mimeBytes : list byte) : jsstring :=
  toLowerCase
    (or_else (match latin1Decoder with
              | Some dec => trim (dec mimeBytes)
              | None => []
              end)
             (str "image/jpeg")).

Definition parseApicFrame (latin1Decoder : option (list byte -> jsstring))
    (frameData : list byte) : res (option Artwork) :=
  if len frameData <? 4 then Val None
  else
    textEncoding ← read frameData 0;
    let cursor := 1 in
    let mimeTerminator := indexOf frameData 0 cursor in
    if mimeTerminator =? -1 then Val None
    else
      let mimeBytes := subarray frameData cursor mimeTerminator in
      let mimeType := mime_of latin1Decoder mimeBytes in
      let cursor := mimeTerminator + 1 in
      if cursor >=? len frameData then Val None
      else
        let cursor := cursor + 1 in
        cursor ← advancePastEncodedString frameData cursor (len frameData)
                   textEncoding;
        if cursor >=? len frameData then Val None
        else
          let imageBytes := subarray frameData cursor (len frameData) in
          if len imageBytes =? 0 then Val None
          else Val (Some (mkArtwork (or_else mimeType (str "image/jpeg"))
                                    imageBytes)).

(** ** The tag *)

(** The size a frame header declares:
    [version === 4 ? this.readSynchsafeFromView(view, offset + 4)
                   : view.getUint32(offset + 4)] *)
Definition declared_size (version : Z) (view : list byte) (offset : Z) : res Z :=
  if version =? 4 then readSynchsafeFromView view (offset + 4)
  else getUint32 view (offset + 4).

(** The loop of extractArtworkUrl over the frames, from [offset] on. *)
Fixpoint frame_loop (fuel : nat) (latin1Decoder : option (list byte -> jsstring))
    (version : Z) (tag : list byte) (offset : Z) : res (option Artwork) :=
  match fuel with
  | O => OutOfFuel
  | S k =>
      if offset + 10 <=? len tag then
        b ← read tag offset;
        if b =? 0 then Val None
        else
          frameId ← decodeFrameId tag offset;
          match frameId with
          | [] => Val None
          | _ =>
              frameSize ← declared_size version tag offset;
              if (frameSize =? 0) || (frameSize <? 1) then Val None
              else
                let frameDataStart := offset + 10 in
                let frameDataEnd := frameDataStart + frameSize in
                if frameDataEnd >? len tag then Val None
                else
                  artworkUrl ←
                    (if bool_decide (frameId = str "APIC")
                     then parseApicFrame latin1Decoder
                            (subarray tag frameDataStart frameDataEnd)
                     else Val None);
                  match artworkUrl with
                  | Some art => Val (Some art)
                  | None => frame_loop k latin1Decoder version tag frameDataEnd
                  end
          end
      else Val None
  end.

(** extractArtworkUrl(file), [file] being the file's bytes.  Every frame
    takes more than ten bytes, so the loop runs fewer times than the tag is
    long. *)
Definition extractArtworkUrl (latin1Decoder : option (list byte -> jsstring))
    (file : list byte) : res (option Artwork) :=
  let header := subarray file 0 10 in
  if len header <? 10 then Val None
  else
    h0 ← read header 0;
    h1 ← read header 1;
    h2 ← read header 2;
    if negb (h0 =? 0x49) || negb (h1 =? 0x44) || negb (h2 =? 0x33) then Val None
    else
      version ← read header 3;
      if version <? 3 then Val None
      else
        flags ← read header 5;
        tagSize ← readSynchsafeInteger header 6;
        if tagSize =? 0 then Val None
        else
          let tagBuffer := subarray file 10 (10 + tagSize) in
          if len tagBuffer =? 0 then Val None
          else
            let tagLength := len tagBuffer in
            let tagLength :=
              if negb (and32 flags 0x10 =? 0) && (tagLength >=? 10)
              then tagLength - 10 else tagLength in
            let tag := subarray tagBuffer 0 tagLength in
            let view := tag in
            offset ←
              (if negb (and32 flags 0x40 =? 0) && (len tag >=? 4) then
                 if (version =? 3) && (len tag >=? 4) then
                   extSize ← getUint32 view 0;
                   Val (Z.min (extSize + 4) (len tag))
                 else if version =? 4 then
                   extSize ← readSynchsafeFromView view 0;
                   Val (Z.min extSize (len tag))
                 else Val 0
               else Val 0);
            frame_loop (S (length tag)) latin1Decoder version tag offset.

(** ** Frames the walk passes *)


(** ** The reading of the picture frame in the specification's words *)

(** The MIME string is read "null-terminated (single-byte encodings 0/3)
    or null-pair-terminated (2-byte encodings 1/2)", "the next single byte
    is a picture-type code", the description is "in the same encoding
    convention as the MIME string, terminated the same way", and "all
    remaining bytes are the raw image payload".  [spec_apic_parts] gives the
    bytes of the MIME string and the payload; how the MIME bytes become a
    string is left open. *)
Definition spec_apic_parts (frameData : list byte)
  : res (option (list byte * list byte)) :=
  if len frameData <? 4 then Val None
  else
    textEncoding ← read frameData 0;
    let terminator :=
      if (textEncoding =? 0) || (textEncoding =? 3) then 1 else 2 in
    afterMime ← advancePastEncodedString frameData 1 (len frameData)
                  textEncoding;
    let mimeBytes := subarray frameData 1 (afterMime - terminator) in
    if afterMime >=? len frameData then Val None
    else
      afterDescription ← advancePastEncodedString frameData (afterMime + 1)
                           (len frameData) textEncoding;
      if afterDescription >=? len frameData then Val None
      else Val (Some (mimeBytes,
                      subarray frameData afterDescription (len frameData))).

(** A synchsafe integer in the specification's words: "each of 4 bytes
    contributes its low 7 bits, most-significant byte first". *)
Definition spec_synchsafe (b0 b1 b2 b3 : Z) : Z :=
  Z.land b0 0x7F * 2 ^ 21 + Z.land b1 0x7F * 2 ^ 14
  + Z.land b2 0x7F * 2 ^ 7 + Z.land b3 0x7F.

End ID3.

(* ===================================================================== *)
(** * The playback session controller *)
(* ===================================================================== *)

Module Player.
Import Num DLL.

(** ** Tracks and the platform *)

(** interface Track; [file] is the File's name, size and media type. *)
Record File := mkFile {
  file_name : string;
  file_size : Z;
  file_type : string
}.

Record Track := mkTrack {
  t_id : string;
  t_name : string;
  url : string;
  file : File;
  t_duration : option num;
  artworkUrl : option string
}.

(** The fields of the HTMLAudioElement the controller reads or writes.  What
    the platform makes of a call (the promise of play(), the events, the
    value it reports back) is its own business: a field holds what was last
    written to it or last reported. *)
Record Audio := mkAudio {
  src : string;
  a_currentTime : num;
  a_duration : num;
  a_volume : num;
  paused : bool
}.

(** Calls made on the platform, in order. *)
Inductive call :=
| AudioPause
| AudioPlay
| AudioLoad
| RevokeObjectURL (u : string).

(** ** The component *)

(** Track objects are shared: the playlist's nodes and the [tracks]
    snapshot refer to the same objects, and onLoadedMetadata writes to one of
    them.  They live in [heap]; a reference to a track is its index there. *)
Abbreviation tref := nat (only parsing).

Record App := mkApp {
  heap : list Track;
  tracks : list tref;
  currentTrackIndex : Z;
  isPlaying : bool;
  isLoadingTrack : bool;
  currentTime : num;
  duration : num;
  volume : num;
  audio : Audio;
  playlist : DoublyLinkedList tref;
  currentNode : option addr;
  calls : list call
}.

(** The component as constructed: [new Audio()] has no source, reports
    NaN as its duration and is paused; the constructor sets its volume. *)
Definition initial : App :=
  mkApp [] [] (-1) false false zero zero (Fin (8 # 10))
        (mkAudio "" zero NaN (Fin (8 # 10)) true)
        empty None [].

(** Field updates *)
Definition with_heap (x : list Track) (c : App) : App :=
  mkApp x (tracks c) (currentTrackIndex c) (isPlaying c) (isLoadingTrack c)
        (currentTime c) (duration c) (volume c) (audio c) (playlist c)
        (currentNode c) (calls c).
Definition with_tracks (x : list tref) (c : App) : App :=
  mkApp (heap c) x (currentTrackIndex c) (isPlaying c) (isLoadingTrack c)
        (currentTime c) (duration c) (volume c) (audio c) (playlist c)
        (currentNode c) (calls c).
Definition with_currentTrackIndex (x : Z) (c : App) : App :=
  mkApp (heap c) (tracks c) x (isPlaying c) (isLoadingTrack c) (currentTime c)
        (duration c) (volume c) (audio c) (playlist c) (currentNode c)
        (calls c).
Definition with_isPlaying (x : bool) (c : App) : App :=
  mkApp (heap c) (tracks c) (currentTrackIndex c) x (isLoadingTrack c)
        (currentTime c) (duration c) (volume c) (audio c) (playlist c)
        (currentNode c) (calls c).
Definition with_isLoadingTrack (x : bool) (c : App) : App :=
  mkApp (heap c) (tracks c) (currentTrackIndex c) (isPlaying c) x
        (currentTime c) (duration c) (volume c) (audio c) (playlist c)
        (currentNode c) (calls c).
Definition with_currentTime (x : num) (c : App) : App :=
  mkApp (heap c) (tracks c) (currentTrackIndex c) (isPlaying c)
        (isLoadingTrack c) x (duration c) (volume c) (audio c) (playlist c)
        (currentNode c) (calls c).
Definition with_duration (x : num) (c : App) : App :=
  mkApp (heap c) (tracks c) (currentTrackIndex c) (isPlaying c)
        (isLoadingTrack c) (currentTime c) x (volume c) (audio c) (playlist c)
        (currentNode c) (calls c).
Definition with_volume (x : num) (c : App) : App :=
  mkApp (heap c) (tracks c) (currentTrackIndex c) (isPlaying c)
        (isLoadingTrack c) (currentTime c) (duration c) x (audio c)
        (playlist c) (currentNode c) (calls c).
Definition with_audio (x : Audio) (c : App) : App :=
  mkApp (heap c) (tracks c) (currentTrackIndex c) (isPlaying c)
        (isLoadingTrack c) (currentTime c) (duration c) (volume c) x
        (playlist c) (currentNode c) (calls c).
Definition with_playlist (x : DoublyLinkedList tref) (c : App) : App :=
  mkApp (heap c) (tracks c) (currentTrackIndex c) (isPlaying c)
        (isLoadingTrack c) (currentTime c) (duration c) (volume c) (audio c) x
        (currentNode c) (calls c).
Definition with_currentNode (x : option addr) (c : App) : App :=
  mkApp (heap c) (tracks c) (currentTrackIndex c) (isPlaying c)
        (isLoadingTrack c) (currentTime c) (duration c) (volume c) (audio c)
        (playlist c) x (calls c).

(** A call on the platform *)
Definition do_call (k : call) (c : App) : App :=
  mkApp (heap c) (tracks c) (currentTrackIndex c) (isPlaying c)
        (isLoadingTrack c) (currentTime c) (duration c) (volume c) (audio c)
        (playlist c) (currentNode c) (calls c ++ [k]).

(** [this.audio.src = x], [this.audio.currentTime = x],
    [this.audio.volume = x]; [set_audio_duration] is the platform's own
    report of a duration. *)
Definition set_src (x : string) (c : App) : App :=
  with_audio (mkAudio x (a_currentTime (audio c)) (a_duration (audio c))
                      (a_volume (audio c)) (paused (audio c))) c.
Definition set_audio_currentTime (x : num) (c : App) : App :=
  with_audio (mkAudio (src (audio c)) x (a_duration (audio c))
                      (a_volume (audio c)) (paused (audio c))) c.
Definition set_audio_duration (x : num) (c : App) : App :=
  with_audio (mkAudio (src (audio c)) (a_currentTime (audio c)) x
                      (a_volume (audio c)) (paused (audio c))) c.
Definition set_audio_volume (x : num) (c : App) : App :=
  with_audio (mkAudio (src (audio c)) (a_currentTime (audio c))
                      (a_duration (audio c)) x (paused (audio c))) c.

(** [this.audio.pause()] *)
Definition audio_pause (c : App) : App := do_call AudioPause c.

(** [node.value] as the object it refers to *)
Definition track_at (c : App) (node : addr) : option Track :=
  r ← get_value (playlist c) node; heap c !! r.

(** get currentTrack() *)
Definition currentTrack (c : App) : option Track :=
  n ← currentNode c; track_at c n.

(** private playInternal(): the call of [audio.play()]; the promise it
    returns settles later, see [onPlayResolved] and [onPlayRejected]. *)
Definition playInternal (c : App) : App := do_call AudioPlay c.

(** The two continuations of playInternal's promise. *)
Definition onPlayResolved (c : App) : App :=
  with_isLoadingTrack false (with_isPlaying true c).
Definition onPlayRejected (c : App) : App :=
  with_isLoadingTrack false (with_isPlaying false c).

(** The methods below return [None] when the call does not return: a walk
    of the playlist that hits its bound, or a field read through a reference
    to no object. *)

(** private selectNode(node, shouldPlay) *)
Definition selectNode (node : addr) (shouldPlay : bool) (c : App) : option App :=
  let isSameNode := bool_decide (Some node = currentNode c) in
  let c := with_currentNode (Some node) c in
  index ← indexOfNode (Some node) (playlist c);
  let c := with_currentTrackIndex index c in
  c ← (if negb isSameNode then
         track ← track_at c node;
         let c := with_isLoadingTrack true c in
         let c := with_duration (default zero (t_duration track)) c in
         let c := with_currentTime zero c in
         let c := set_src (url track) c in
         Some (do_call AudioLoad c)
       else Some c);
  Some (if shouldPlay then playInternal c else with_isPlaying false c).

(** private refreshPlaylistSnapshot() *)
Definition refreshPlaylistSnapshot (c : App) : option App :=
  ts ← toArray (playlist c);
  let c := with_tracks ts c in
  index ← indexOfNode (currentNode c) (playlist c);
  Some (with_currentTrackIndex index c).

(** private releaseTrackResources(track) *)
Definition releaseTrackResources (track : Track) (c : App) : App :=
  let c := do_call (RevokeObjectURL (url track)) c in
  match artworkUrl track with
  | Some u => do_call (RevokeObjectURL u) c
  | None => c
  end.

Definition playTrack (index : num) (c : App) : option App :=
  if num_lt index zero || num_geq index (of_Z (Z.of_nat (length (tracks c))))
  then Some c
  else match getNodeAt index (playlist c) with
       | None => Some c
       | Some node => selectNode node true c
       end.

Definition seekTo (value : num) (c : App) : App :=
  if negb (num_isFinite value) then c
  else
    let maxBoundary :=
      if num_isFinite (a_duration (audio c)) && num_gt (a_duration (audio c)) zero
      then a_duration (audio c)
      else num_max (duration c) value in
    let clampedTime := num_min (num_max value zero) (num_or maxBoundary value) in
    let c := set_audio_currentTime clampedTime c in
    with_currentTime (a_currentTime (audio c)) c.

Definition togglePlayback (c : App) : option App :=
  match tracks c with
  | [] => Some c
  | _ =>
      match currentNode c with
      | None =>
          match getHead (playlist c) with
          | Some head => selectNode head true c
          | None => Some c
          end
      | Some _ =>
          if paused (audio c) then Some (playInternal c)
          else Some (with_isPlaying false (audio_pause c))
      end
  end.

Definition previousTrack (c : App) : option App :=
  match currentNode c with
  | None => Some c
  | Some cur =>
      if num_gt (a_currentTime (audio c)) (Fin 5) then Some (seekTo zero c)
      else match get_prev (playlist c) cur with
           | Some prevNode => selectNode prevNode true c
           | None => Some c
           end
  end.

Definition nextTrack (c : App) : option App :=
  match currentNode c with
  | None => Some c
  | Some cur =>
      match get_next (playlist c) cur with
      | Some nextNode => selectNode nextNode true c
      | None => Some (seekTo zero (with_isPlaying false (audio_pause c)))
      end
  end.

Definition removeTrack (index : num) (c : App) : option App :=
  match getNodeAt index (playlist c) with
  | None => Some c
  | Some node =>
      let nextNode := get_next (playlist c) node in
      let prevNode := get_prev (playlist c) node in
      let wasCurrent := bool_decide (Some node = currentNode c) in
      let wasPlaying := isPlaying c in
      trackToRemove ← track_at c node;
      let c := with_playlist (removeNode (Some node) (playlist c)).1 c in
      let c := releaseTrackResources trackToRemove c in
      c ← (if wasCurrent then
             let c := audio_pause c in
             let c := with_isPlaying false c in
             let c := with_isLoadingTrack false c in
             let replacement :=
               match nextNode with Some n => Some n | None => prevNode end in
             match replacement with
             | Some r => selectNode r wasPlaying c
             | None =>
                 let c := with_currentNode None c in
                 let c := with_currentTrackIndex (-1) c in
                 let c := with_duration zero c in
                 let c := with_currentTime zero c in
                 Some (set_src "" c)
             end
           else Some c);
      refreshPlaylistSnapshot c
  end.

(** onQueueDrop(event), the event giving previousIndex and currentIndex *)
Definition onQueueDrop (previousIndex currentIndex : num) (c : App)
  : option App :=
  if num_eq previousIndex currentIndex then Some c
  else
    let '(pl, movedNode) := moveNode previousIndex currentIndex (playlist c) in
    let c := with_playlist pl c in
    match movedNode with
    | None => Some c
    | Some m =>
        c ← (if bool_decide (currentNode c = Some m) then
               index ← indexOfNode (currentNode c) (playlist c);
               Some (with_currentTrackIndex index c)
             else Some c);
        refreshPlaylistSnapshot c
    end.

(** onVolumeChange(event), [newVolume] being [Number(target.value)] *)
Definition onVolumeChange (newVolume : num) (c : App) : App :=
  let c := with_volume (num_min (num_max newVolume zero) one) c in
  set_audio_volume (volume c) c.

Definition isCurrentTrack (index : num) (c : App) : bool :=
  num_eq index (of_Z (currentTrackIndex c)).

(** private onTimeUpdate() *)
Definition onTimeUpdate (c : App) : App :=
  with_currentTime (a_currentTime (audio c)) c.

(** private onTrackEnded() *)
Definition onTrackEnded (c : App) : option App := nextTrack c.

(** The tail of onFilesSelected, from the insertion of the new tracks on;
    [newTracks] are the track objects made of the selected files, new
    objects all. *)
Definition insert_tracks (newTracks : list Track) (c : App)
  : App * option addr :=
  foldl (fun '(c, firstInsertedNode) track =>
           let r := length (heap c) in
           let c := with_heap (heap c ++ [track]) c in
           let '(pl, node) := insertAtEnd r (playlist c) in
           (with_playlist pl c,
            match firstInsertedNode with
            | None => Some node
            | Some f => Some f
            end))
        (c, None) newTracks.

Definition addTracks (newTracks : list Track) (c : App) : option App :=
  match newTracks with
  | [] => Some c
  | _ =>
      let '(c, firstInsertedNode) := insert_tracks newTracks c in
      c ← refreshPlaylistSnapshot c;
      match currentNode c with
      | Some _ => Some c
      | None =>
          let nodeToPlay :=
            match firstInsertedNode with
            | Some f => Some f
            | None => getHead (playlist c)
            end in
          match nodeToPlay with
          | Some n => selectNode n true c
          | None => Some c
          end
      end
  end.

(** ngOnDestroy(), the listeners aside *)
Definition ngOnDestroy (c : App) : option App :=
  let c := audio_pause c in
  rs ← toArray (playlist c);
  ts ← mapM (fun r => heap c !! r) rs;
  Some (foldl (fun c track => releaseTrackResources track c) c ts).

(** private onLoadedMetadata() *)
Definition set_track_duration (d : num) (t : Track) : Track :=
  mkTrack (t_id t) (t_name t) (url t) (file t) (Some d) (artworkUrl t).

Definition onLoadedMetadata (c : App) : option App :=
  let d := if num_isFinite (a_duration (audio c)) then a_duration (audio c)
           else zero in
  let c := with_duration d c in
  c ← match currentNode c with
      | Some node =>
          r ← get_value (playlist c) node;
          Some (with_heap (alter (set_track_duration d) r (heap c)) c)
      | None => Some c
      end;
  Some (with_isLoadingTrack false c).

(** ** Reachable sessions *)

Inductive event :=
| AddTracks (newTracks : list Track)
| PlayTrack (index : num)
| TogglePlayback
| PreviousTrack
| NextTrack
| RemoveTrack (index : num)
| QueueDrop (previousIndex currentIndex : num)
| SeekTo (value : num)
| VolumeChange (newVolume : num)
| PlayResolved
| PlayRejected
| LoadedMetadata (reported : num)
| TimeUpdate (reported : num)
| TrackEnded.

Definition step (c : App) (e : event) : option App :=
  match e with
  | AddTracks ts => addTracks ts c
  | PlayTrack i => playTrack i c
  | TogglePlayback => togglePlayback c
  | PreviousTrack => previousTrack c
  | NextTrack => nextTrack c
  | RemoveTrack i => removeTrack i c
  | QueueDrop i j => onQueueDrop i j c
  | SeekTo v => Some (seekTo v c)
  | VolumeChange v => Some (onVolumeChange v c)
  | PlayResolved => Some (onPlayResolved c)
  | PlayRejected => Some (onPlayRejected c)
  | LoadedMetadata d => onLoadedMetadata (set_audio_duration d c)
  | TimeUpdate t => Some (onTimeUpdate (set_audio_currentTime t c))
  | TrackEnded => onTrackEnded c
  end.

Definition steps (es : list event) (c : App) : option App :=
  foldl (fun oc e => oc ≫= fun c => step c e) (Some c) es.

(** ** What a session keeps *)

(** [sound c l vs]: the playlist holds the nodes [l] carrying the track
    references [vs], every one of them a track of the heap, and the cursor,
    when set, is one of the nodes. *)
Record sound (c : App) (l : list addr) (vs : list tref) : Prop := mkSound {
  sound_holds : holds (playlist c) l vs;
  sound_heap : Forall (fun r => is_Some (heap c !! r)) vs;
  sound_cursor : forall n, currentNode c = Some n -> n ∈ l
}.

(** The bound a seek is held to: the platform's duration when finite and
    positive, else the larger of the displayed duration and the value asked
    for. *)
Definition effectiveDuration (value : num) (c : App) : num :=
  if num_isFinite (a_duration (audio c)) && num_gt (a_duration (audio c)) zero
  then a_duration (audio c)
  else num_max (duration c) value.

(** ** What removeTrack comes to *)

(** The calls that release a track's resources. *)
Definition released (t : Track) : list call :=
  RevokeObjectURL (url t) ::
  match artworkUrl t with Some u => [RevokeObjectURL u] | None => [] end.

(** The index shown for a cursor in a list of nodes. *)
Definition shown_index (cur : option nat) (l : list nat) : Z :=
  match cur with Some n => index_from n l 0 | None => -1 end.


(** The node that takes over when the current one goes: the successor,
    else the predecessor. *)
Definition replacement_of (l1 l2 : list nat) : option nat :=
  match head l2 with Some n => Some n | None => last l1 end.

(** The component after removeTrack at a valid index, when the node there
    is [a], between [l1] and [l2], and carries the track [t]. *)
Definition after_remove (c : App) (l1 : list nat) (a : nat) (l2 : list nat)
    (vs : list nat) (t : Track) : option App :=
  let pl := (removeNode (Some a) (playlist c)).1 in
  let l' := l1 ++ l2 in
  let vs' := delete (length l1) vs in
  if bool_decide (Some a = currentNode c) then
    match replacement_of l1 l2 with
    | Some r =>
        tr ← track_at c r;
        Some (mkApp (heap c) vs' (index_from r l' 0) false true zero
                (default zero (t_duration tr)) (volume c)
                (mkAudio (url tr) (a_currentTime (audio c))
                         (a_duration (audio c)) (a_volume (audio c))
                         (paused (audio c)))
                pl (Some r)
                (calls c ++ released t ++ [AudioPause; AudioLoad] ++
                 (if isPlaying c then [AudioPlay] else [])))
    | None =>
        Some (mkApp (heap c) vs' (-1) false false zero zero (volume c)
                (mkAudio "" (a_currentTime (audio c)) (a_duration (audio c))
                         (a_volume (audio c)) (paused (audio c)))
                pl None (calls c ++ released t ++ [AudioPause]))
    end
  else
    Some (mkApp (heap c) vs'
            (match currentNode c with
             | Some n => index_from n l' 0
             | None => -1
             end)
            (isPlaying c) (isLoadingTrack c) (currentTime c) (duration c)
            (volume c) (audio c) pl (currentNode c) (calls c ++ released t)).

(** ** A session to try the statements on *)

Definition song (name : string) (art : option string) : Track :=
  mkTrack name name name (mkFile name 1000 "audio/mpeg") None art.

(** Three files selected, and the play() of the first one resolved. *)
Definition three_playing : App := Eval vm_compute in
  default initial
    (steps [AddTracks [song "a" (Some "a.png"); song "b" None; song "c" None];
            PlayResolved] initial).

End Player.

(* ===================================================================== *)
(** * Numbers at integers *)
(* ===================================================================== *)

Module NumFacts.
Import Num.

Lemma to_Z_of_Z z : to_Z (of_Z z) = z.
Proof. apply Qfloor_Z. Qed.

Lemma integral_of_Z z : integral (of_Z z).
Proof. by exists z. Qed.

Lemma Qle_bool_Z a b : Qle_bool (inject_Z a) (inject_Z b) = (a <=? b).
Proof. unfold Qle_bool. simpl. by rewrite !Z.mul_1_r. Qed.

Lemma num_leq_of_Z a b : num_leq (of_Z a) (of_Z b) = (a <=? b).
Proof. apply Qle_bool_Z. Qed.

Lemma num_geq_of_Z a b : num_geq (of_Z a) (of_Z b) = (a >=? b).
Proof. unfold num_geq. rewrite num_leq_of_Z. by rewrite Z.geb_leb. Qed.

Lemma num_gt_of_Z a b : num_gt (of_Z a) (of_Z b) = (a >? b).
Proof.
  unfold num_gt, of_Z, num_le. rewrite Qle_bool_Z, Z.gtb_ltb.
  by rewrite Z.ltb_antisym.
Qed.

Lemma num_lt_of_Z a b : num_lt (of_Z a) (of_Z b) = (a <? b).
Proof. unfold num_lt. by rewrite num_gt_of_Z, Z.gtb_ltb. Qed.

Lemma num_eq_of_Z a b : num_eq (of_Z a) (of_Z b) = (a =? b).
Proof. unfold num_eq, of_Z, Qeq_bool. simpl. by rewrite !Z.mul_1_r. Qed.

Lemma num_leq_half a b : num_leq (of_Z a) (num_half (of_Z b)) = (2 * a <=? b).
Proof.
  unfold num_leq, num_half, of_Z, num_le, Qle_bool. simpl.
  rewrite !Z.mul_1_r. f_equal. lia.
Qed.

(** The least integer not below [q] is the only one within a unit above. *)
Lemma Qceiling_unique q z :
  (inject_Z (z - 1) < q)%Q -> (q <= inject_Z z)%Q -> Qceiling q = z.
Proof.
  intros Hlo Hhi.
  pose proof (Qceiling_resp_le _ _ Hhi) as H1. rewrite Qceiling_Z in H1.
  pose proof (Qle_ceiling q) as H2.
  assert (inject_Z (z - 1) < inject_Z (Qceiling q))%Q as H3
    by (eapply Qlt_le_trans; eauto).
  rewrite <- Zlt_Qlt in H3. lia.
Qed.

Lemma Qceiling_pred q : Qceiling (q - 1) = Qceiling q - 1.
Proof.
  apply Qceiling_unique.
  - pose proof (Qceiling_lt q) as H.
    replace (Qceiling q - 1 - 1) with (Qceiling q - 1 + -1) by lia.
    rewrite inject_Z_plus. change (inject_Z (-1)) with (-1 # 1)%Q. lra.
  - pose proof (Qle_ceiling q).
    replace (Qceiling q - 1) with (Qceiling q + -1) by lia.
    rewrite inject_Z_plus. change (inject_Z (-1)) with (-1 # 1)%Q. lra.
Qed.

Lemma Qceiling_pos q : Qle_bool q 0 = false <-> 0 < Qceiling q.
Proof.
  split.
  - intros H. destruct (Z.lt_ge_cases 0 (Qceiling q)) as [|Hc]; [done|].
    exfalso. assert (q <= 0)%Q as Hq.
    { eapply Qle_trans; [apply Qle_ceiling|]. by rewrite Zle_Qle in Hc. }
    apply Qle_bool_iff in Hq. congruence.
  - intros H. destruct (Qle_bool q 0) eqn:E; [|done]. exfalso.
    apply Qle_bool_iff in E. apply Qceiling_resp_le in E.
    change (Qceiling 0) with 0 in E. lia.
Qed.


Lemma Qceiling_Z_sub m q : Qceiling (inject_Z m - q) = m - Qfloor q.
Proof.
  apply Qceiling_unique.
  - pose proof (Qfloor_le q).
    replace (m - Qfloor q - 1) with (m + - Qfloor q + -1) by lia.
    rewrite !inject_Z_plus, inject_Z_opp.
    change (inject_Z (-1)) with (-1 # 1)%Q.
    pose proof (Qlt_floor q) as H'. rewrite inject_Z_plus in H'.
    change (inject_Z 1) with 1%Q in H'. lra.
  - pose proof (Qfloor_le q).
    replace (m - Qfloor q) with (m + - Qfloor q) by lia.
    rewrite inject_Z_plus, inject_Z_opp. lra.
Qed.

Lemma Qfloor_nonneg q : (0 <= q)%Q -> 0 <= Qfloor q.
Proof. intros H. apply Qfloor_resp_le in H. by change (Qfloor 0) with 0 in H. Qed.

Lemma Qceiling_nonneg q : (0 <= q)%Q -> 0 <= Qceiling q.
Proof.
  intros H. apply Qceiling_resp_le in H. by change (Qceiling 0) with 0 in H.
Qed.

Lemma Qfloor_lt_Z q n : (q < inject_Z n)%Q -> Qfloor q < n.
Proof.
  intros H. pose proof (Qfloor_le q).
  assert (inject_Z (Qfloor q) < inject_Z n)%Q as H' by (eapply Qle_lt_trans; eauto).
  by rewrite <- Zlt_Qlt in H'.
Qed.

Lemma Qceiling_le_Z q n : (q <= inject_Z n)%Q -> Qceiling q <= n.
Proof. intros H. apply Qceiling_resp_le in H. by rewrite Qceiling_Z in H. Qed.

Lemma Qle_bool_false p q : Qle_bool p q = false <-> (q < p)%Q.
Proof.
  split.
  - intros H. apply Qnot_le_lt. intros Hle. apply Qle_bool_iff in Hle. congruence.
  - intros H. destruct (Qle_bool p q) eqn:E; [|done].
    apply Qle_bool_iff in E. exfalso. by apply (Qlt_not_le _ _ H).
Qed.

End NumFacts.

(* ===================================================================== *)
(** * The extractor: synchsafe integers *)
(* ===================================================================== *)

Module ID3Facts.
Import ID3.

Lemma u8_range (b : byte) : 0 <= u8 b < 256.
Proof.
  unfold u8. pose proof (Byte.to_N_bounded b). lia.
Qed.

Lemma to_int32_small z : 0 <= z < 2 ^ 31 -> to_int32 z = z.
Proof.
  intros Hz. unfold to_int32. rewrite Z.mod_small by lia.
  destruct (Z.ltb_spec z (2 ^ 31)); lia.
Qed.

Lemma lor_disjoint a b n :
  0 <= n -> 0 <= b < 2 ^ n -> Z.lor (a * 2 ^ n) b = a * 2 ^ n + b.
Proof.
  intros Hn Hb. rewrite <- Z.add_lor_land.
  assert (Z.land (a * 2 ^ n) b = 0) as ->; [|lia].
  apply Z.bits_inj'. intros i Hi. rewrite Z.land_spec, Z.bits_0.
  destruct (Z.lt_ge_cases i n).
  - by rewrite Z.mul_pow2_bits_low.
  - assert (Z.testbit b i = false) as ->; [|by rewrite andb_false_r].
    apply Z.testbit_false; [done|]. rewrite Z.div_small; [done|].
    split; [lia|]. apply Z.lt_le_trans with (2 ^ n); [lia|].
    apply Z.pow_le_mono_r; lia.
Qed.

Lemma lor_bound a b n : 0 <= n -> 0 <= a < 2 ^ n -> 0 <= b < 2 ^ n ->
  0 <= Z.lor a b < 2 ^ n.
Proof.
  intros Hn Ha Hb. split; [apply Z.lor_nonneg; lia|].
  destruct (Z.eq_dec a 0) as [->|]; [rewrite Z.lor_0_l; lia|].
  destruct (Z.eq_dec b 0) as [->|]; [rewrite Z.lor_0_r; lia|].
  assert (0 < Z.lor a b).
  { pose proof (proj2 (Z.lor_nonneg a b) ltac:(lia)).
    destruct (Z.eq_dec (Z.lor a b) 0) as [E|]; [|lia].
    apply Z.lor_eq_0_iff in E. lia. }
  apply Z.log2_lt_pow2; [done|]. rewrite Z.log2_lor by lia.
  apply Z.max_lub_lt; apply Z.log2_lt_pow2; lia.
Qed.

(** The decoder on in-range bytes: the plain OR of the shifted bytes. *)
Lemma synchsafe_lor b0 b1 b2 b3 :
  0 <= b0 < 256 -> 0 <= b1 < 256 -> 0 <= b2 < 256 -> 0 <= b3 < 256 ->
  synchsafe b0 b1 b2 b3
  = Z.lor (Z.lor (Z.lor (b0 * 2 ^ 21) (b1 * 2 ^ 14)) (b2 * 2 ^ 7)) b3
  /\ 0 <= synchsafe b0 b1 b2 b3 < 2 ^ 29.
Proof.
  intros H0 H1 H2 H3. unfold synchsafe, shl32, or32.
  change (21 mod 32) with 21. change (14 mod 32) with 14.
  change (7 mod 32) with 7.
  rewrite !(to_int32_small b0), !(to_int32_small b1), !(to_int32_small b2),
    !(to_int32_small b3) by lia.
  rewrite !Z.shiftl_mul_pow2 by lia.
  assert (0 <= b0 * 2 ^ 21 < 2 ^ 29) by lia.
  assert (0 <= b1 * 2 ^ 14 < 2 ^ 29) by lia.
  assert (0 <= b2 * 2 ^ 7 < 2 ^ 29) by lia.
  assert (0 <= b3 < 2 ^ 29) by lia.
  pose proof (lor_bound (b0 * 2 ^ 21) (b1 * 2 ^ 14) 29
                ltac:(lia) ltac:(lia) ltac:(lia)) as Ha.
  pose proof (lor_bound _ (b2 * 2 ^ 7) 29 ltac:(lia) Ha ltac:(lia)) as Hb.
  pose proof (lor_bound _ b3 29 ltac:(lia) Hb ltac:(lia)) as Hc.
  rewrite !(to_int32_small (b0 * 2 ^ 21)), !(to_int32_small (b1 * 2 ^ 14)),
    !(to_int32_small (b2 * 2 ^ 7)) by lia.
  rewrite !(to_int32_small (Z.lor (b0 * 2 ^ 21) (b1 * 2 ^ 14))) by lia.
  rewrite !(to_int32_small (Z.lor _ (b2 * 2 ^ 7))) by lia.
  rewrite !(to_int32_small (Z.lor _ b3)) by lia.
  split; [done | lia].
Qed.

Lemma land_7f b : 0 <= b < 128 -> Z.land b 0x7F = b.
Proof.
  intros. change 0x7F with (Z.ones 7). rewrite Z.land_ones by lia.
  apply Z.mod_small. lia.
Qed.

Lemma synchsafe_low b0 b1 b2 b3 :
  0 <= b0 < 128 -> 0 <= b1 < 128 -> 0 <= b2 < 128 -> 0 <= b3 < 128 ->
  synchsafe b0 b1 b2 b3 = spec_synchsafe b0 b1 b2 b3
  /\ 0 <= synchsafe b0 b1 b2 b3 < 2 ^ 28.
Proof.
  intros H0 H1 H2 H3.
  destruct (synchsafe_lor b0 b1 b2 b3) as [-> _]; try lia.
  unfold spec_synchsafe. rewrite !land_7f by lia.
  rewrite (lor_disjoint b0 (b1 * 2 ^ 14) 21) by lia.
  replace (b0 * 2 ^ 21 + b1 * 2 ^ 14) with ((b0 * 2 ^ 7 + b1) * 2 ^ 14) by lia.
  rewrite (lor_disjoint _ (b2 * 2 ^ 7) 14) by lia.
  replace ((b0 * 2 ^ 7 + b1) * 2 ^ 14 + b2 * 2 ^ 7)
    with (((b0 * 2 ^ 7 + b1) * 2 ^ 7 + b2) * 2 ^ 7) by lia.
  rewrite (lor_disjoint _ b3 7) by lia.
  lia.
Qed.

(** ** Reads that stay inside *)

(** [okP P m]: [m] ends with a value, and the value satisfies [P]. *)
Definition okP {A} (P : A -> Prop) (m : res A) : Prop :=
  exists v, m = Val v /\ P v.

Lemma okP_bind {A B} (P : A -> Prop) (Q : B -> Prop) (m : res A) (f : A -> res B) :
  okP P m -> (forall v, P v -> okP Q (f v)) -> okP Q (m ≫= f).
Proof. intros (v & -> & Hv) Hf. by apply Hf. Qed.

Lemma okP_val {A} (P : A -> Prop) (v : A) : P v -> okP P (Val v).
Proof. intros. by exists v. Qed.

Lemma okP_weaken {A} (P Q : A -> Prop) (m : res A) :
  okP P m -> (forall v, P v -> Q v) -> okP Q m.
Proof. intros (v & -> & Hv) H. exists v. auto. Qed.

Lemma read_ok data i :
  0 <= i < len data -> okP (fun v => 0 <= v < 256) (read data i).
Proof.
  intros Hi. unfold read, len in *.
  destruct (Z.ltb_spec i 0); [lia|].
  destruct (data !! Z.to_nat i) as [b|] eqn:E.
  - apply okP_val, u8_range.
  - apply lookup_ge_None in E. lia.
Qed.






Lemma skip_to_null_ok fuel data offset end_ :
  0 <= offset -> end_ <= len data ->
  (Z.to_nat (end_ - offset) < fuel)%nat ->
  okP (fun o => offset <= o /\ (o <= end_ \/ o = offset))
      (skip_to_null fuel data offset end_).
Proof.
  revert offset. induction fuel as [|fuel IH]; intros offset Ho He Hf; [lia|].
  simpl. destruct (Z.ltb_spec offset end_); [|apply okP_val; cbn beta; lia].
  eapply okP_bind; [apply read_ok; lia | intros b Hb; cbn beta in *].
  destruct (b =? 0); simpl; [apply okP_val; cbn beta; lia|].
  eapply okP_weaken; [apply IH; lia|]. intros v Hv; simpl in Hv. lia.
Qed.

Lemma skip_to_null_pair_ok fuel data offset end_ :
  0 <= offset -> end_ <= len data ->
  (Z.to_nat (end_ - offset) < fuel)%nat ->
  okP (fun o => Z.min offset end_ <= o /\ (o <= end_ \/ o <= offset))
      (skip_to_null_pair fuel data offset end_).
Proof.
  revert offset. induction fuel as [|fuel IH]; intros offset Ho He Hf; [lia|].
  simpl. destruct (Z.ltb_spec (offset + 1) end_); [|apply okP_val; cbn beta; lia].
  eapply okP_bind; [apply read_ok; lia | intros b0 Hb0; cbn beta in *].
  destruct (b0 =? 0).
  - eapply okP_bind; [apply read_ok; lia | intros b1 Hb1; cbn beta in *].
    destruct (b1 =? 0); [apply okP_val; cbn beta; lia|].
    eapply okP_weaken; [apply IH; lia|]. intros v Hv; simpl in Hv. lia.
  - eapply okP_weaken; [apply IH; lia|]. intros v Hv; simpl in Hv. lia.
Qed.

Lemma advancePastEncodedString_ok data offset end_ encoding :
  0 <= offset -> end_ <= len data ->
  okP (fun o => Z.min offset end_ <= o <= end_)
      (advancePastEncodedString data offset end_ encoding).
Proof.
  intros. unfold advancePastEncodedString.
  destruct (Z.geb_spec offset end_); [apply okP_val; cbn beta; lia|].
  destruct ((encoding =? 0) || (encoding =? 3)).
  - eapply okP_bind; [apply skip_to_null_ok; lia | intros o Ho; cbn beta in *].
    apply okP_val; cbn beta; lia.
  - eapply okP_weaken; [apply skip_to_null_pair_ok; lia|].
    intros v Hv; simpl in Hv. lia.
Qed.





Lemma len_subarray data a b :
  0 <= a -> len (subarray data a b) = Z.max 0 (Z.min (b - a) (len data - a)).
Proof.
  intros. unfold len, subarray. rewrite length_take, length_drop. lia.
Qed.



(** The walk reads the tag only where the tag has bytes: at a frame's
    first byte, identifier and size field, all within [offset + 10 <=
    tag.length]. *)

(** A file made of a header and what follows it. *)
Definition id3_file (version flags s0 s1 s2 s3 : byte) (rest : list byte)
  : list byte :=
  [x49; x44; x33; version; x00; flags; s0; s1; s2; s3] ++ rest.

Lemma subarray_0_app (pre rest : list byte) :
  subarray (pre ++ rest) 0 (len pre) = pre.
Proof.
  unfold subarray, len. rewrite Z.sub_0_r, Nat2Z.id.
  change (Z.to_nat 0) with 0%nat. by rewrite drop_0, take_app_length.
Qed.

Lemma subarray_app_all (pre rest : list byte) n :
  len rest <= n ->
  subarray (pre ++ rest) (len pre) (len pre + n) = rest.
Proof.
  intros. unfold subarray, len in *. rewrite Nat2Z.id, drop_app_length.
  apply take_ge. lia.
Qed.

Lemma subarray_all (data : list byte) : subarray data 0 (len data) = data.
Proof.
  unfold subarray, len. rewrite Z.sub_0_r, Nat2Z.id.
  change (Z.to_nat 0) with 0%nat. rewrite drop_0. apply firstn_all.
Qed.

Lemma bind_val {A B} (v : A) (f : A -> res B) : Val v ≫= f = f v.
Proof. reflexivity. Qed.

Lemma read_lookup data i b :
  0 <= i -> data !! Z.to_nat i = Some b -> read data i = Val (u8 b).
Proof.
  intros Hi Hb. unfold read. destruct (Z.ltb_spec i 0); [lia|]. by rewrite Hb.
Qed.

Lemma subarray_header h0 h1 h2 h3 h4 h5 h6 h7 h8 h9 rest :
  subarray ([h0; h1; h2; h3; h4; h5; h6; h7; h8; h9] ++ rest) 0 10
  = [h0; h1; h2; h3; h4; h5; h6; h7; h8; h9].
Proof. reflexivity. Qed.

Lemma subarray_after_header h0 h1 h2 h3 h4 h5 h6 h7 h8 h9 rest n :
  subarray ([h0; h1; h2; h3; h4; h5; h6; h7; h8; h9] ++ rest) 10 (10 + n)
  = subarray rest 0 n.
Proof.
  unfold subarray. by replace (10 + n - 10) with (n - 0) by lia.
Qed.

Ltac step_read :=
  match goal with
  | |- read ?d ?i ≫= _ = _ =>
      rewrite (read_lookup d i _ ltac:(lia) eq_refl), bind_val; cbv beta
  | |- (read ?d ?i ≫= _) ≫= _ = _ =>
      rewrite (read_lookup d i _ ltac:(lia) eq_refl), bind_val; cbv beta
  end.

(** Extraction from a file whose tag has neither footer nor extended
    header: the frames are walked from the tag's first byte. *)
Lemma extract_plain dec version flags s0 s1 s2 s3 tag :
  3 <= u8 version -> and32 (u8 flags) 0x10 = 0 -> and32 (u8 flags) 0x40 = 0 ->
  synchsafe (u8 s0) (u8 s1) (u8 s2) (u8 s3) = len tag -> 0 < len tag ->
  extractArtworkUrl dec (id3_file version flags s0 s1 s2 s3 tag)
  = frame_loop (S (length tag)) dec (u8 version) tag 0.
Proof.
  intros Hv Hf1 Hf2 Hsz Hlen. unfold extractArtworkUrl, id3_file. cbv zeta.
  rewrite subarray_header.
  change (len [x49; x44; x33; version; x00; flags; s0; s1; s2; s3]) with 10.
  change (10 <? 10) with false. cbv iota.
  do 3 step_read.
  change (negb (u8 x49 =? 73) || negb (u8 x44 =? 68) || negb (u8 x33 =? 51))
    with false. cbv iota.
  step_read. destruct (Z.ltb_spec (u8 version) 3); [lia|].
  step_read. unfold readSynchsafeInteger.
  change (len [x49; x44; x33; version; x00; flags; s0; s1; s2; s3]) with 10.
  change (6 + 4 >? 10) with false. cbv iota.
  do 4 step_read. rewrite Hsz, bind_val. cbv beta.
  destruct (Z.eqb_spec (len tag) 0); [lia|].
  rewrite subarray_after_header, subarray_all.
  destruct (Z.eqb_spec (len tag) 0); [lia|].
  rewrite Hf1, Hf2. change (negb (0 =? 0)) with false.
  rewrite !andb_false_l, subarray_all. apply bind_val.
Qed.

(** ** Extraction as a walk of the declared tag *)





(** ** The claims about the extractor *)

(** The buffer of the example: header, then one APIC frame with text
    encoding 0, MIME "image/png", a picture type, an empty description and
    four image bytes; [size] is the last byte of the tag size, the other
    three being 0. *)
Definition apic_png_frame (pictureType i0 i1 i2 i3 : byte) : list byte :=
  [x41; x50; x49; x43; x00; x00; x00; x11; x00; x00] ++
  [x00] ++ String.list_byte_of_string "image/png" ++ [x00] ++
  [pictureType] ++ [x00] ++ [i0; i1; i2; i3].

Definition example_file (size pictureType i0 i1 i2 i3 : byte) : list byte :=
  id3_file x03 x00 x00 x00 x00 size (apic_png_frame pictureType i0 i1 i2 i3).

(** C2, as stated, fails: with a declared tag size of 17 the tag body ends
    seven bytes into the frame's data, the frame overruns it and nothing is
    returned. *)
Lemma example_size_17_no_artwork :
  extractArtworkUrl (Some decode) (example_file x11 x03 x89 x50 x4e x47)
  = Val None /\
  extractArtworkUrl (Some decode) (example_file x11 x03 x89 x50 x4e x47)
  <> Val (Some (mkArtwork (str "image/png") [x89; x50; x4e; x47])).
Proof. split; [reflexivity | discriminate]. Qed.

(** C2, amended.  With the tag size 27 (the frame's ten-byte header and its
    17 bytes of data), extraction returns the image: MIME type image/png and
    exactly the four image bytes, whatever they and the picture type are. *)
Theorem example_size_27_artwork (pictureType i0 i1 i2 i3 : byte) :
  extractArtworkUrl (Some decode) (example_file x1b pictureType i0 i1 i2 i3)
  = Val (Some (mkArtwork (str "image/png") [i0; i1; i2; i3])).
Proof. reflexivity. Qed.

(** C3, as stated, fails: a byte with its high bit set keeps that bit. *)
Lemma synchsafe_high_bit_kept :
  readSynchsafeInteger [x00; x00; x00; x80] 0 = Val 128 /\
  spec_synchsafe (u8 x00) (u8 x00) (u8 x00) (u8 x80) = 0 /\
  readSynchsafeFromView [x00; x00; x00; x80] 0
  <> Val (spec_synchsafe (u8 x00) (u8 x00) (u8 x00) (u8 x80)).
Proof. split_and!; [reflexivity | reflexivity | discriminate]. Qed.

(** C3, amended.  On four bytes both decoders return the OR of the bytes
    shifted left by 21, 14, 7 and 0 bits, unmasked, a value below 2^29; when
    no byte has its high bit set this is the 28-bit value made of the bytes'
    low 7 bits, most significant byte first. *)
Theorem synchsafe_decoder (b0 b1 b2 b3 : byte) :
  let v := Z.lor (Z.lor (Z.lor (u8 b0 * 2 ^ 21) (u8 b1 * 2 ^ 14))
                        (u8 b2 * 2 ^ 7)) (u8 b3) in
  readSynchsafeInteger [b0; b1; b2; b3] 0 = Val v /\
  readSynchsafeFromView [b0; b1; b2; b3] 0 = Val v /\
  0 <= v < 2 ^ 29 /\
  (u8 b0 < 128 -> u8 b1 < 128 -> u8 b2 < 128 -> u8 b3 < 128 ->
   v = spec_synchsafe (u8 b0) (u8 b1) (u8 b2) (u8 b3) /\ v < 2 ^ 28).
Proof.
  intros v.
  pose proof (u8_range b0). pose proof (u8_range b1).
  pose proof (u8_range b2). pose proof (u8_range b3).
  destruct (synchsafe_lor (u8 b0) (u8 b1) (u8 b2) (u8 b3)) as [Hv Hr];
    [done..|]. fold v in Hv.
  assert (readSynchsafeFromView [b0; b1; b2; b3] 0 = Val v) as Hread.
  { unfold readSynchsafeFromView.
    change (0 + 4 >? len [b0; b1; b2; b3]) with false. cbv iota.
    change (read [b0; b1; b2; b3] 0) with (Val (u8 b0)).
    change (read [b0; b1; b2; b3] (0 + 1)) with (Val (u8 b1)).
    change (read [b0; b1; b2; b3] (0 + 2)) with (Val (u8 b2)).
    change (read [b0; b1; b2; b3] (0 + 3)) with (Val (u8 b3)).
    rewrite !bind_val. by rewrite Hv. }
  split; [exact Hread|]. split; [exact Hread|].
  split; [rewrite <- Hv; exact Hr|].
  intros. destruct (synchsafe_low (u8 b0) (u8 b1) (u8 b2) (u8 b3));
    [lia..|]. rewrite <- Hv. split; [done | lia].
Qed.


(** ** The strings of the picture frame *)

Definition nonzero (b : byte) : Prop := u8 b <> 0.

(** The bytes of 2-byte units. *)
Definition flat (ps : list (byte * byte)) : list byte :=
  concat (map (fun p => [p.1; p.2]) ps).

Definition not_null_pair (p : byte * byte) : Prop :=
  ~ (u8 p.1 = 0 /\ u8 p.2 = 0).

Lemma len_app (a b : list byte) : len (a ++ b) = len a + len b.
Proof. unfold len. rewrite length_app. lia. Qed.

Lemma len_cons (a : byte) (b : list byte) : len (a :: b) = 1 + len b.
Proof. unfold len. simpl length. lia. Qed.

Lemma len_nonneg (a : list byte) : 0 <= len a.
Proof. unfold len. lia. Qed.

Lemma read_middle pre b rest :
  read (pre ++ b :: rest) (len pre) = Val (u8 b).
Proof.
  apply read_lookup; [apply len_nonneg|].
  unfold len. rewrite Nat2Z.id. apply list_lookup_middle. done.
Qed.

Lemma find_from_nonzero m rest v i :
  Forall (fun x => u8 x <> v) m ->
  find_from (m ++ rest) v i = find_from rest v (i + len m).
Proof.
  revert i. induction m as [|b m IH]; intros i Hm; simpl.
  - f_equal. unfold len. simpl. lia.
  - inversion Hm as [|? ? Hb Hm']; subst.
    destruct (Z.eqb_spec (u8 b) v); [done|].
    rewrite IH by done. f_equal. rewrite len_cons. lia.
Qed.

Lemma indexOf_first_null e m rest :
  Forall nonzero m -> indexOf (e :: m ++ x00 :: rest) 0 1 = 1 + len m.
Proof.
  intros Hm. unfold indexOf. change (Z.to_nat 1) with 1%nat. cbn [drop].
  rewrite drop_0, find_from_nonzero by done. reflexivity.
Qed.

Lemma indexOf_no_null e tl :
  Forall nonzero tl -> indexOf (e :: tl) 0 1 = -1.
Proof.
  intros Hm. unfold indexOf. change (Z.to_nat 1) with 1%nat. cbn [drop].
  rewrite drop_0, <- (app_nil_r tl), find_from_nonzero by done. reflexivity.
Qed.

Lemma skip_to_null_finds fuel pre desc rest :
  Forall nonzero desc -> (length desc < fuel)%nat ->
  skip_to_null fuel (pre ++ desc ++ x00 :: rest) (len pre)
               (len (pre ++ desc ++ x00 :: rest))
  = Val (len pre + len desc).
Proof.
  revert fuel pre. induction desc as [|b desc IH]; intros fuel pre Hd Hf.
  - destruct fuel as [|fuel]; [simpl in Hf; lia|]. simpl skip_to_null.
    rewrite len_app, len_cons. pose proof (len_nonneg rest).
    destruct (Z.ltb_spec (len pre) (len pre + (1 + len rest))); [|lia].
    rewrite read_middle, bind_val. change (u8 x00 =? 0) with true.
    simpl. f_equal. unfold len. simpl. lia.
  - destruct fuel as [|fuel]; [simpl in Hf; lia|]. simpl skip_to_null.
    inversion Hd as [|? ? Hb Hd']; subst.
    rewrite !len_app, !len_cons. pose proof (len_nonneg rest).
    pose proof (len_nonneg desc).
    destruct (Z.ltb_spec (len pre) (len pre + (1 + len (desc ++ x00 :: rest))));
      [|rewrite len_app, len_cons in *; lia].
    change (pre ++ (b :: desc) ++ x00 :: rest)
      with (pre ++ b :: (desc ++ x00 :: rest)).
    rewrite read_middle, bind_val.
    destruct (Z.eqb_spec (u8 b) 0) as [E|_]; [by destruct Hb|]. cbn [negb].
    replace (pre ++ b :: desc ++ x00 :: rest)
      with ((pre ++ [b]) ++ desc ++ x00 :: rest) by by rewrite <- app_assoc.
    replace (len pre + 1) with (len (pre ++ [b]))
      by (rewrite len_app; unfold len; simpl; lia).
    replace (len pre + (1 + len (desc ++ x00 :: rest)))
      with (len ((pre ++ [b]) ++ desc ++ x00 :: rest))
      by (rewrite !len_app, !len_cons; unfold len; simpl; lia).
    rewrite IH by (done || simpl in Hf; lia).
    f_equal. rewrite len_app. unfold len. simpl. lia.
Qed.

Lemma len_flat_cons p ps : len (flat (p :: ps)) = 2 + len (flat ps).
Proof. unfold flat, len. simpl. lia. Qed.

Lemma skip_to_null_pair_S k data offset end_ :
  skip_to_null_pair (S k) data offset end_ =
  if offset + 1 <? end_ then
    b0 ← read data offset;
    if b0 =? 0 then
      b1 ← read data (offset + 1);
      if b1 =? 0 then Val (Z.min (offset + 2) end_)
      else skip_to_null_pair k data (offset + 2) end_
    else skip_to_null_pair k data (offset + 2) end_
  else Val end_.
Proof. reflexivity. Qed.

Lemma skip_to_null_pair_finds fuel pre ps rest :
  Forall not_null_pair ps -> (length ps < fuel)%nat ->
  skip_to_null_pair fuel (pre ++ flat ps ++ x00 :: x00 :: rest) (len pre)
                    (len (pre ++ flat ps ++ x00 :: x00 :: rest))
  = Val (len pre + len (flat ps) + 2).
Proof.
  revert fuel pre. induction ps as [|[a b] ps IH]; intros fuel pre Hd Hf.
  - destruct fuel as [|fuel]; [simpl in Hf; lia|].
    rewrite skip_to_null_pair_S.
    change (flat [] ++ x00 :: x00 :: rest) with (x00 :: x00 :: rest).
    rewrite len_app, !len_cons. pose proof (len_nonneg rest).
    destruct (Z.ltb_spec (len pre + 1) (len pre + (1 + (1 + len rest)))); [|lia].
    rewrite read_middle, bind_val. change (u8 x00 =? 0) with true. cbv iota.
    replace (pre ++ x00 :: x00 :: rest) with ((pre ++ [x00]) ++ x00 :: rest)
      by by rewrite <- app_assoc.
    replace (len pre + 1) with (len (pre ++ [x00]))
      by (rewrite len_app; unfold len; simpl; lia).
    rewrite read_middle, bind_val. change (u8 x00 =? 0) with true. cbv iota.
    f_equal. change (len (flat [])) with 0. lia.
  - destruct fuel as [|fuel]; [simpl in Hf; lia|].
    rewrite skip_to_null_pair_S.
    inversion Hd as [|? ? Hab Hd']; subst.
    change (flat ((a, b) :: ps) ++ x00 :: x00 :: rest)
      with (a :: b :: (flat ps ++ x00 :: x00 :: rest)).
    set (tl := flat ps ++ x00 :: x00 :: rest) in *.
    rewrite len_app, !len_cons. pose proof (len_nonneg tl).
    destruct (Z.ltb_spec (len pre + 1) (len pre + (1 + (1 + len tl)))); [|lia].
    rewrite read_middle, bind_val.
    assert (skip_to_null_pair fuel (pre ++ a :: b :: tl) (len pre + 2)
              (len pre + (1 + (1 + len tl)))
            = Val (len pre + len (flat ((a, b) :: ps)) + 2)) as Hrec.
    { replace (pre ++ a :: b :: tl) with ((pre ++ [a; b]) ++ tl)
        by by rewrite <- app_assoc.
      replace (len pre + 2) with (len (pre ++ [a; b]))
        by (rewrite len_app; unfold len; simpl; lia).
      replace (len pre + (1 + (1 + len tl))) with (len ((pre ++ [a; b]) ++ tl))
        by (rewrite !len_app; unfold len; simpl; lia).
      unfold tl. rewrite IH by (done || simpl in Hf; lia).
      f_equal. rewrite len_flat_cons, len_app. unfold len. simpl. lia. }
    destruct (Z.eqb_spec (u8 a) 0) as [Ea|_]; [|exact Hrec].
    replace (pre ++ a :: b :: tl) with ((pre ++ [a]) ++ b :: tl)
      by by rewrite <- app_assoc.
    replace (len pre + 1) with (len (pre ++ [a]))
      by (rewrite len_app; unfold len; simpl; lia).
    rewrite read_middle, bind_val.
    destruct (Z.eqb_spec (u8 b) 0) as [Eb|_]; [by destruct Hab|].
    rewrite <- Hrec. by rewrite <- app_assoc.
Qed.

(** The description in encodings 0 and 3 ends with its first null byte. *)
Lemma advance_single enc pre desc rest :
  enc = 0 \/ enc = 3 -> Forall nonzero desc ->
  advancePastEncodedString (pre ++ desc ++ x00 :: rest) (len pre)
    (len (pre ++ desc ++ x00 :: rest)) enc
  = Val (len pre + len desc + 1).
Proof.
  intros He Hd. unfold advancePastEncodedString.
  pose proof (len_nonneg rest). pose proof (len_nonneg desc).
  pose proof (len_nonneg pre).
  assert (len (pre ++ desc ++ x00 :: rest) = len pre + len desc + 1 + len rest)
    as Hlen by (rewrite !len_app, len_cons; lia).
  destruct (Z.geb_spec (len pre) (len (pre ++ desc ++ x00 :: rest))); [lia|].
  replace ((enc =? 0) || (enc =? 3)) with true by (destruct He; by subst).
  rewrite skip_to_null_finds; [|done|unfold len in *; lia].
  rewrite bind_val. f_equal. lia.
Qed.

(** In any other encoding it ends with the first null pair met in steps
    of two bytes from its start. *)
Lemma advance_pair enc pre ps rest :
  enc <> 0 -> enc <> 3 -> Forall not_null_pair ps ->
  advancePastEncodedString (pre ++ flat ps ++ x00 :: x00 :: rest) (len pre)
    (len (pre ++ flat ps ++ x00 :: x00 :: rest)) enc
  = Val (len pre + len (flat ps) + 2).
Proof.
  intros He0 He3 Hd. unfold advancePastEncodedString.
  pose proof (len_nonneg rest). pose proof (len_nonneg (flat ps)).
  pose proof (len_nonneg pre).
  assert (len (pre ++ flat ps ++ x00 :: x00 :: rest)
          = len pre + len (flat ps) + 2 + len rest)
    as Hlen by (rewrite !len_app, !len_cons; lia).
  destruct (Z.geb_spec (len pre) (len (pre ++ flat ps ++ x00 :: x00 :: rest)));
    [lia|].
  destruct (Z.eqb_spec enc 0); [done|]. destruct (Z.eqb_spec enc 3); [done|].
  cbn [orb]. apply skip_to_null_pair_finds; [done|].
  assert (len (flat ps) = 2 * Z.of_nat (length ps)) as Hfl.
  { clear. induction ps as [|p ps IH]; [done|].
    rewrite len_flat_cons, IH. simpl length. lia. }
  unfold len in *. lia.
Qed.

Lemma or_else_nonempty (a b : jsstring) : b <> [] -> or_else a b <> [].
Proof. by destruct a. Qed.

Lemma mime_of_nonempty dec m : mime_of dec m <> [].
Proof.
  unfold mime_of, toLowerCase. intros E%fmap_nil_inv. revert E.
  by apply or_else_nonempty.
Qed.

Lemma or_else_id (a b : jsstring) : a <> [] -> or_else a b = a.
Proof. by destruct a. Qed.

Lemma subarray_mime e m rest :
  subarray (e :: m ++ x00 :: rest) 1 (1 + len m) = m.
Proof.
  unfold subarray. replace (1 + len m - 1) with (len m) by lia.
  change (Z.to_nat 1) with 1%nat. cbn [drop]. rewrite drop_0.
  unfold len. by rewrite Nat2Z.id, take_app_length.
Qed.

(** Whatever the encoding byte [e], the MIME string of a picture frame is
    what lies between byte 1 and the first null byte. *)
Lemma parseApicFrame_mime dec e m p rest :
  Forall nonzero m -> 1 <= len m + len rest ->
  let frameData := e :: m ++ x00 :: p :: rest in
  parseApicFrame dec frameData =
    cursor ← advancePastEncodedString frameData (len m + 3) (len frameData) (u8 e);
    if cursor >=? len frameData then Val None
    else Val (Some (mkArtwork (mime_of dec m)
                              (subarray frameData cursor (len frameData)))).
Proof.
  intros Hm Hlen frameData. unfold parseApicFrame.
  pose proof (len_nonneg m). pose proof (len_nonneg rest).
  assert (len frameData = len m + len rest + 3) as Hl.
  { unfold frameData. rewrite len_cons, len_app, !len_cons. lia. }
  destruct (Z.ltb_spec (len frameData) 4); [lia|].
  assert (indexOf frameData 0 1 = 1 + len m) as Hidx
    by by apply indexOf_first_null.
  assert (subarray frameData 1 (1 + len m) = m) as Hsub
    by apply subarray_mime.
  change (read frameData 0) with (Val (u8 e)). rewrite bind_val. cbv zeta beta.
  rewrite !Hidx, Hsub.
  destruct (Z.eqb_spec (1 + len m) (-1)); [lia|].
  destruct (Z.geb_spec (1 + len m + 1) (len frameData)); [lia|].
  replace (1 + len m + 1 + 1) with (len m + 3) by lia.
  destruct (advancePastEncodedString_ok frameData (len m + 3) (len frameData)
              (u8 e)) as (c & -> & Hc); [lia | lia |].
  rewrite !bind_val. cbv beta.
  destruct (Z.geb_spec c (len frameData)); [done|].
  assert (len (subarray frameData c (len frameData)) <> 0) as Hne.
  { rewrite len_subarray by lia. lia. }
  destruct (Z.eqb_spec (len (subarray frameData c (len frameData))) 0); [done|].
  by rewrite or_else_id by apply mime_of_nonempty.
Qed.

(** Without a null byte after byte 0 there is no picture. *)
Lemma parseApicFrame_no_terminator dec e tl :
  Forall nonzero tl -> parseApicFrame dec (e :: tl) = Val None.
Proof.
  intros Htl. unfold parseApicFrame.
  destruct (len (e :: tl) <? 4); [done|].
  change (read (e :: tl) 0) with (Val (u8 e)). rewrite bind_val. cbv zeta.
  by rewrite indexOf_no_null.
Qed.

(** The MIME type handed on: image/jpeg without a decoder or when the
    decoded string trims to nothing, else that string trimmed and
    lower-cased. *)
Lemma mime_of_cases dec m :
  mime_of dec m =
  match dec with
  | Some d => match trim (d m) with
              | [] => str "image/jpeg"
              | _ :: _ => toLowerCase (trim (d m))
              end
  | None => str "image/jpeg"
  end.
Proof. unfold mime_of. destruct dec as [d|]; [|done]. by destruct (trim (d m)). Qed.

Lemma trimStart_spaces pre s :
  Forall (fun c => is_space c = true) pre -> trimStart (pre ++ s) = trimStart s.
Proof. induction 1 as [|c pre Hc _ IH]; [done|]. simpl. by rewrite Hc. Qed.

Lemma trimStart_id s :
  (forall c, head s = Some c -> is_space c = false) -> trimStart s = s.
Proof. destruct s as [|c s]; [done|]. intros H. simpl. by rewrite (H c). Qed.

(** trim removes the white space at both ends, and nothing else. *)
Lemma trim_spec pre core post :
  Forall (fun c => is_space c = true) pre ->
  Forall (fun c => is_space c = true) post ->
  (forall c, head core = Some c -> is_space c = false) ->
  (forall c, last core = Some c -> is_space c = false) ->
  trim (pre ++ core ++ post) = core.
Proof.
  intros Hpre Hpost Hh Hl. unfold trim. rewrite trimStart_spaces by done.
  destruct core as [|c core].
  - simpl. rewrite <- (app_nil_r post), trimStart_spaces by done. simpl.
    by rewrite reverse_nil.
  - rewrite (trimStart_id ((c :: core) ++ post))
      by (intros c' Hc'; apply Hh; exact Hc').
    rewrite reverse_app, trimStart_spaces by by apply Forall_reverse.
    rewrite trimStart_id; [apply reverse_involutive|].
    intros c' Hc'. apply Hl. by rewrite <- head_reverse.
Qed.

Lemma is_space_ascii c :
  0 <= c < 128 -> is_space c = true <-> (9 <= c <= 13 \/ c = 32).
Proof.
  intros Hc. unfold is_space. rewrite !orb_true_iff, !andb_true_iff.
  rewrite !Z.leb_le, !Z.eqb_eq. lia.
Qed.

Lemma toLowerCase_ascii s :
  Forall (fun c => 0 <= c < 128) s ->
  toLowerCase s = map (fun c => if (65 <=? c) && (c <=? 90) then c + 32 else c) s.
Proof.
  intros Hs. unfold toLowerCase. apply map_ext_Forall.
  eapply Forall_impl; [exact Hs|]. intros c Hc. cbn beta in *.
  unfold lower_char.
  destruct ((65 <=? c) && (c <=? 90)); [done|].
  rewrite (proj2 (Z.leb_gt 192 c)) by lia. cbn [andb].
  by rewrite !(proj2 (Z.eqb_neq c _)) by lia.
Qed.

Lemma decode_ascii m :
  Forall (fun b => u8 b < 128) m -> decode m = map u8 m.
Proof.
  intros Hm. unfold decode. apply map_ext_Forall.
  eapply Forall_impl; [exact Hm|]. intros b Hb. cbn beta in *.
  unfold decode_char.
  destruct (Z.leb_spec 128 (u8 b)); [lia | done].
Qed.

(** C4, as stated, fails: with text encoding 1 the MIME string still ends
    at the first single null byte.  In this frame the reading by null pairs
    takes bytes 1 to 4 for the MIME string, byte 7 for the picture type and
    the last two bytes for the payload; the code takes byte 1 for the MIME
    string, byte 3 for the picture type and the last six bytes for the
    payload, whatever the decoder is. *)
Lemma mime_single_null_in_utf16 :
  let frameData := [x01; x61; x00; x62; x00; x00; x00; x03; x00; x00; xff; xd8] in
  spec_apic_parts frameData = Val (Some ([x61; x00; x62; x00], [xff; xd8])) /\
  parseApicFrame (Some decode) frameData
  = Val (Some (mkArtwork (str "a") [x00; x03; x00; x00; xff; xd8])) /\
  forall dec, exists mimeType,
    parseApicFrame dec frameData
    = Val (Some (mkArtwork mimeType [x00; x03; x00; x00; xff; xd8])).
Proof.
  split_and!; [reflexivity | reflexivity |].
  intros dec. eexists. reflexivity.
Qed.

(** C4, amended.  In a picture frame the MIME string starting at byte 1
    ends at the first null byte whatever the text encoding is, and with no
    null byte there is no picture.  The MIME type handed on is image/jpeg
    when there is no decoder or when the decoded string trims to nothing,
    and otherwise the decoded string trimmed and lower-cased; trimming takes
    the white space off both ends (the characters 9 to 13 and 32 among the
    ASCII ones), lower-casing maps A-Z to a-z and leaves the other ASCII
    characters, and the platform's decoder gives ASCII bytes as they are.
    The description after the picture-type byte ends at its first null byte
    in encodings 0 and 3, and in any other encoding at the first null pair
    met in steps of two bytes from its start. *)
Theorem apic_strings (dec : option (list byte -> jsstring)) :
  (forall e m p rest, Forall nonzero m -> 1 <= len m + len rest ->
     let frameData := e :: m ++ x00 :: p :: rest in
     let mimeType :=
       match dec with
       | Some d => match trim (d m) with
                   | [] => str "image/jpeg"
                   | _ :: _ => toLowerCase (trim (d m))
                   end
       | None => str "image/jpeg"
       end in
     parseApicFrame dec frameData =
       cursor ← advancePastEncodedString frameData (len m + 3)
                  (len frameData) (u8 e);
       if cursor >=? len frameData then Val None
       else Val (Some (mkArtwork mimeType
                                 (subarray frameData cursor (len frameData))))) /\
  (forall pre core post,
     Forall (fun c => is_space c = true) pre ->
     Forall (fun c => is_space c = true) post ->
     (forall c, head core = Some c -> is_space c = false) ->
     (forall c, last core = Some c -> is_space c = false) ->
     trim (pre ++ core ++ post) = core) /\
  (forall c, 0 <= c < 128 -> is_space c = true <-> (9 <= c <= 13 \/ c = 32)) /\
  (forall s, Forall (fun c => 0 <= c < 128) s ->
     toLowerCase s
     = map (fun c => if (65 <=? c) && (c <=? 90) then c + 32 else c) s) /\
  (forall m, Forall (fun b => u8 b < 128) m -> decode m = map u8 m) /\
  (forall e tl, Forall nonzero tl -> parseApicFrame dec (e :: tl) = Val None) /\
  (forall enc pre desc rest, enc = 0 \/ enc = 3 -> Forall nonzero desc ->
     advancePastEncodedString (pre ++ desc ++ x00 :: rest) (len pre)
       (len (pre ++ desc ++ x00 :: rest)) enc
     = Val (len pre + len desc + 1)) /\
  (forall enc pre ps rest, enc <> 0 -> enc <> 3 -> Forall not_null_pair ps ->
     advancePastEncodedString (pre ++ flat ps ++ x00 :: x00 :: rest) (len pre)
       (len (pre ++ flat ps ++ x00 :: x00 :: rest)) enc
     = Val (len pre + len (flat ps) + 2)).
Proof.
  split_and!.
  - intros e m p rest Hm Hl frameData mimeType. unfold mimeType.
    rewrite <- mime_of_cases. by apply parseApicFrame_mime.
  - intros. by apply trim_spec.
  - intros. by apply is_space_ascii.
  - intros. by apply toLowerCase_ascii.
  - intros. by apply decode_ascii.
  - intros. by apply parseApicFrame_no_terminator.
  - intros. by apply advance_single.
  - intros. by apply advance_pair.
Qed.

(** The amended C3 at the bytes 00 00 02 01, which encode 257. *)
Lemma synchsafe_decoder_witness :
  readSynchsafeInteger [x00; x00; x02; x01] 0 = Val 257 /\
  257 = spec_synchsafe (u8 x00) (u8 x00) (u8 x02) (u8 x01) /\ 257 < 2 ^ 28.
Proof.
  destruct (synchsafe_decoder x00 x00 x02 x01) as (H1 & _ & _ & H4).
  split; [exact H1|]. apply H4; reflexivity.
Defined.

(** The amended C4 at a frame in encoding 1 whose MIME bytes are
    " Image/PNG  ", and at descriptions in encodings 0 and 1. *)
Lemma apic_strings_witness :
  parseApicFrame (Some decode)
    (x01 :: String.list_byte_of_string " Image/PNG  "
         ++ x00 :: x03 :: [x00; x00; xff; xd8])
  = Val (Some (mkArtwork (str "image/png") [xff; xd8])) /\
  trim ([32; 9] ++ str "a b" ++ [10]) = str "a b" /\
  is_space 32 = true /\
  toLowerCase (str "Image/PNG") = str "image/png" /\
  decode (String.list_byte_of_string "Image/PNG") = str "Image/PNG" /\
  parseApicFrame (Some decode) (x00 :: [x61; x62; x63; x64]) = Val None /\
  advancePastEncodedString ([x00; x61; x00; x03] ++ [x64; x65] ++ x00 :: [xff])
    4 8 0 = Val 7 /\
  advancePastEncodedString
    ([x01; x61; x00; x03] ++ flat [(x64, x00); (x00, x65)] ++ x00 :: x00 :: [xff])
    4 11 1 = Val 10.
Proof.
  destruct (apic_strings (Some decode))
    as (H1 & H2 & H3 & H4 & H5 & H6 & H7 & H8).
  split_and!.
  - rewrite (H1 x01 (String.list_byte_of_string " Image/PNG  ") x03
               [x00; x00; xff; xd8]).
    + reflexivity.
    + repeat constructor; vm_compute; discriminate.
    + vm_compute. discriminate.
  - apply H2; [by repeat constructor | by repeat constructor
              | by intros c [= <-] | by intros c [= <-]].
  - apply H3; lia.
  - rewrite H4; [reflexivity|]. repeat constructor; vm_compute; discriminate.
  - rewrite H5; [reflexivity|]. by repeat constructor.
  - apply H6. repeat constructor; vm_compute; discriminate.
  - apply (H7 0 [x00; x61; x00; x03] [x64; x65] [xff]); [by left|].
    repeat constructor; vm_compute; discriminate.
  - apply (H8 1 [x01; x61; x00; x03] [(x64, x00); (x00, x65)] [xff]);
      [lia | lia |].
    repeat constructor; vm_compute; intros [? ?]; discriminate.
Defined.


End ID3Facts.

(* ===================================================================== *)
(** * The list keeps its shape *)
(* ===================================================================== *)

Module DLLFacts.
Import Num NumFacts DLL.

(** ** Related lists stay related under the list operations *)

Section Together.
Context {A B : Type} (R : A -> B -> Prop).

Lemma Forall2_place (i : nat) (a : A) (b : B) (l : list A) (k : list B) :
  Forall2 R l k -> R a b -> Forall2 R (place i a l) (place i b k).
Proof.
  intros Hl Hab. unfold place.
  apply Forall2_app; [by apply Forall2_take|].
  constructor; [done | by apply Forall2_drop].
Qed.

Lemma Forall2_removed (i : Z) (l : list A) (k : list B) :
  Forall2 R l k -> Forall2 R (removed i l) (removed i k).
Proof. intros. unfold removed. case_match; [done | by apply Forall2_delete]. Qed.

Lemma Forall2_moved (i j : Z) (l : list A) (k : list B) :
  Forall2 R l k -> Forall2 R (moved i j l) (moved i j k).
Proof.
  intros Hl. unfold moved. rewrite (Forall2_length _ _ _ Hl).
  repeat case_match; try done.
  - apply Forall2_place; [by apply Forall2_delete|].
    eapply Forall2_lookup_lr; eauto.
  - exfalso. eapply Forall2_lookup_l in Hl as (? & ? & ?); eauto. congruence.
  - exfalso. eapply Forall2_lookup_r in Hl as (? & ? & ?); eauto. congruence.
Qed.

Lemma Forall2_impl_in (R' : A -> B -> Prop) (l : list A) (k : list B) :
  Forall2 R l k -> (forall a b, a ∈ l -> R a b -> R' a b) -> Forall2 R' l k.
Proof.
  induction 1 as [|a b l k Hab Hl IH]; intros Himp; constructor.
  - apply Himp; [left | done].
  - apply IH. intros ? ? ? ?. apply Himp; [by right | done].
Qed.

End Together.

Section Facts.
Context {T : Type}.
Implicit Types (s : DoublyLinkedList T) (h : list (Node T)) (l : list addr).
Implicit Types (f : Node T -> option addr) (a b c : addr) (e x : option addr).

(** ** Reading a field after a write *)

Lemma follow_fld f h a : follow f h a = default None (fld f h a).
Proof. unfold follow, fld. by destruct (h !! a). Qed.

Lemma fld_alloc f h a y : fld f h a = Some y -> (a < length h)%nat.
Proof.
  unfold fld. intros H. apply lookup_lt_is_Some.
  destruct (h !! a); [by eexists | by simplify_eq/=].
Qed.

Lemma fld_next_upd_next h a b x :
  fld next (alter (upd_next x) a h) b
  = if decide (b = a) then (fun _ => x) <$> fld next h a else fld next h b.
Proof.
  unfold fld. case_decide as E.
  - subst. rewrite list_lookup_alter_eq. by destruct (h !! a).
  - by rewrite list_lookup_alter_ne.
Qed.

Lemma fld_prev_upd_prev h a b x :
  fld prev (alter (upd_prev x) a h) b
  = if decide (b = a) then (fun _ => x) <$> fld prev h a else fld prev h b.
Proof.
  unfold fld. case_decide as E.
  - subst. rewrite list_lookup_alter_eq. by destruct (h !! a).
  - by rewrite list_lookup_alter_ne.
Qed.

Lemma fld_next_upd_prev h a b x :
  fld next (alter (upd_prev x) a h) b = fld next h b.
Proof.
  unfold fld. destruct (decide (a = b)) as [->|E].
  - rewrite list_lookup_alter_eq. by destruct (h !! b).
  - by rewrite list_lookup_alter_ne.
Qed.

Lemma fld_prev_upd_next h a b x :
  fld prev (alter (upd_next x) a h) b = fld prev h b.
Proof.
  unfold fld. destruct (decide (a = b)) as [->|E].
  - rewrite list_lookup_alter_eq. by destruct (h !! b).
  - by rewrite list_lookup_alter_ne.
Qed.

Lemma fld_snoc f h n b :
  fld f (h ++ [n]) b
  = if decide (b = length h) then Some (f n) else fld f h b.
Proof.
  unfold fld. case_decide as E.
  - subst. by rewrite list_lookup_middle.
  - destruct (decide (b < length h)%nat).
    + by rewrite lookup_app_l.
    + rewrite !lookup_ge_None_2; [done | lia | rewrite length_app; simpl; lia].
Qed.

Lemma const_fmap_Some {A} (x : option addr) (o : option A) :
  is_Some o -> (fun _ => x) <$> o = Some x.
Proof. by intros [? ->]. Qed.

(** ** Chains *)

Lemma chain_app f h e l1 l2 :
  chain f h e (l1 ++ l2) <-> chain f h (hd_or l2 e) l1 /\ chain f h e l2.
Proof.
  induction l1 as [|a l1 IH]; simpl; [tauto|].
  rewrite IH. destruct l1; simpl; tauto.
Qed.

Lemma chain_snoc f h e l a :
  chain f h e (l ++ [a]) <-> chain f h (Some a) l /\ fld f h a = Some e.
Proof. rewrite chain_app. simpl. tauto. Qed.

Lemma chain_frame f h h' e l :
  (forall a, a ∈ l -> fld f h' a = fld f h a) ->
  chain f h e l -> chain f h' e l.
Proof.
  induction l as [|a l IH]; simpl; [done|].
  intros Hf [Ha Hl]. split.
  - rewrite Hf; [done | left].
  - apply IH; [|done]. intros b Hb. apply Hf. by right.
Qed.

Lemma chain_lookup f h e l k a :
  chain f h e l -> l !! k = Some a ->
  fld f h a = Some (match l !! S k with Some b => Some b | None => e end).
Proof.
  revert k. induction l as [|b l IH]; intros k Hc Hk; [done|].
  destruct Hc as [Hb Hl]. destruct k as [|k]; simpl in *.
  - simplify_eq. rewrite Hb. by destruct l.
  - eauto.
Qed.

Lemma chain_follow f h l k a :
  chain f h None l -> l !! k = Some a -> follow f h a = l !! S k.
Proof.
  intros Hc Hk. rewrite follow_fld, (chain_lookup _ _ _ _ _ _ Hc Hk).
  simpl. by destruct (l !! S k).
Qed.

Lemma chain_alloc f h e l a : chain f h e l -> a ∈ l -> (a < length h)%nat.
Proof.
  intros Hc [k Hk]%list_elem_of_lookup.
  eapply fld_alloc, chain_lookup; eauto.
Qed.

Lemma chain_hops f h l n k :
  chain f h None l -> hops (follow f h) n (l !! k) = l !! (k + n)%nat.
Proof.
  intros Hc. revert k. induction n as [|n IH]; intros k; simpl.
  - by rewrite Nat.add_0_r.
  - destruct (l !! k) as [a|] eqn:Hk.
    + rewrite (chain_follow _ _ _ _ _ Hc Hk), IH. f_equal. lia.
    + symmetry. apply lookup_ge_None. apply lookup_ge_None in Hk. lia.
Qed.

Lemma chain_traverse f h l fuel :
  chain f h None l -> (length l <= fuel)%nat ->
  traverse (follow f h) fuel (head l) = Some l.
Proof.
  revert fuel. induction l as [|a l IH]; intros fuel Hc Hlen; [by destruct fuel|].
  destruct Hc as [Ha Hl]. simpl in *.
  destruct fuel as [|fuel]; [lia|]. simpl.
  rewrite follow_fld, Ha. simpl.
  replace (hd_or l None) with (head l) by by destruct l.
  rewrite IH; [done | done | lia].
Qed.

(** ** What a well-formed list gives *)

Lemma wf_alloc s l a : wf s l -> a ∈ l -> (a < length (store s))%nat.
Proof.
  intros Hwf ?. eapply (chain_alloc next); [apply (wf_next _ _ Hwf) | done].
Qed.

Lemma wf_fresh s l : wf s l -> length (store s) ∉ l.
Proof. intros Hwf Hin. pose proof (wf_alloc _ _ _ Hwf Hin). lia. Qed.

Lemma wf_fuel s l : wf s l -> (length l <= fuel_of s)%nat.
Proof.
  intros Hwf. unfold fuel_of.
  assert (l ⊆+ seq 0 (length (store s))) as Hsub.
  { apply NoDup_submseteq; [by destruct Hwf|].
    intros a Ha. apply elem_of_seq. pose proof (wf_alloc _ _ _ Hwf Ha). lia. }
  apply submseteq_length in Hsub. by rewrite length_seq in Hsub.
Qed.

Lemma wf_forward s l : wf s l -> forward s = Some l.
Proof.
  intros Hwf. unfold forward. rewrite (wf_head _ _ Hwf).
  apply chain_traverse; [by destruct Hwf | by apply wf_fuel].
Qed.


(** ** The loop of getNodeAt *)

(** With fuel for every unit of [steps], the loop ends by its own test,
    after as many links as [steps] has units, rounded up. *)
Lemma walk_hops (link : addr -> option addr) fuel q x :
  (Z.to_nat (Qceiling q) <= fuel)%nat ->
  walk link fuel (Fin q) x = hops link (Z.to_nat (Qceiling q)) x.
Proof.
  revert q x. induction fuel as [|fuel IH]; intros q x Hq.
  - by replace (Z.to_nat (Qceiling q)) with 0%nat by lia.
  - cbn [walk]. unfold num_gt, zero, num_le.
    destruct (Qle_bool q 0) eqn:E; cbn [negb].
    + apply Qle_bool_iff, Qceiling_resp_le in E. change (Qceiling 0) with 0 in E.
      by replace (Z.to_nat (Qceiling q)) with 0%nat by lia.
    + apply Qceiling_pos in E.
      replace (Z.to_nat (Qceiling q)) with (S (Z.to_nat (Qceiling q - 1)))
        by lia.
      destruct x as [a|]; [|done]. cbn [hops num_sub one].
      rewrite IH; rewrite Qceiling_pred; [done | lia].
Qed.

Lemma walk_NaN (link : addr -> option addr) fuel x : walk link fuel NaN x = x.
Proof. by destruct fuel. Qed.

(** More fuel changes nothing once there is enough. *)
Lemma walk_fuel (link : addr -> option addr) fuel fuel' steps x :
  steps = NaN \/ num_leq steps (of_Z (Z.of_nat fuel)) = true ->
  (fuel <= fuel')%nat ->
  walk link fuel' steps x = walk link fuel steps x.
Proof.
  intros [->|Hs] Hf; [by rewrite !walk_NaN|].
  destruct steps as [|[]|q]; try done.
  - by destruct fuel, fuel'.
  - apply Qle_bool_iff, Qceiling_resp_le in Hs. rewrite Qceiling_Z in Hs.
    rewrite !walk_hops; [done | lia..].
Qed.

(** In getNodeAt the fuel, the length, never ends a loop: with any more of
    it the result is the same, whatever the list's fields hold. *)
Lemma getNodeAt_fuel (x : num) s (more : nat) :
  getNodeAt x s =
  if num_lt x zero || num_geq x (of_Z (l_length s)) then None
  else if num_leq x (num_half (of_Z (l_length s)))
       then walk (get_next s) (Z.to_nat (l_length s) + more) x (l_head s)
       else walk (get_prev s) (Z.to_nat (l_length s) + more)
                 (num_sub (num_sub (of_Z (l_length s)) one) x) (l_tail s).
Proof.
  unfold getNodeAt.
  destruct (num_lt x zero || num_geq x (of_Z (l_length s))) eqn:Hg; [done|].
  apply orb_false_iff in Hg as [H0 Hn].
  destruct x as [|[]|q]; try done.
  { by rewrite !walk_NaN. }
  unfold num_lt, num_gt, num_geq, num_leq, num_le, num_half, zero, of_Z in *.
  apply negb_false_iff, Qle_bool_iff in H0. apply Qle_bool_false in Hn.
  assert (0 <= l_length s) as Hlen.
  { destruct (Z.le_gt_cases 0 (l_length s)) as [|Hneg]; [done|]. exfalso.
    assert (inject_Z (l_length s) < inject_Z 0)%Q as H' by by rewrite <- Zlt_Qlt.
    change (inject_Z 0) with 0%Q in H'. lra. }
  cbv zeta. symmetry.
  destruct (Qle_bool q (inject_Z (l_length s) / 2)).
  - apply walk_fuel; [right | lia].
    unfold num_leq, of_Z, num_le. rewrite Z2Nat.id by done.
    apply Qle_bool_iff. lra.
  - apply walk_fuel; [right | lia].
    unfold one. cbn [num_sub]. unfold num_leq, of_Z, num_le.
    rewrite Z2Nat.id by done. apply Qle_bool_iff. lra.
Qed.

(** getNodeAt at an integer index. *)
Lemma getNodeAt_int i s :
  getNodeAt (of_Z i) s =
  if (i <? 0) || (i >=? l_length s) then None
  else if 2 * i <=? l_length s
       then hops (get_next s) (Z.to_nat i) (l_head s)
       else hops (get_prev s) (Z.to_nat (l_length s - 1 - i)) (l_tail s).
Proof.
  unfold getNodeAt. change zero with (of_Z 0).
  rewrite num_lt_of_Z, num_geq_of_Z, num_leq_half.
  destruct (Z.ltb_spec i 0); [done|].
  destruct (Z.geb_spec i (l_length s)); [done|]. cbn [orb].
  destruct (2 * i <=? l_length s).
  - unfold of_Z. rewrite walk_hops; rewrite Qceiling_Z; [done | lia].
  - unfold of_Z, one. cbn [num_sub].
    assert (Qceiling (inject_Z (l_length s) - 1 - inject_Z i)
            = l_length s - 1 - i) as E.
    { rewrite <- (Qceiling_Z (l_length s - 1 - i)). apply Qceiling_comp.
      unfold Z.sub. rewrite !inject_Z_plus, !inject_Z_opp. ring. }
    rewrite walk_hops; rewrite E; [done | lia].
Qed.

Lemma wf_getNodeAt s l i :
  wf s l -> getNodeAt (of_Z i) s = if (i <? 0) then None else l !! Z.to_nat i.
Proof.
  intros Hwf. rewrite getNodeAt_int. rewrite (wf_length _ _ Hwf).
  destruct (Z.ltb_spec i 0); simpl; [done|].
  destruct (Z.geb_spec i (Z.of_nat (length l))); simpl.
  { symmetry. apply lookup_ge_None. lia. }
  destruct (Z.leb_spec (2 * i) (Z.of_nat (length l))).
  - rewrite (wf_head _ _ Hwf), head_lookup.
    unfold get_next, node_next. rewrite chain_hops by by destruct Hwf. done.
  - rewrite (wf_tail _ _ Hwf), <- head_reverse, head_lookup.
    unfold get_prev, node_prev. rewrite chain_hops by by destruct Hwf.
    simpl. rewrite reverse_lookup by lia. f_equal. lia.
Qed.

Lemma wf_getNodeAt_nat s l (k : nat) :
  wf s l -> getNodeAt (of_Z (Z.of_nat k)) s = l !! k.
Proof.
  intros Hwf. rewrite (wf_getNodeAt _ _ _ Hwf).
  destruct (Z.ltb_spec (Z.of_nat k) 0); [lia|]. by rewrite Nat2Z.id.
Qed.

(** getNodeAt at any finite number: within the range, the node at the
    index rounded up in the first half of the list, rounded down in the
    second. *)
Lemma wf_getNodeAt_Fin s l q :
  wf s l ->
  getNodeAt (Fin q) s =
  if Qle_bool 0 q && negb (Qle_bool (inject_Z (Z.of_nat (length l))) q) then
    if Qle_bool q (inject_Z (Z.of_nat (length l)) / 2)
    then l !! Z.to_nat (Qceiling q)
    else l !! Z.to_nat (Qfloor q)
  else None.
Proof.
  intros Hwf. unfold getNodeAt. rewrite (wf_length _ _ Hwf).
  unfold num_lt, num_gt, num_geq, num_leq, num_half, zero, of_Z, num_le.
  destruct (Qle_bool 0 q) eqn:E0; [|done].
  destruct (Qle_bool (inject_Z (Z.of_nat (length l))) q) eqn:En; [done|].
  cbn [negb orb andb].
  apply Qle_bool_iff in E0. apply Qle_bool_false in En.
  destruct (Qle_bool q (inject_Z (Z.of_nat (length l)) / 2)).
  - rewrite walk_hops.
    + rewrite (wf_head _ _ Hwf), head_lookup.
      unfold get_next, node_next. by rewrite chain_hops by by destruct Hwf.
    + pose proof (Qceiling_le_Z q (Z.of_nat (length l)) (Qlt_le_weak _ _ En)).
      pose proof (Qceiling_nonneg q E0). lia.
  - unfold one. cbn [num_sub].
    pose proof (Qfloor_nonneg q E0) as Hf0.
    pose proof (Qfloor_lt_Z q _ En) as Hfn.
    assert (Qceiling (inject_Z (Z.of_nat (length l)) - 1 - q)
            = Z.of_nat (length l) - 1 - Qfloor q) as E.
    { rewrite <- Qceiling_Z_sub. apply Qceiling_comp.
      replace (Z.of_nat (length l) - 1) with (Z.of_nat (length l) + -1) by lia.
      rewrite inject_Z_plus. change (inject_Z (-1)) with (-1 # 1)%Q.
      lra. }
    rewrite walk_hops; rewrite E; [|lia].
    rewrite (wf_tail _ _ Hwf), <- head_reverse, head_lookup.
    unfold get_prev, node_prev. rewrite chain_hops by by destruct Hwf.
    simpl. rewrite reverse_lookup by lia. f_equal. lia.
Qed.

(** At NaN getNodeAt gives the tail, at an infinity nothing. *)
Lemma wf_getNodeAt_NaN s l : wf s l -> getNodeAt NaN s = last l.
Proof.
  intros Hwf. unfold getNodeAt. cbn. rewrite walk_NaN. apply (wf_tail _ _ Hwf).
Qed.

Lemma getNodeAt_Inf s (sign : bool) : getNodeAt (Inf sign) s = None.
Proof. unfold getNodeAt. by destruct sign. Qed.

(** Whatever the number, getNodeAt gives a node of the list or nothing. *)
Lemma wf_getNodeAt_elem s l (x : num) c :
  wf s l -> getNodeAt x s = Some c -> c ∈ l.
Proof.
  intros Hwf. destruct x as [|sign|q].
  - rewrite (wf_getNodeAt_NaN _ _ Hwf). apply last_Some_elem_of.
  - by rewrite getNodeAt_Inf.
  - rewrite (wf_getNodeAt_Fin _ _ _ Hwf).
    repeat case_match; try done; apply list_elem_of_lookup_2.
Qed.

(** At an index that insertAt takes without harm and hands to getNodeAt,
    the node found is not the head. *)
Lemma wf_getNodeAt_inner s l (x : num) c :
  wf s l -> insert_ok x = true -> num_leq x zero = false ->
  getNodeAt x s = Some c -> head l <> Some c.
Proof.
  intros Hwf Hok Hpos Hc.
  assert (exists k, l !! S k = Some c) as [k Hk].
  { destruct x as [|sign|q]; [done | by rewrite getNodeAt_Inf in Hc |].
    rewrite (wf_getNodeAt_Fin _ _ _ Hwf) in Hc.
    unfold insert_ok, num_leq, num_geq, num_leq, num_le, zero, one in *.
    apply Qle_bool_false in Hpos.
    destruct (Qle_bool 0 q) eqn:E0; [|done].
    destruct (Qle_bool (inject_Z (Z.of_nat (length l))) q) eqn:En; [done|].
    cbn [negb andb] in Hc. apply Qle_bool_false in En.
    destruct (Qle_bool q (inject_Z (Z.of_nat (length l)) / 2)) eqn:Eh.
    - assert (0 < Qceiling q) as Hq.
      { apply Qceiling_pos. by apply Qle_bool_false. }
      exists (Z.to_nat (Qceiling q - 1)).
      by replace (S (Z.to_nat (Qceiling q - 1))) with (Z.to_nat (Qceiling q))
        by lia.
    - apply Qle_bool_false in Eh.
      assert (1 <= q)%Q as H1.
      { apply orb_prop in Hok as [Hok|Hok]; apply Qle_bool_iff in Hok; [|done].
        exfalso.
        unfold Qdiv in Eh. change (/ 2)%Q with (1 # 2)%Q in Eh.
        assert (inject_Z (Z.of_nat (length l)) < 1)%Q as Hl by lra.
        assert (inject_Z 1 <= inject_Z (Z.of_nat (length l)))%Q as Hl'.
        { rewrite <- Zle_Qle. destruct l; simpl in *; [|lia].
          change (inject_Z (Z.of_nat 0)) with 0%Q in En. lra. }
        change (inject_Z 1) with 1%Q in Hl'. lra. }
      apply Qfloor_resp_le in H1. change (Qfloor 1) with 1 in H1.
      exists (Z.to_nat (Qfloor q - 1)).
      by replace (S (Z.to_nat (Qfloor q - 1))) with (Z.to_nat (Qfloor q))
        by lia. }
  intros Hh. rewrite head_lookup in Hh.
  pose proof (NoDup_lookup _ _ _ _ (wf_nodup _ _ Hwf) Hh Hk). lia.
Qed.

(** ** Tactics for the proofs about single operations *)

Lemma NoDup_snoc {A} (l : list A) (a : A) : NoDup (l ++ [a]) ↔ (a ∉ l) ∧ NoDup l.
Proof.
  rewrite NoDup_app. split.
  - intros (Hl & Hd & _). split; [|done]. intros Ha. apply (Hd _ Ha). left.
  - intros [Ha Hl]. split_and!; [done | | apply NoDup_singleton].
    intros x Hx Hx'. apply list_elem_of_singleton in Hx'. by subst.
Qed.

Lemma hd_or_reverse l : hd_or (reverse l) None = last l.
Proof. rewrite <- head_reverse. by destruct (reverse l). Qed.

Lemma hd_or_head l : hd_or l None = head l.
Proof. by destruct l. Qed.

(** A well-formed list around one of its nodes. *)
Lemma wf_split s l1 c l2 :
  wf s (l1 ++ c :: l2) ->
  chain next (store s) (Some c) l1 /\
  fld next (store s) c = Some (head l2) /\
  chain next (store s) None l2 /\
  chain prev (store s) (Some c) (reverse l2) /\
  fld prev (store s) c = Some (last l1) /\
  chain prev (store s) None (reverse l1).
Proof.
  intros [_ Hn Hp _ _ _].
  apply chain_app in Hn as [Hn1 [Hc Hn2]].
  rewrite reverse_app, reverse_cons in Hp.
  apply chain_app in Hp as [[Hp2 Hc']%chain_snoc Hp1].
  rewrite hd_or_reverse in Hc'. rewrite hd_or_head in Hc. done.
Qed.

Ltac st_simpl :=
  cbn [store l_head l_tail l_length set_store set_head set_tail set_length
       set_next set_prev fst snd] in *.

Ltac fld_rw :=
  repeat first
    [ rewrite fld_next_upd_next | rewrite fld_prev_upd_prev
    | rewrite fld_next_upd_prev | rewrite fld_prev_upd_next
    | rewrite fld_snoc ].

Ltac nodup_dec :=
  repeat match goal with
  | H : NoDup (_ ++ [_]) |- _ => apply NoDup_snoc in H as [? ?]
  | H : NoDup (_ ++ _) |- _ => apply NoDup_app in H as (? & ? & ?)
  | H : NoDup (_ :: _) |- _ => apply NoDup_cons in H as [? ?]
  end.

Ltac solve_nodup :=
  repeat first [rewrite NoDup_snoc | rewrite NoDup_cons | rewrite NoDup_app];
  split_and?; try done; try apply NoDup_nil_2; set_solver.

Ltac solve_ne :=
  solve [ done | lia | set_solver
        | match goal with
          | H : fld _ _ ?a = Some _ |- _ => apply fld_alloc in H; lia
          end ].

Ltac decide_all :=
  repeat match goal with
  | |- context [decide (?x = ?y)] =>
      first [ rewrite (decide_True (P := x = y)) by done
            | rewrite (decide_False (P := x = y)) by solve_ne ]
  end.

Ltac fld_hyps :=
  repeat match goal with
  | H : fld _ _ _ = Some _ |- _ => rewrite H
  end.

Ltac ends_hyps :=
  repeat match goal with
  | H : l_head _ = _ |- _ => rewrite !H
  | H : l_tail _ = _ |- _ => rewrite !H
  end.

Ltac run_code :=
  cbv zeta;
  repeat (progress
    (unfold get_next, get_prev, node_next, node_prev; st_simpl;
     rewrite ?follow_fld; fld_rw; decide_all; fld_hyps; try ends_hyps;
     cbn [default from_option id fmap option_fmap option_map hd_or head last
          app] in *));
  st_simpl.

Ltac fld_solve :=
  fld_rw; decide_all; fld_hyps;
  cbn [fmap option_fmap option_map hd_or];
  first [ done | by rewrite ?hd_or_head | by rewrite <- ?hd_or_head ].

Ltac frame H :=
  eapply chain_frame; [|exact H];
  let x := fresh "x" in let Hx := fresh "Hx" in
  intros x Hx; try rewrite elem_of_reverse in Hx; fld_solve.

Lemma insertAtStart_wf v s l :
  wf s l ->
  (insertAtStart v s).2 = length (store s) /\
  wf (insertAtStart v s).1 (length (store s) :: l).
Proof.
  intros Hwf. pose proof (wf_fresh _ _ Hwf) as Hfresh.
  destruct Hwf as [Hnd Hn Hp Hh Ht Hlen].
  unfold insertAtStart, createNode. st_simpl. rewrite Hh.
  destruct l as [|b l]; simpl; (split; [done|]).
  - split; st_simpl; simpl in *; try done; try lia.
    + apply NoDup_singleton.
    + fld_solve.
    + fld_solve.
  - rewrite !reverse_cons in *. apply chain_snoc in Hp as [Hp Hpb].
    destruct Hn as [Hnb Hn]. apply NoDup_cons in Hnd as [Hb Hnd].
    split; st_simpl; simpl in *; try done; try lia.
    + apply NoDup_cons. split; [done|]. by apply NoDup_cons.
    + split_and!; [fld_solve | fld_solve | frame Hn].
    + rewrite !reverse_cons. apply chain_snoc. split; [apply chain_snoc; split|].
      * frame Hp.
      * fld_solve.
      * fld_solve.
Qed.

Lemma insertAtEnd_wf v s l :
  wf s l ->
  (insertAtEnd v s).2 = length (store s) /\
  wf (insertAtEnd v s).1 (l ++ [length (store s)]).
Proof.
  intros Hwf. pose proof (wf_fresh _ _ Hwf) as Hfresh.
  destruct Hwf as [Hnd Hn Hp Hh Ht Hlen].
  unfold insertAtEnd, createNode. st_simpl. rewrite Ht.
  destruct l as [|t l _] using rev_ind; simpl; (split; [done|]).
  - split; st_simpl; simpl in *; try done; try lia.
    + apply NoDup_singleton.
    + fld_solve.
    + fld_solve.
  - rewrite last_snoc. rewrite reverse_snoc in Hp. destruct Hp as [Hpt Hp].
    apply chain_snoc in Hn as [Hn Hnt]. apply NoDup_snoc in Hnd as [Hb Hnd].
    apply not_elem_of_app in Hfresh as [Hf1 Hf2%not_elem_of_cons].
    split; st_simpl; simpl in *; try done.
    + apply NoDup_snoc. split; [set_solver|]. by apply NoDup_snoc.
    + apply chain_snoc. split; [apply chain_snoc; split|].
      * frame Hn.
      * fld_solve.
      * fld_solve.
    + rewrite !reverse_snoc. simpl. split_and!; [fld_solve | fld_solve | frame Hp].
    + rewrite Hh. by destruct l.
    + by rewrite last_snoc.
    + rewrite !length_app in *. simpl in *. lia.
Qed.

Lemma detachNode_wf s l1 c l2 :
  wf s (l1 ++ c :: l2) ->
  wf (detachNode c s) (l1 ++ l2) /\ isolated (detachNode c s) c.
Proof.
  intros Hwf. destruct (wf_split _ _ _ _ Hwf) as (Hn1 & Hnc & Hn2 & Hp2 & Hpc & Hp1).
  destruct Hwf as [Hnd _ _ Hh Ht Hlen].
  unfold detachNode, isolated.
  destruct l1 as [|p l1 _] using rev_ind; destruct l2 as [|n l2].
  - run_code. split; [|done].
    split; st_simpl; simpl in *; try done; try lia. apply NoDup_nil_2.
  - run_code. destruct Hn2 as [Hnn Hn2]. rewrite reverse_cons in Hp2.
    apply chain_snoc in Hp2 as [Hp2 Hpn]. nodup_dec.
    run_code. split; [|done].
    split; st_simpl; simpl in *; try done; try lia.
    + solve_nodup.
    + split; [fld_solve | frame Hn2].
    + rewrite reverse_cons. apply chain_snoc. split; [frame Hp2 | fld_solve].
  - rewrite reverse_snoc in Hp1. destruct Hp1 as [Hpp Hp1].
    apply chain_snoc in Hn1 as [Hn1 Hnp]. rewrite last_snoc in Hpc.
    rewrite <- app_assoc in Hnd. nodup_dec.
    run_code. split; [|done]. rewrite app_nil_r.
    split; st_simpl; simpl in *; try done.
    + solve_nodup.
    + apply chain_snoc. split; [frame Hn1 | fld_solve].
    + rewrite reverse_snoc. split; [fld_solve | frame Hp1].
    + rewrite Hh. by destruct l1.
    + by rewrite last_snoc.
    + rewrite !length_app in *. simpl in *. lia.
  - rewrite reverse_snoc in Hp1. destruct Hp1 as [Hpp Hp1].
    apply chain_snoc in Hn1 as [Hn1 Hnp]. rewrite last_snoc in Hpc.
    destruct Hn2 as [Hnn Hn2]. rewrite reverse_cons in Hp2.
    apply chain_snoc in Hp2 as [Hp2 Hpn].
    rewrite <- app_assoc in Hnd. nodup_dec.
    run_code. split; [|done].
    split; st_simpl; simpl in *; try done.
    + solve_nodup.
    + apply chain_app. split; [apply chain_snoc; split|split].
      * frame Hn1.
      * fld_solve.
      * fld_solve.
      * frame Hn2.
    + rewrite reverse_app, reverse_cons, reverse_snoc. apply chain_app.
      split; [apply chain_snoc; split|split].
      * frame Hp2.
      * fld_solve.
      * fld_solve.
      * frame Hp1.
    + rewrite Hh. by destruct l1.
    + rewrite Ht, !last_app. simpl. by rewrite !last_cons.
    + rewrite !length_app in *. simpl in *. lia.
Qed.


Lemma moveNode_reinsert (x y : num) s :
  moveNode x y s =
  if num_eq x y then (s, getNodeAt x s)
  else match getNodeAt x s with
       | None => (s, None)
       | Some node => reinsert node y (detachNode node s)
       end.
Proof. reflexivity. Qed.

Lemma moveNode_unfold i j s :
  moveNode (of_Z i) (of_Z j) s =
  if i =? j then (s, getNodeAt (of_Z i) s)
  else match getNodeAt (of_Z i) s with
       | None => (s, None)
       | Some node => reinsert node (of_Z j) (detachNode node s)
       end.
Proof. by rewrite moveNode_reinsert, num_eq_of_Z. Qed.

(** The target of moveNode at an integer index is an integer. *)
Lemma target_int j len :
  (if num_gt (if num_lt (of_Z j) zero then zero else of_Z j) (of_Z len)
   then of_Z len else if num_lt (of_Z j) zero then zero else of_Z j)
  = of_Z (if (if j <? 0 then 0 else j) >? len then len
          else if j <? 0 then 0 else j).
Proof.
  change zero with (of_Z 0). rewrite num_lt_of_Z.
  destruct (j <? 0); rewrite num_gt_of_Z; by case_match.
Qed.

Lemma reinsert_wf s l c j :
  wf s l -> isolated s c -> c ∉ l ->
  (reinsert c (of_Z j) s).2 = Some c /\
  wf (reinsert c (of_Z j) s).1 (place (Z.to_nat (clamp 0 (Z.of_nat (length l)) j)) c l).
Proof.
  intros Hwf [Hic1 Hic2] Hc. unfold reinsert. cbv zeta.
  rewrite target_int. change zero with (of_Z 0). rewrite !num_eq_of_Z.
  pose proof (fun i => wf_getNodeAt _ _ i Hwf) as Hget.
  destruct Hwf as [Hnd Hn Hp Hh Ht Hlen].
  rewrite Hh, Hlen. destruct l as [|h l].
  { simpl. split; [done|]. unfold place. rewrite take_nil, drop_nil.
    split; st_simpl; simpl; try done. solve_nodup. }
  cbn [head]. destruct (Z.eqb_spec (Z.of_nat (length (h :: l))) 0) as [E|_];
    [simpl in E; lia|].
  set (t := clamp 0 (Z.of_nat (length (h :: l))) j).
  replace (if (if j <? 0 then 0 else j) >? Z.of_nat (length (h :: l))
           then Z.of_nat (length (h :: l)) else if j <? 0 then 0 else j)
    with t by (unfold t, clamp; destruct (Z.ltb_spec j 0);
               [destruct (Z.gtb_spec 0 (Z.of_nat (length (h :: l))))
               |destruct (Z.gtb_spec j (Z.of_nat (length (h :: l))))]; lia).
  assert (0 <= t <= Z.of_nat (length (h :: l))) as Ht_range by (unfold t, clamp; lia).
  clearbody t. split; [by repeat case_match|].
  destruct (Z.eqb_spec t 0) as [->|Ht0].
  { unfold place. rewrite take_0, drop_0.
    rewrite !reverse_cons in *. apply chain_snoc in Hp as [Hp Hph].
    destruct Hn as [Hnh Hn]. nodup_dec. apply not_elem_of_cons in Hc as [? ?].
    run_code. split; st_simpl; simpl in *; try done; try lia.
    - solve_nodup.
    - split_and!; [fld_solve | fld_solve | frame Hn].
    - rewrite !reverse_cons. apply chain_snoc. split; [apply chain_snoc; split|].
      + frame Hp.
      + fld_solve.
      + fld_solve. }
  destruct (Z.eqb_spec t (Z.of_nat (length (h :: l)))) as [->|HtN].
  { unfold place. rewrite Nat2Z.id, firstn_all, drop_all.
    clear Ht_range Ht0 Hget. assert (h :: l ≠ []) as Hne by done.
    revert Hne Hnd Hn Hp Hh Ht Hlen Hc.
    generalize (h :: l) as l'. clear h l.
    intros l'. destruct l' as [|t l' _] using rev_ind; [done|].
    intros. rewrite last_snoc in Ht. rewrite reverse_snoc in Hp.
    destruct Hp as [Hpt Hp]. apply chain_snoc in Hn as [Hn Hnt].
    nodup_dec. apply not_elem_of_app in Hc as [? ?%not_elem_of_cons].
    rewrite Ht. run_code.
    split; st_simpl; simpl in *; try done.
    - solve_nodup.
    - apply chain_snoc. split; [apply chain_snoc; split|].
      + frame Hn.
      + fld_solve.
      + fld_solve.
    - rewrite !reverse_snoc. simpl. split_and!; [fld_solve | fld_solve | frame Hp].
    - rewrite Hh. by destruct l'.
    - by rewrite last_snoc.
    - rewrite !length_app in *. simpl in *. lia. }
  rewrite Hget. destruct (Z.ltb_spec t 0) as [|_]; [lia|].
  destruct ((h :: l) !! Z.to_nat t) as [target|] eqn:Htg;
    [|apply lookup_ge_None in Htg; lia].
  apply list_elem_of_split_length in Htg as (l1 & l2 & Hl & Ht1).
  revert Hnd Hn Hp Hh Ht Hlen Hc Ht_range HtN. rewrite Hl, Ht1. clear Hget Hl.
  intros. unfold place. rewrite take_app_length, drop_app_length.
  destruct l1 as [|p l1 _] using rev_ind; [simpl in *; lia|].
  assert (wf s ((l1 ++ [p]) ++ target :: l2)) as Hwf by done.
  destruct (wf_split _ _ _ _ Hwf) as (Hn1 & Hnc & Hn2 & Hp2 & Hpc & Hp1).
  clear Hwf Hn Hp.
  apply chain_snoc in Hn1 as [Hn1 Hnp]. rewrite last_snoc in Hpc.
  rewrite reverse_snoc in Hp1. destruct Hp1 as [Hpp Hp1].
  apply not_elem_of_app in Hc as [[? ?%not_elem_of_cons]%not_elem_of_app
                                    [? ?]%not_elem_of_cons].
  rewrite <- app_assoc in Hnd. nodup_dec.
  run_code. split; st_simpl; simpl in *; try done.
  - rewrite <- app_assoc. solve_nodup.
  - apply chain_app. cbn [chain hd_or].
    split; [apply chain_snoc; split|split_and!].
    + frame Hn1.
    + fld_solve.
    + fld_solve.
    + fld_solve.
    + frame Hn2.
  - rewrite reverse_app, !reverse_cons, reverse_snoc, <- !app_assoc.
    apply chain_app. simpl. split_and!.
    + frame Hp2.
    + fld_solve.
    + fld_solve.
    + fld_solve.
    + frame Hp1.
  - rewrite Hh. by destruct l1.
  - rewrite Ht, !last_app. simpl. by rewrite !last_cons.
  - rewrite !length_app in *. simpl in *. lia.
Qed.


Lemma place_middle l1 a l2 : place (length l1) a (l1 ++ l2) = l1 ++ a :: l2.
Proof. unfold place. by rewrite take_app_length, drop_app_length. Qed.

Lemma place_end {A} (l : list A) (a : A) : place (length l) a l = l ++ [a].
Proof. unfold place. by rewrite firstn_all, drop_all. Qed.

Lemma insertAt_wf v i s l :
  wf s l ->
  (insertAt v (of_Z i) s).2 = length (store s) /\
  wf (insertAt v (of_Z i) s).1
     (place (Z.to_nat (clamp 0 (Z.of_nat (length l)) i)) (length (store s)) l).
Proof.
  intros Hwf. unfold insertAt.
  change zero with (of_Z 0). rewrite num_leq_of_Z, num_geq_of_Z.
  destruct (Z.leb_spec i 0) as [Hi|Hi]; simpl.
  { replace (Z.to_nat _) with 0%nat by (unfold clamp; lia).
    unfold place. rewrite take_0, drop_0. by apply insertAtStart_wf. }
  rewrite (wf_head _ _ Hwf). destruct l as [|h l]; cbn [head is_null].
  { unfold place. rewrite take_nil, drop_nil. by apply insertAtStart_wf. }
  rewrite (wf_length _ _ Hwf).
  destruct (Z.geb_spec i (Z.of_nat (length (h :: l)))) as [Hge|Hlt].
  { replace (Z.to_nat _) with (length (h :: l)) by (unfold clamp; lia).
    unfold place. rewrite firstn_all, drop_all. by apply insertAtEnd_wf. }
  replace (clamp _ _ i) with i by (unfold clamp; lia).
  rewrite (wf_getNodeAt _ _ i Hwf). destruct (Z.ltb_spec i 0) as [|_]; [lia|].
  destruct ((h :: l) !! Z.to_nat i) as [cur|] eqn:Hcur;
    [|apply lookup_ge_None in Hcur; lia].
  apply list_elem_of_split_length in Hcur as (l1 & l2 & Hl & Hi1).
  pose proof (wf_fresh _ _ Hwf) as Hfresh.
  revert Hwf Hfresh Hlt. rewrite Hl, Hi1. clear Hl. intros.
  rewrite place_middle.
  destruct l1 as [|p l1 _] using rev_ind; [simpl in *; lia|].
  destruct (wf_split _ _ _ _ Hwf) as (Hn1 & Hnc & Hn2 & Hp2 & Hpc & Hp1).
  destruct Hwf as [Hnd _ _ Hh Ht Hlen].
  apply chain_snoc in Hn1 as [Hn1 Hnp]. rewrite last_snoc in Hpc.
  rewrite reverse_snoc in Hp1. destruct Hp1 as [Hpp Hp1].
  apply not_elem_of_app in Hfresh as [[? ?%not_elem_of_cons]%not_elem_of_app
                                        [? ?]%not_elem_of_cons].
  rewrite <- app_assoc in Hnd. nodup_dec.
  unfold createNode. run_code. split; [done|].
  split; st_simpl; simpl in *; try done.
  - rewrite <- app_assoc. solve_nodup.
  - apply chain_app. cbn [chain hd_or].
    split; [apply chain_snoc; split|split_and!].
    + frame Hn1.
    + fld_solve.
    + fld_solve.
    + fld_solve.
    + frame Hn2.
  - rewrite reverse_app, !reverse_cons, reverse_snoc, <- !app_assoc.
    apply chain_app. simpl. split_and!.
    + frame Hp2.
    + fld_solve.
    + fld_solve.
    + fld_solve.
    + frame Hp1.
  - rewrite Hh. by destruct l1.
  - rewrite Ht, !last_app. simpl. by rewrite !last_cons.
  - rewrite !length_app in *. simpl in *. lia.
Qed.


Lemma wf_isolate s l a :
  wf s l -> a ∉ l -> wf (set_prev a None (set_next a None s)) l.
Proof.
  intros [Hnd Hn Hp Hh Ht Hlen] Ha.
  split; st_simpl; try done; [frame Hn | frame Hp].
Qed.

Lemma delete_ge l (k : nat) : (length l <= k)%nat -> delete k l = l.
Proof.
  intros. rewrite delete_take_drop, take_ge, drop_ge by lia.
  apply app_nil_r.
Qed.

Lemma removeNode_wf s l1 c l2 :
  wf s (l1 ++ c :: l2) ->
  wf (removeNode (Some c) s).1 (l1 ++ l2) /\
  isolated (removeNode (Some c) s).1 c.
Proof.
  intros Hwf. pose proof (wf_nodup _ _ Hwf) as Hnd.
  destruct (detachNode_wf _ _ _ _ Hwf) as [Hwf' [Hi1 Hi2]].
  assert (c ∉ l1 ++ l2) as Hc by (nodup_dec; set_solver).
  unfold removeNode. cbv zeta. cbn [fst]. split.
  - by apply wf_isolate.
  - unfold isolated. st_simpl. split; fld_solve.
Qed.

Lemma removeAt_wf i s l :
  wf s l ->
  (removeAt (of_Z i) s).2 = getNodeAt (of_Z i) s /\ wf (removeAt (of_Z i) s).1 (removed i l).
Proof.
  intros Hwf. unfold removeAt, removed. rewrite (wf_getNodeAt _ _ i Hwf).
  destruct (Z.ltb_spec i 0) as [|Hi]; [done|].
  destruct (l !! Z.to_nat i) as [c|] eqn:Hc.
  - apply list_elem_of_split_length in Hc as (l1 & l2 & -> & ->).
    rewrite delete_middle. split; [done|]. by apply removeNode_wf.
  - simpl. split; [done|]. apply lookup_ge_None in Hc.
    by rewrite delete_ge.
Qed.

Lemma clamp_pred (n : nat) j :
  (0 < n)%nat ->
  clamp 0 (Z.of_nat (n - 1)) j = clamp 0 (Z.of_nat n - 1) j.
Proof. intros. f_equal. lia. Qed.

Lemma moveNode_wf i j s l :
  wf s l ->
  (moveNode (of_Z i) (of_Z j) s).2 = getNodeAt (of_Z i) s /\
  wf (moveNode (of_Z i) (of_Z j) s).1 (moved i j l).
Proof.
  intros Hwf. rewrite moveNode_unfold. unfold moved.
  destruct (Z.eqb_spec i j) as [|Hij]; [done|].
  rewrite (wf_getNodeAt _ _ i Hwf).
  destruct (Z.ltb_spec i 0) as [|Hi]; [done|].
  destruct (l !! Z.to_nat i) as [c|] eqn:Hc; [|done].
  apply list_elem_of_split_length in Hc as (l1 & l2 & -> & ->).
  rewrite delete_middle. pose proof (wf_nodup _ _ Hwf) as Hnd.
  destruct (detachNode_wf _ _ _ _ Hwf) as [Hwf' Hiso].
  assert (c ∉ l1 ++ l2) as Hc by (nodup_dec; set_solver).
  destruct (reinsert_wf _ _ _ j Hwf' Hiso Hc) as [Hr Hwf''].
  split; [done|].
  replace (Z.of_nat (length (l1 ++ c :: l2)) - 1)
    with (Z.of_nat (length (l1 ++ l2)))
    by (rewrite !length_app; simpl; lia).
  done.
Qed.

(** ** The operations at any number *)

Lemma removeAt_any (x : num) s l :
  wf s l -> exists k, wf (removeAt x s).1 (delete k l).
Proof.
  intros Hwf. unfold removeAt. destruct (getNodeAt x s) as [c|] eqn:Hc.
  - apply (wf_getNodeAt_elem _ _ _ _ Hwf) in Hc.
    apply list_elem_of_split in Hc as (l1 & l2 & ->).
    exists (length l1). rewrite delete_middle. by apply removeNode_wf.
  - exists (length l). by rewrite delete_ge.
Qed.

Lemma insertAt_any v (x : num) s l :
  insert_ok x = true -> wf s l ->
  (insertAt v x s).2 = length (store s) /\
  exists k, wf (insertAt v x s).1 (place k (length (store s)) l).
Proof.
  intros Hok Hwf. unfold insertAt.
  destruct (num_leq x zero) eqn:Hx0; cbn [orb].
  { destruct (insertAtStart_wf v _ _ Hwf) as [E W]. split; [done|].
    exists 0%nat. unfold place. by rewrite take_0, drop_0. }
  rewrite (wf_head _ _ Hwf). destruct l as [|h l]; cbn [head is_null].
  { destruct (insertAtStart_wf v _ _ Hwf) as [E W]. split; [done|].
    exists 0%nat. unfold place. by rewrite take_nil, drop_nil. }
  destruct (num_geq x (of_Z (l_length s))) eqn:Hxn.
  { destruct (insertAtEnd_wf v _ _ Hwf) as [E W]. split; [done|].
    exists (length (h :: l)). by rewrite place_end. }
  destruct (getNodeAt x s) as [cur|] eqn:Hcur.
  2:{ destruct (insertAtEnd_wf v _ _ Hwf) as [E W]. split; [done|].
      exists (length (h :: l)). by rewrite place_end. }
  pose proof (wf_getNodeAt_inner _ _ _ _ Hwf Hok Hx0 Hcur) as Hnh.
  apply (wf_getNodeAt_elem _ _ _ _ Hwf) in Hcur.
  apply list_elem_of_split in Hcur as (l1 & l2 & Hl).
  pose proof (wf_fresh _ _ Hwf) as Hfresh.
  revert Hwf Hfresh Hnh. rewrite Hl. clear Hl. intros.
  destruct l1 as [|p l1 _] using rev_ind; [done|].
  assert (exists k, place k (length (store s)) ((l1 ++ [p]) ++ cur :: l2)
                    = (l1 ++ [p]) ++ length (store s) :: cur :: l2) as [k Hk]
    by (eexists; apply place_middle).
  destruct (wf_split _ _ _ _ Hwf) as (Hn1 & Hnc & Hn2 & Hp2 & Hpc & Hp1).
  destruct Hwf as [Hnd _ _ Hh Ht Hlen].
  apply chain_snoc in Hn1 as [Hn1 Hnp]. rewrite last_snoc in Hpc.
  rewrite reverse_snoc in Hp1. destruct Hp1 as [Hpp Hp1].
  apply not_elem_of_app in Hfresh as [[? ?%not_elem_of_cons]%not_elem_of_app
                                        [? ?]%not_elem_of_cons].
  rewrite <- app_assoc in Hnd. nodup_dec.
  unfold createNode. run_code. split; [done|]. exists k. rewrite Hk. clear k Hk.
  split; st_simpl; simpl in *; try done.
  - rewrite <- app_assoc. solve_nodup.
  - apply chain_app. cbn [chain hd_or].
    split; [apply chain_snoc; split|split_and!].
    + frame Hn1.
    + fld_solve.
    + fld_solve.
    + fld_solve.
    + frame Hn2.
  - rewrite reverse_app, !reverse_cons, reverse_snoc, <- !app_assoc.
    apply chain_app. simpl. split_and!.
    + frame Hp2.
    + fld_solve.
    + fld_solve.
    + fld_solve.
    + frame Hp1.
  - rewrite Hh. by destruct l1.
  - rewrite Ht, !last_app. simpl. by rewrite !last_cons.
  - rewrite !length_app in *. simpl in *. lia.
Qed.

Lemma reinsert_any s l c (y : num) :
  wf s l -> isolated s c -> c ∉ l ->
  (reinsert c y s).2 = Some c /\
  exists k, wf (reinsert c y s).1 (place k c l).
Proof.
  intros Hwf [Hic1 Hic2] Hc. unfold reinsert. cbv zeta.
  set (t := if num_gt (if num_lt y zero then zero else y) (of_Z (l_length s))
            then of_Z (l_length s) else if num_lt y zero then zero else y).
  pose proof (fun c' => wf_getNodeAt_elem _ _ t c' Hwf) as Hget.
  clearbody t.
  destruct Hwf as [Hnd Hn Hp Hh Ht Hlen].
  rewrite Hh. destruct l as [|h l].
  { simpl. split; [done|]. exists 0%nat. unfold place. rewrite take_nil, drop_nil.
    split; st_simpl; simpl; try done. solve_nodup. }
  cbn [head]. rewrite Hlen.
  destruct (Z.eqb_spec (Z.of_nat (length (h :: l))) 0) as [E|_];
    [simpl in E; lia|].
  split; [by repeat case_match|].
  assert (wf
    (set_length (l_length
       (set_tail (Some c)
          (match l_tail (set_prev c (l_tail s) s) with
           | Some t0 => set_next t0 (Some c) (set_prev c (l_tail s) s)
           | None => set_prev c (l_tail s) s
           end)) + 1)
       (set_tail (Some c)
          (match l_tail (set_prev c (l_tail s) s) with
           | Some t0 => set_next t0 (Some c) (set_prev c (l_tail s) s)
           | None => set_prev c (l_tail s) s
           end))) ((h :: l) ++ [c])) as Happend.
  { clear Hget. assert (h :: l ≠ []) as Hne by done.
    revert Hne Hnd Hn Hp Hh Ht Hlen Hc.
    generalize (h :: l) as l'. clear h l.
    intros l'. destruct l' as [|t' l' _] using rev_ind; [done|].
    intros. rewrite last_snoc in Ht. rewrite reverse_snoc in Hp.
    destruct Hp as [Hpt Hp]. apply chain_snoc in Hn as [Hn Hnt].
    nodup_dec. apply not_elem_of_app in Hc as [? ?%not_elem_of_cons].
    rewrite Ht. run_code.
    split; st_simpl; simpl in *; try done.
    - solve_nodup.
    - apply chain_snoc. split; [apply chain_snoc; split|].
      + frame Hn.
      + fld_solve.
      + fld_solve.
    - rewrite !reverse_snoc. simpl. split_and!; [fld_solve | fld_solve | frame Hp].
    - rewrite Hh. by destruct l'.
    - by rewrite last_snoc.
    - rewrite !length_app in *. simpl in *. lia. }
  destruct (num_eq t zero).
  { exists 0%nat. unfold place. rewrite take_0, drop_0.
    rewrite !reverse_cons in *. apply chain_snoc in Hp as [Hp Hph].
    destruct Hn as [Hnh Hn]. nodup_dec. apply not_elem_of_cons in Hc as [? ?].
    clear Happend.
    run_code. split; st_simpl; simpl in *; try done; try lia.
    - solve_nodup.
    - split_and!; [fld_solve | fld_solve | frame Hn].
    - rewrite !reverse_cons. apply chain_snoc. split; [apply chain_snoc; split|].
      + frame Hp.
      + fld_solve.
      + fld_solve. }
  destruct (num_eq t (of_Z (Z.of_nat (length (h :: l))))).
  { exists (length (h :: l)). rewrite place_end. exact Happend. }
  destruct (getNodeAt t s) as [target|] eqn:Htg.
  2:{ exists (length (h :: l)). rewrite place_end. exact Happend. }
  clear Happend Htg. specialize (Hget _ eq_refl).
  apply list_elem_of_split in Hget as (l1 & l2 & Hl).
  revert Hnd Hn Hp Hh Ht Hlen Hc. rewrite Hl. clear Hl. intros.
  exists (length l1). rewrite place_middle.
  destruct l1 as [|p l1 _] using rev_ind.
  - (* the target is the head: the moved node becomes the head *)
    simpl in *. rewrite !reverse_cons in *. apply chain_snoc in Hp as [Hp Hph].
    destruct Hn as [Hnh Hn]. nodup_dec. apply not_elem_of_cons in Hc as [? ?].
    run_code. split; st_simpl; simpl in *; try done; try lia.
    + solve_nodup.
    + split_and!; [fld_solve | fld_solve | frame Hn].
    + rewrite !reverse_cons. apply chain_snoc. split; [apply chain_snoc; split|].
      * frame Hp.
      * fld_solve.
      * fld_solve.
  - assert (wf s ((l1 ++ [p]) ++ target :: l2)) as Hwf by done.
    destruct (wf_split _ _ _ _ Hwf) as (Hn1 & Hnc & Hn2 & Hp2 & Hpc & Hp1).
    clear Hwf Hn Hp.
    apply chain_snoc in Hn1 as [Hn1 Hnp]. rewrite last_snoc in Hpc.
    rewrite reverse_snoc in Hp1. destruct Hp1 as [Hpp Hp1].
    apply not_elem_of_app in Hc as [[? ?%not_elem_of_cons]%not_elem_of_app
                                      [? ?]%not_elem_of_cons].
    rewrite <- app_assoc in Hnd. nodup_dec.
    run_code. split; st_simpl; simpl in *; try done.
    + rewrite <- app_assoc. solve_nodup.
    + apply chain_app. cbn [chain hd_or].
      split; [apply chain_snoc; split|split_and!].
      * frame Hn1.
      * fld_solve.
      * fld_solve.
      * fld_solve.
      * frame Hn2.
    + rewrite reverse_app, !reverse_cons, reverse_snoc, <- !app_assoc.
      apply chain_app. simpl. split_and!.
      * frame Hp2.
      * fld_solve.
      * fld_solve.
      * fld_solve.
      * frame Hp1.
    + rewrite Hh. by destruct l1.
    + rewrite Ht, !last_app. simpl. by rewrite !last_cons.
    + rewrite !length_app in *. simpl in *. lia.
Qed.

Lemma moveNode_any (x y : num) s l :
  wf s l -> exists l', wf (moveNode x y s).1 l'.
Proof.
  intros Hwf. rewrite moveNode_reinsert.
  destruct (num_eq x y); [by exists l|].
  destruct (getNodeAt x s) as [c|] eqn:Hc; [|by exists l].
  apply (wf_getNodeAt_elem _ _ _ _ Hwf) in Hc.
  apply list_elem_of_split in Hc as (l1 & l2 & ->).
  destruct (detachNode_wf _ _ _ _ Hwf) as [Hwf' Hiso].
  assert (c ∉ l1 ++ l2) as Hnot.
  { pose proof (wf_nodup _ _ Hwf) as Hnd. nodup_dec. set_solver. }
  destruct (reinsert_any _ _ _ y Hwf' Hiso Hnot) as [_ [k Hk]]. eauto.
Qed.

Lemma empty_wf : wf (@empty T) [].
Proof. split; simpl; try done. apply NoDup_nil_2. Qed.

Lemma apply_op_wf o s l :
  integral_op o -> wf s l ->
  wf (apply_op s o) (op_nodes (length (store s)) o l).
Proof.
  intros Hint Hwf.
  destruct o as [v|v|v ?|?|? ?]; simpl in *;
    repeat match goal with
           | H : _ /\ _ |- _ => destruct H
           | H : integral _ |- _ => destruct H as [? ->]
           end; rewrite ?to_Z_of_Z.
  - by apply insertAtStart_wf.
  - by apply insertAtEnd_wf.
  - by apply insertAt_wf.
  - by apply removeAt_wf.
  - by apply moveNode_wf.
Qed.

Lemma run_snoc (ops : list (op T)) o : run (ops ++ [o]) = apply_op (run ops) o.
Proof. unfold run. by rewrite foldl_app. Qed.

(** Integers are indices insertAt takes without harm. *)
Lemma insert_ok_int z : insert_ok (of_Z z) = true.
Proof.
  unfold insert_ok, num_leq, num_geq, num_leq, of_Z, one, num_le, Qle_bool.
  simpl. apply orb_true_iff. rewrite !Z.leb_le. lia.
Qed.

Lemma integral_insert_safe (o : op T) : integral_op o -> insert_safe o.
Proof. destruct o; try done. intros [z ->]. apply insert_ok_int. Qed.

(** Every operation keeps a well-formed list well-formed, insertAt at the
    indices it takes without harm. *)
Lemma apply_op_safe (o : op T) s l :
  insert_safe o -> wf s l -> exists l', wf (apply_op s o) l'.
Proof.
  intros Hs Hwf. destruct o as [v|v|v x|x|x y]; simpl in *.
  - eexists. by apply insertAtStart_wf.
  - eexists. by apply insertAtEnd_wf.
  - destruct (insertAt_any v x _ _ Hs Hwf) as [_ [k Hk]]. eauto.
  - destruct (removeAt_any x _ _ Hwf) as [k Hk]. eauto.
  - by apply (moveNode_any x y s l).
Qed.

Lemma run_safe (ops : list (op T)) :
  Forall insert_safe ops -> exists l, wf (run ops) l.
Proof.
  induction ops as [|o ops IH] using rev_ind; intros Hs.
  - exists []. apply empty_wf.
  - apply Forall_app in Hs as [Hops [Ho _]%Forall_cons].
    destruct (IH Hops) as [l Hl].
    rewrite run_snoc. by eapply apply_op_safe.
Qed.

Lemma run_wf (ops : list (op T)) :
  Forall integral_op ops -> exists l, wf (run ops) l.
Proof.
  induction ops as [|o ops IH] using rev_ind; intros Hint.
  - exists []. apply empty_wf.
  - apply Forall_app in Hint as [Hops [Ho _]%Forall_cons].
    destruct (IH Hops) as [l Hl].
    rewrite run_snoc. eexists. by apply apply_op_wf.
Qed.


(** ** Values stay with their nodes *)

Lemma gv_set_next s b x a : get_value (set_next b x s) a = get_value s a.
Proof.
  unfold get_value. simpl. destruct (decide (b = a)) as [->|].
  - rewrite list_lookup_alter_eq. by destruct (store s !! a).
  - by rewrite list_lookup_alter_ne.
Qed.

Lemma gv_set_prev s b x a : get_value (set_prev b x s) a = get_value s a.
Proof.
  unfold get_value. simpl. destruct (decide (b = a)) as [->|].
  - rewrite list_lookup_alter_eq. by destruct (store s !! a).
  - by rewrite list_lookup_alter_ne.
Qed.

Lemma gv_set_head s x a : get_value (set_head x s) a = get_value s a.
Proof. done. Qed.
Lemma gv_set_tail s x a : get_value (set_tail x s) a = get_value s a.
Proof. done. Qed.
Lemma gv_set_length s z a : get_value (set_length z s) a = get_value s a.
Proof. done. Qed.

Lemma gv_createNode_old v s a :
  (a < length (store s))%nat -> get_value (createNode v s).1 a = get_value s a.
Proof. intros. unfold get_value. simpl. by rewrite lookup_app_l. Qed.

Lemma gv_createNode_new v s :
  get_value (createNode v s).1 (length (store s)) = Some v.
Proof. unfold get_value. simpl. by rewrite list_lookup_middle. Qed.

Ltac gv_rw :=
  repeat first
    [ rewrite gv_set_next | rewrite gv_set_prev | rewrite gv_set_head
    | rewrite gv_set_tail | rewrite gv_set_length ].

Ltac gv_cases :=
  cbv zeta; repeat case_match; simplify_eq/=; gv_rw.

Lemma gv_detachNode c s a : get_value (detachNode c s) a = get_value s a.
Proof. unfold detachNode. by gv_cases. Qed.

Lemma gv_reinsert c (x : num) s a :
  get_value (reinsert c x s).1 a = get_value s a.
Proof. unfold reinsert. by gv_cases. Qed.

Lemma gv_insertAtStart v s :
  get_value (insertAtStart v s).1 (length (store s)) = Some v /\
  forall a, (a < length (store s))%nat ->
            get_value (insertAtStart v s).1 a = get_value s a.
Proof.
  pose proof (gv_createNode_new v s). pose proof (gv_createNode_old v s).
  unfold insertAtStart. destruct (createNode v s) as [s' n] eqn:E.
  injection E as <- <-. split; [|intros a Ha]; gv_cases; auto.
Qed.

Lemma gv_insertAtEnd v s :
  get_value (insertAtEnd v s).1 (length (store s)) = Some v /\
  forall a, (a < length (store s))%nat ->
            get_value (insertAtEnd v s).1 a = get_value s a.
Proof.
  pose proof (gv_createNode_new v s). pose proof (gv_createNode_old v s).
  unfold insertAtEnd. destruct (createNode v s) as [s' n] eqn:E.
  injection E as <- <-. split; [|intros a Ha]; gv_cases; auto.
Qed.

Lemma gv_insertAt v (x : num) s :
  get_value (insertAt v x s).1 (length (store s)) = Some v /\
  forall a, (a < length (store s))%nat ->
            get_value (insertAt v x s).1 a = get_value s a.
Proof.
  pose proof (gv_createNode_new v s). pose proof (gv_createNode_old v s).
  unfold insertAt.
  destruct (num_leq x zero || is_null (l_head s)); [apply gv_insertAtStart|].
  destruct (num_geq x (of_Z (l_length s))); [apply gv_insertAtEnd|].
  destruct (getNodeAt x s) as [cur|]; [|apply gv_insertAtEnd].
  destruct (createNode v s) as [s' nd] eqn:E.
  injection E as <- <-. split; [|intros a Ha]; gv_cases; auto.
Qed.

Lemma gv_removeAt (x : num) s a :
  get_value (removeAt x s).1 a = get_value s a.
Proof.
  unfold removeAt, removeNode. destruct (getNodeAt x s); [|done].
  cbv zeta. cbn [fst]. gv_rw. apply gv_detachNode.
Qed.

Lemma gv_moveNode (x y : num) s a :
  get_value (moveNode x y s).1 a = get_value s a.
Proof.
  rewrite moveNode_reinsert. destruct (num_eq x y); [done|].
  destruct (getNodeAt x s); [|done].
  by rewrite gv_reinsert, gv_detachNode.
Qed.


(** ** Nodes and values move together *)


Lemma holds_toArray s l vs : holds s l vs -> toArray s = Some vs.
Proof.
  intros [Hwf Hv]. unfold toArray.
  change (traverse _ _ _) with (forward s). rewrite (wf_forward _ _ Hwf).
  simpl. by apply mapM_Some_2.
Qed.

Lemma gv_apply_op o s a :
  (a < length (store s))%nat -> get_value (apply_op s o) a = get_value s a.
Proof.
  intros Ha. destruct o; simpl.
  - by apply gv_insertAtStart.
  - by apply gv_insertAtEnd.
  - by apply gv_insertAt.
  - apply gv_removeAt.
  - apply gv_moveNode.
Qed.

Lemma gv_apply_op_new o s v :
  op_value o = Some v -> get_value (apply_op s o) (length (store s)) = Some v.
Proof.
  destruct o; simpl; intros; simplify_eq.
  - apply gv_insertAtStart.
  - apply gv_insertAtEnd.
  - apply gv_insertAt.
Qed.

Lemma apply_op_holds o s l vs :
  integral_op o -> holds s l vs ->
  holds (apply_op s o) (op_nodes (length (store s)) o l) (op_values o vs).
Proof.
  intros Hint [Hwf Hv]. split; [by apply apply_op_wf|].
  assert (Forall2 (fun a v => get_value (apply_op s o) a = Some v) l vs) as Hv'.
  { eapply Forall2_impl_in; [exact Hv|]. intros a v Ha Hav. simpl in *.
    rewrite gv_apply_op; [done|]. by eapply wf_alloc. }
  pose proof (Forall2_length _ _ _ Hv) as Hlen.
  destruct o as [v|v|v i|i|i j]; cbn [op_nodes op_values].
  - constructor; [|done]. by apply (gv_apply_op_new (InsertAtStart v)).
  - apply Forall2_app; [done|]. constructor; [|done].
    by apply (gv_apply_op_new (InsertAtEnd v)).
  - rewrite Hlen. apply Forall2_place; [done|].
    by apply (gv_apply_op_new (InsertAt v i)).
  - by apply Forall2_removed.
  - by apply Forall2_moved.
Qed.

Lemma run_holds (ops : list (op T)) :
  Forall integral_op ops -> exists l, holds (run ops) l (model ops).
Proof.
  induction ops as [|o ops IH] using rev_ind; intros Hint.
  - exists []. split; [apply empty_wf | constructor].
  - apply Forall_app in Hint as [Hops [Ho _]%Forall_cons].
    destruct (IH Hops) as [l Hl].
    rewrite run_snoc. unfold model. rewrite foldl_app. simpl.
    eexists. by apply apply_op_holds.
Qed.


Lemma forward_wf s l l' : wf s l -> forward s = Some l' -> l' = l.
Proof. intros Hwf Hf. rewrite (wf_forward _ _ Hwf) in Hf. congruence. Qed.



(** C6.  On any list built by the operations (insertAt at indices it takes
    without harm, the integers among them), with [l] its nodes in order and
    [i], [j] integers:
    moveNode(i, i) changes nothing and returns the node at [i]; for
    [i <> j] and [c] the node at [i], moveNode(i, j) returns [c], detaching
    [c] leaves the other nodes in order with the size one less, and [c] goes
    back in at [j] brought into [0, size] for that new size, so that a target
    at or beyond it appends [c]; no node changes its value.  On [A, B, C],
    moveNode(0, 99) gives [B, C, A]. *)
Theorem moveNode_contract (ops : list (op T)) (i j : Z) (l : list nat) :
  Forall insert_safe ops ->
  forward (run ops) = Some l ->
  moveNode (of_Z i) (of_Z i) (run ops) = (run ops, getNodeAt (of_Z i) (run ops)) /\
  (i <> j -> forall c, getNodeAt (of_Z i) (run ops) = Some c ->
     let s1 := detachNode c (run ops) in
     let s2 := (moveNode (of_Z i) (of_Z j) (run ops)).1 in
     (moveNode (of_Z i) (of_Z j) (run ops)).2 = Some c /\
     forward s1 = Some (removed i l) /\
     size s1 = size (run ops) - 1 /\
     forward s2 = Some (place (Z.to_nat (clamp 0 (size s1) j)) c (removed i l)) /\
     (size s1 <= j -> forward s2 = Some (removed i l ++ [c])) /\
     size s2 = size (run ops) /\
     (forall a, get_value s2 a = get_value (run ops) a)) /\
  (forall A B C : T,
     toArray (moveNode (of_Z 0) (of_Z 99) (run [InsertAtEnd A; InsertAtEnd B; InsertAtEnd C])).1
     = Some [B; C; A]).
Proof.
  intros Hs Hf. destruct (run_safe ops Hs) as [l' Hwf].
  apply (forward_wf _ _ _ Hwf) in Hf as ->. split_and!.
  - rewrite moveNode_unfold. by rewrite Z.eqb_refl.
  - intros Hij c Hc s1 s2.
    destruct (moveNode_wf i j _ _ Hwf) as [Hres Hwf2].
    rewrite (wf_getNodeAt _ _ i Hwf) in Hc.
    destruct (Z.ltb_spec i 0) as [|Hi]; [done|].
    pose proof Hc as Hc'.
    apply list_elem_of_split_length in Hc' as (l1 & l2 & Hl & Hi').
    assert (removed i l' = l1 ++ l2) as Hrem.
    { unfold removed. destruct (Z.ltb_spec i 0); [lia|].
      by rewrite Hl, Hi', delete_middle. }
    assert (wf s1 (l1 ++ l2)) as Hwf1.
    { rewrite Hl in Hwf. by apply detachNode_wf. }
    assert (size s1 = Z.of_nat (length l') - 1) as Hsz.
    { unfold size. rewrite (wf_length _ _ Hwf1), Hl, !length_app. simpl. lia. }
    assert (moved i j l'
            = place (Z.to_nat (clamp 0 (size s1) j)) c (removed i l')) as Hmv.
    { unfold moved, removed. destruct (Z.eqb_spec i j); [done|].
      destruct (Z.ltb_spec i 0); [lia|]. by rewrite Hc, Hsz. }
    rewrite Hmv in Hwf2. fold s2 in Hwf2. split_and!.
    + rewrite Hres, (wf_getNodeAt _ _ i Hwf).
      destruct (Z.ltb_spec i 0); [lia | done].
    + rewrite Hrem. by apply wf_forward.
    + rewrite Hsz. unfold size. by rewrite (wf_length _ _ Hwf).
    + by apply wf_forward.
    + intros Hj. rewrite (wf_forward _ _ Hwf2). f_equal.
      replace (Z.to_nat (clamp 0 (size s1) j)) with (length (removed i l')).
      * apply place_end.
      * rewrite Hrem. unfold clamp. rewrite Hsz in *.
        rewrite Hl, !length_app in *. simpl in *. lia.
    + change (size s2) with (l_length s2).
      change (size (run ops)) with (l_length (run ops)).
      rewrite (wf_length _ _ Hwf2), (wf_length _ _ Hwf), Hsz.
      unfold place, clamp. rewrite Hrem, length_app. simpl.
      rewrite length_take, length_drop, Hl, !length_app. simpl. lia.
    + intros a. apply gv_moveNode.
  - intros A B C. reflexivity.
Qed.


(** ** The index of a node *)

Lemma chain_indexOf h l n fuel i :
  chain next h None l -> (length l <= fuel)%nat ->
  indexOf_loop (follow next h) n fuel (head l) i = Some (index_from n l i).
Proof.
  revert fuel i. induction l as [|a l IH]; intros fuel i Hc Hf.
  - by destruct fuel.
  - destruct Hc as [Ha Hl]. simpl in Hf.
    destruct fuel as [|fuel]; simpl; case_bool_decide; try done; [lia|].
    rewrite follow_fld, Ha. simpl. rewrite hd_or_head. apply IH; [done | lia].
Qed.

Lemma wf_indexOfNode s l n :
  wf s l -> indexOfNode (Some n) s = Some (index_from n l 0).
Proof.
  intros Hwf. unfold indexOfNode. rewrite (wf_head _ _ Hwf).
  apply chain_indexOf; [apply (wf_next _ _ Hwf) | by apply wf_fuel].
Qed.

Lemma index_from_spec n l i :
  (n ∈ l -> i <= index_from n l i < i + Z.of_nat (length l) /\
            l !! Z.to_nat (index_from n l i - i) = Some n) /\
  (n ∉ l -> index_from n l i = -1).
Proof.
  revert i. induction l as [|a l IH]; intros i; simpl.
  - split; [by intros ?%elem_of_nil | done].
  - case_bool_decide as E.
    + subst. split; [|intros []; left]. intros _. split; [lia|].
      by rewrite Z.sub_diag.
    + destruct (IH (i + 1)) as [IH1 IH2]. split.
      * intros [?|Hin]%elem_of_cons; [done|]. destruct (IH1 Hin) as [Hr Hl].
        split; [lia|].
        replace (Z.to_nat (index_from n l (i + 1) - i))
          with (S (Z.to_nat (index_from n l (i + 1) - (i + 1)))) by lia.
        done.
      * intros Hn. apply IH2. intros Hin. apply Hn. by right.
Qed.

Lemma gv_removeNode n s a :
  get_value (removeNode n s).1 a = get_value s a.
Proof.
  unfold removeNode. destruct n; [|done].
  cbv zeta. cbn [fst]. gv_rw. apply gv_detachNode.
Qed.

Lemma removeNode_holds s l1 c l2 vs :
  holds s (l1 ++ c :: l2) vs ->
  holds (removeNode (Some c) s).1 (l1 ++ l2) (delete (length l1) vs).
Proof.
  intros [Hwf Hv]. split; [by apply removeNode_wf|].
  rewrite <- (delete_middle l1 l2 c). apply Forall2_delete.
  eapply Forall2_impl; [exact Hv|]. intros a v Hav. cbn beta in *.
  by rewrite gv_removeNode.
Qed.

Lemma wf_neighbours s l1 c l2 :
  wf s (l1 ++ c :: l2) ->
  get_next s c = head l2 /\ get_prev s c = last l1.
Proof.
  intros Hwf. destruct (wf_split _ _ _ _ Hwf) as (_ & Hn & _ & _ & Hp & _).
  unfold get_next, get_prev, node_next, node_prev.
  by rewrite !follow_fld, Hn, Hp.
Qed.

End Facts.




(** C6 on the list [A, B, C] built by three appends: moveNode(0, 99)
    returns the first node and leaves the nodes in the order B, C, A. *)
Lemma moveNode_contract_witness :
  let ops := [InsertAtEnd 10; InsertAtEnd 20; InsertAtEnd 30] in
  (moveNode (of_Z 0) (of_Z 99) (run ops)).2 = Some 0%nat /\
  forward (moveNode (of_Z 0) (of_Z 99) (run ops)).1 = Some [1; 2; 0]%nat /\
  toArray (moveNode (of_Z 0) (of_Z 99) (run ops)).1 = Some [20; 30; 10].
Proof.
  intros ops.
  destruct (moveNode_contract ops 0 99 [0; 1; 2]%nat
              ltac:(by repeat constructor) eq_refl) as (_ & H & H3).
  destruct (H ltac:(lia) 0%nat eq_refl) as (H1 & _ & _ & _ & H5 & _).
  split_and!; [exact H1 | apply H5; vm_compute; discriminate | apply H3].
Defined.

End DLLFacts.

(* ===================================================================== *)
(** * The controller *)
(* ===================================================================== *)

Module PlayerFacts.
Import Num NumFacts DLL DLLFacts Player.

(** ** Numbers *)

Lemma num_le_refl_fin q : num_le (Fin q) (Fin q) = true.
Proof. simpl. apply Qle_bool_iff. apply Qle_refl. Qed.

(** ** Seeking *)

Lemma seekTo_not_finite value c :
  num_isFinite value = false -> seekTo value c = c.
Proof. intros H. unfold seekTo. by rewrite H. Qed.

(** C7, the failing case.  On the component as constructed (no duration
    known, displayed duration 0), seekTo(-5) assigns -5 to the element's
    current time and to the displayed time: below 0, and outside
    [0, effectiveDuration], which is [0, 0] here. *)
Theorem seekTo_negative_unclamped :
  let c := seekTo (Fin (-5)) initial in
  a_currentTime (audio c) = Fin (-5) /\
  currentTime c = Fin (-5) /\
  effectiveDuration (Fin (-5)) initial = Fin 0 /\
  num_le zero (a_currentTime (audio c)) = false.
Proof. repeat split. Qed.

(** ** Indices out of range *)

(** getNodeAt returns null at every number below 0 or not below the
    count. *)
Lemma getNodeAt_out_of_range {T} (index : num) (s : DoublyLinkedList T) :
  num_lt index zero = true \/ num_geq index (of_Z (size s)) = true ->
  getNodeAt index s = None.
Proof. intros [H|H]; unfold getNodeAt, size in *; rewrite H; by rewrite ?orb_true_r. Qed.

(** C9, as stated, fails: NaN is no index of the range, yet it passes both
    range tests, being neither below 0 nor at or above the count.  On the
    session of three tracks getNodeAt(NaN) is the last node, playTrack(NaN)
    moves the cursor to it and loads and plays it, and removeTrack(NaN)
    removes it. *)
Lemma NaN_index_reaches_tail :
  num_leq zero NaN = false /\
  num_lt NaN (of_Z (size (playlist three_playing))) = false /\
  getNodeAt NaN (playlist three_playing) = Some 2%nat /\
  (exists c, playTrack NaN three_playing = Some c /\
             currentNode c = Some 2%nat /\ currentTrackIndex c = 2 /\
             calls c = calls three_playing ++ [AudioLoad; AudioPlay]) /\
  (exists c, removeTrack NaN three_playing = Some c /\
             tracks c = [0; 1]%nat /\ size (playlist c) = 2) /\
  playTrack NaN three_playing <> Some three_playing /\
  removeTrack NaN three_playing <> Some three_playing.
Proof.
  split_and!; try reflexivity.
  - eexists. split; [vm_compute; reflexivity|]. by split_and!.
  - eexists. split; [vm_compute; reflexivity|]. by split_and!.
  - vm_compute. discriminate.
  - vm_compute. discriminate.
Qed.

(** C9, amended.  For every number below 0 or at or above the count, the
    infinities and the fractions among them, playTrack and removeTrack
    return with the component unchanged, and getNodeAt returns null. *)
Theorem out_of_range_no_op (index : num) (c : App) :
  num_lt index zero = true \/ num_geq index (of_Z (size (playlist c))) = true ->
  playTrack index c = Some c /\
  removeTrack index c = Some c /\
  getNodeAt index (playlist c) = None.
Proof.
  intros H. pose proof (getNodeAt_out_of_range _ _ H) as Hg.
  unfold playTrack, removeTrack. rewrite Hg.
  split_and!; [by case_match | done | done].
Qed.

(** C9 on the playing session of three tracks, at the indices 3, -1,
    7/2 and Infinity. *)
Lemma out_of_range_no_op_witness :
  Forall (fun index =>
            playTrack index three_playing = Some three_playing /\
            removeTrack index three_playing = Some three_playing /\
            getNodeAt index (playlist three_playing) = None)
         [of_Z 3; of_Z (-1); Fin (7 # 2); Inf true].
Proof.
  do 4 (constructor;
        [apply out_of_range_no_op;
         first [left; reflexivity | right; reflexivity]|]).
  constructor.
Defined.

(** ** Removing a track *)

Lemma releaseTrackResources_eq t c :
  releaseTrackResources t c =
  mkApp (heap c) (tracks c) (currentTrackIndex c) (isPlaying c)
        (isLoadingTrack c) (currentTime c) (duration c) (volume c) (audio c)
        (playlist c) (currentNode c) (calls c ++ released t).
Proof.
  unfold releaseTrackResources, released, do_call. simpl.
  destruct (artworkUrl t); simpl; [by rewrite <- app_assoc | done].
Qed.

Ltac app_simpl :=
  cbv [with_heap with_tracks with_currentTrackIndex with_isPlaying
       with_isLoadingTrack with_currentTime with_duration with_volume
       with_audio with_playlist with_currentNode do_call set_src
       set_audio_currentTime set_audio_duration set_audio_volume
       audio_pause playInternal onPlayResolved onPlayRejected
       heap tracks currentTrackIndex isPlaying isLoadingTrack currentTime
       duration volume audio playlist currentNode calls
       src a_currentTime a_duration a_volume paused
       mbind option_bind negb] in *.

Lemma wf_indexOfNode' {T} (s : DoublyLinkedList T) l cur :
  wf s l -> indexOfNode cur s = Some (shown_index cur l).
Proof. intros. destruct cur; [by apply wf_indexOfNode | done]. Qed.

(** selectNode on a node other than the cursor: the cursor moves, the
    source is assigned and loaded, and play() is called if asked. *)
Lemma selectNode_other c r l tr shouldPlay :
  wf (playlist c) l -> track_at c r = Some tr -> currentNode c <> Some r ->
  selectNode r shouldPlay c =
  Some (mkApp (heap c) (tracks c) (index_from r l 0)
          (if shouldPlay then isPlaying c else false) true zero
          (default zero (t_duration tr)) (volume c)
          (mkAudio (url tr) (a_currentTime (audio c)) (a_duration (audio c))
                   (a_volume (audio c)) (paused (audio c)))
          (playlist c) (Some r)
          (calls c ++ AudioLoad :: (if shouldPlay then [AudioPlay] else []))).
Proof.
  intros Hwf Ht Hne. unfold selectNode, track_at in *. destruct c. app_simpl.
  rewrite (wf_indexOfNode _ _ _ Hwf). app_simpl.
  rewrite bool_decide_false by congruence. app_simpl.
  destruct (get_value _ r) as [ref|]; [|done]. app_simpl. rewrite Ht. app_simpl.
  destruct shouldPlay; app_simpl; [|done]. by rewrite <- app_assoc.
Qed.

(** selectNode on the cursor itself: only the play or pause intent. *)
Lemma selectNode_same c r l shouldPlay :
  wf (playlist c) l -> currentNode c = Some r ->
  selectNode r shouldPlay c =
  Some (mkApp (heap c) (tracks c) (index_from r l 0)
          (if shouldPlay then isPlaying c else false) (isLoadingTrack c)
          (currentTime c) (duration c) (volume c) (audio c) (playlist c)
          (Some r) (calls c ++ (if shouldPlay then [AudioPlay] else []))).
Proof.
  intros Hwf Hc. unfold selectNode. destruct c. app_simpl. subst.
  rewrite (wf_indexOfNode _ _ _ Hwf). app_simpl.
  rewrite bool_decide_true by done. app_simpl.
  destruct shouldPlay; app_simpl; [done|]. by rewrite app_nil_r.
Qed.

Lemma refreshPlaylistSnapshot_eval c l vs :
  holds (playlist c) l vs ->
  refreshPlaylistSnapshot c =
  Some (mkApp (heap c) vs (shown_index (currentNode c) l) (isPlaying c)
          (isLoadingTrack c) (currentTime c) (duration c) (volume c) (audio c)
          (playlist c) (currentNode c) (calls c)).
Proof.
  intros Hh. unfold refreshPlaylistSnapshot. destruct c. app_simpl.
  rewrite (holds_toArray _ _ _ Hh). app_simpl.
  by rewrite (wf_indexOfNode' _ _ _ (proj1 Hh)).
Qed.

Lemma removeTrack_eval c l1 a l2 vs t :
  sound c (l1 ++ a :: l2) vs -> track_at c a = Some t ->
  removeTrack (of_Z (Z.of_nat (length l1))) c = after_remove c l1 a l2 vs t.
Proof.
  intros [Hh Hheap Hcur] Ht. pose proof Hh as [Hwf Hv].
  pose proof (removeNode_holds _ _ _ _ _ Hh) as Hh'.
  pose proof Hh' as [Hwf' Hv'].
  destruct (wf_neighbours _ _ _ _ Hwf) as [Hn Hp].
  unfold removeTrack, after_remove.
  rewrite (wf_getNodeAt_nat _ _ _ Hwf), list_lookup_middle by done.
  rewrite Hn, Hp, Ht. cbn [mbind option_bind]. cbv zeta.
  fold (replacement_of l1 l2).
  rewrite releaseTrackResources_eq.
  set (pl := (removeNode (Some a) (playlist c)).1) in *.
  case_bool_decide as Hsame.
  - destruct (replacement_of l1 l2) as [r|] eqn:Hr.
    + assert (r ≠ a) as Hra.
      { pose proof (wf_nodup _ _ Hwf) as Hnd. unfold replacement_of in Hr.
        intros ->. apply NoDup_app in Hnd as (_ & Hd & [Ha _]%NoDup_cons).
        destruct (head l2) eqn:E.
        - simplify_eq. apply Ha. by apply head_Some_elem_of in E.
        - apply last_Some_elem_of in Hr. apply (Hd _ Hr). left. }
      assert (forall c', playlist c' = pl -> heap c' = heap c ->
                track_at c' r = track_at c r) as Htr.
      { intros c' Hpl Hhp. unfold track_at. rewrite Hpl, Hhp. unfold pl.
        by rewrite gv_removeNode. }
      destruct (track_at c r) as [tr|] eqn:Etr.
      * erewrite selectNode_other;
          [| app_simpl; exact Hwf' | by apply Htr
           | app_simpl; congruence].
        app_simpl. erewrite refreshPlaylistSnapshot_eval by (app_simpl; exact Hh').
        app_simpl. unfold shown_index.
        clearbody pl. clear -c. destruct c as [? ? ? [] ? ? ? ? ? ? ? ?];
          do 2 f_equal; rewrite <- ?app_assoc; done.
      * unfold selectNode. app_simpl. rewrite (wf_indexOfNode _ _ _ Hwf').
        app_simpl. rewrite bool_decide_false by congruence. app_simpl.
        by rewrite Htr.
    + app_simpl. erewrite refreshPlaylistSnapshot_eval by (app_simpl; exact Hh').
      app_simpl. do 2 f_equal. by rewrite <- !app_assoc.
  - cbn [mbind option_bind].
    erewrite refreshPlaylistSnapshot_eval by (app_simpl; exact Hh').
    by app_simpl.
Qed.

(** Every node of a sound session carries a track of the heap. *)
Lemma sound_track_at c l vs n :
  sound c l vs -> n ∈ l -> is_Some (track_at c n).
Proof.
  intros [[_ Hv] Hheap _] Hn. apply list_elem_of_lookup in Hn as [i Hi].
  destruct (Forall2_lookup_l _ _ _ _ _ Hv Hi) as (v & Hvi & Hg).
  unfold track_at. cbn beta in Hg. rewrite Hg. simpl.
  rewrite Forall_forall in Hheap. apply Hheap.
  by eapply list_elem_of_lookup_2.
Qed.

Lemma replacement_elem l1 l2 r :
  replacement_of l1 l2 = Some r -> r ∈ l1 ++ l2.
Proof.
  unfold replacement_of. destruct (head l2) eqn:E; intros Hr.
  - simplify_eq. apply elem_of_app. right. by apply head_Some_elem_of.
  - apply elem_of_app. left. by apply last_Some_elem_of.
Qed.

Lemma elem_of_middle_other (l1 l2 : list nat) a n :
  n ∈ l1 ++ a :: l2 -> n <> a -> n ∈ l1 ++ l2.
Proof. set_solver. Qed.

Lemma elem_of_without (l1 l2 : list nat) a n :
  n ∈ l1 ++ l2 -> n ∈ l1 ++ a :: l2.
Proof. set_solver. Qed.

(** C8.  In a session whose playlist holds the nodes [l1 ++ a :: l2],
    removeTrack at the index of [a] returns; the playlist then holds
    [l1 ++ l2] with [a] unlinked, the snapshot is the tracks of those nodes,
    and the URLs of the removed track are revoked.  If [a] was the cursor,
    pause() is called, isPlaying is false and the cursor is the successor of
    [a] if there is one, else its predecessor, else empty with index -1,
    duration and time 0 and the source cleared.  If [a] was not the cursor,
    no other call is made and cursor, playback flags, times, volume and the
    audio element are as before; the index is that of the cursor in the new
    order. *)
Theorem removeTrack_contract c l1 a l2 vs :
  sound c (l1 ++ a :: l2) vs ->
  exists t c',
    track_at c a = Some t /\
    removeTrack (of_Z (Z.of_nat (length l1))) c = Some c' /\
    sound c' (l1 ++ l2) (delete (length l1) vs) /\
    isolated (playlist c') a /\
    tracks c' = delete (length l1) vs /\
    heap c' = heap c /\
    exists rest,
      calls c' = calls c ++ released t ++ rest /\
      if bool_decide (currentNode c = Some a) then
        head rest = Some AudioPause /\
        isPlaying c' = false /\
        match head l2, last l1 with
        | Some n, _ => currentNode c' = Some n
        | None, Some p => currentNode c' = Some p
        | None, None =>
            rest = [AudioPause] /\
            currentNode c' = None /\ currentTrackIndex c' = -1 /\
            isLoadingTrack c' = false /\
            duration c' = zero /\ currentTime c' = zero /\
            src (audio c') = ""
        end
      else
        rest = [] /\
        currentNode c' = currentNode c /\
        currentTrackIndex c' = shown_index (currentNode c) (l1 ++ l2) /\
        isPlaying c' = isPlaying c /\
        isLoadingTrack c' = isLoadingTrack c /\
        currentTime c' = currentTime c /\
        duration c' = duration c /\
        volume c' = volume c /\
        audio c' = audio c.
Proof.
  intros Hs.
  destruct (sound_track_at _ _ _ a Hs) as [t Ht]; [set_solver|].
  exists t. rewrite (removeTrack_eval _ _ _ _ _ _ Hs Ht).
  pose proof Hs as [Hh Hheap Hcur].
  pose proof (removeNode_holds _ _ _ _ _ Hh) as Hh'.
  destruct (removeNode_wf _ _ _ _ (proj1 Hh)) as [_ Hiso].
  assert (Forall (fun r => is_Some (heap c !! r)) (delete (length l1) vs))
    as Hheap'.
  { by apply Forall_delete. }
  unfold after_remove.
  destruct (decide (currentNode c = Some a)) as [Hc|Hc].
  - rewrite (bool_decide_true (Some a = _)), (bool_decide_true (_ = Some a))
      by done.
    destruct (replacement_of l1 l2) as [r|] eqn:Hr.
    + pose proof (replacement_elem _ _ _ Hr) as Hrl.
      destruct (sound_track_at _ _ _ r Hs) as [tr Htr];
        [by apply elem_of_without|].
      rewrite Htr. simpl. eexists. do 2 (split; [done|]). split.
      { split; simpl; [done | done |]. by intros n [= <-]. }
      do 3 (split; [done|]). eexists. split; [done|]. do 2 (split; [done|]).
      unfold replacement_of in Hr. simpl.
      destruct (head l2), (last l1); by simplify_eq.
    + eexists. do 2 (split; [done|]). split.
      { split; simpl; done. }
      do 3 (split; [done|]). eexists. split; [done|]. do 2 (split; [done|]).
      unfold replacement_of in Hr.
      by destruct (head l2), (last l1).
  - rewrite (bool_decide_false (Some a = _)), (bool_decide_false (_ = Some a))
      by done.
    eexists. do 2 (split; [done|]). split.
    { split; simpl; [done | done |]. intros n Hn.
      eapply elem_of_middle_other; [by apply Hcur | congruence]. }
    do 3 (split; [done|]). exists []. by rewrite app_nil_r.
Qed.

(** C10.  When the cursor's node [a] is removed and [r], its successor or
    else its predecessor, exists, removeTrack returns with the cursor on
    [r] and the source of [r] assigned and loaded, and play() is called
    after that if and only if isPlaying was true when removeTrack was
    called; if it was false, no play() is called and isPlaying stays
    false. *)
Theorem replacement_autoplay c l1 a l2 vs r :
  sound c (l1 ++ a :: l2) vs ->
  currentNode c = Some a ->
  replacement_of l1 l2 = Some r ->
  exists t tr c',
    track_at c a = Some t /\ track_at c r = Some tr /\
    removeTrack (of_Z (Z.of_nat (length l1))) c = Some c' /\
    currentNode c' = Some r /\
    src (audio c') = url tr /\
    calls c' = calls c ++ released t ++ [AudioPause; AudioLoad] ++
               (if isPlaying c then [AudioPlay] else []) /\
    (AudioPlay ∈ drop (length (calls c)) (calls c') <-> isPlaying c = true) /\
    (isPlaying c = false -> isPlaying c' = false).
Proof.
  intros Hs Hc Hr.
  destruct (sound_track_at _ _ _ a Hs) as [t Ht]; [set_solver|].
  destruct (sound_track_at _ _ _ r Hs) as [tr Htr].
  { apply elem_of_without. by apply replacement_elem. }
  exists t, tr. rewrite (removeTrack_eval _ _ _ _ _ _ Hs Ht).
  unfold after_remove. rewrite bool_decide_true by done. rewrite Hr, Htr.
  cbn [mbind option_bind]. eexists. do 2 (split; [done|]).
  split; [reflexivity|]. cbn [calls currentNode audio src isPlaying].
  do 3 (split; [done|]). split; [|done].
  rewrite drop_app_length. unfold released.
  destruct (isPlaying c), (artworkUrl t); split; try done; set_solver.
Qed.

Ltac sound_by_eval :=
  split;
  [ split;
    [ split; simpl;
      [ repeat (apply NoDup_cons_2; [set_solver|]); apply NoDup_nil_2
      | repeat split | repeat split | reflexivity | reflexivity | reflexivity ]
    | repeat constructor ]
  | repeat constructor; by eexists
  | intros n [= <-]; set_solver ].

Lemma removeTrack_contract_witness :
  exists t c',
    track_at three_playing 1 = Some t /\
    removeTrack (of_Z 1) three_playing = Some c' /\
    sound c' [0; 2]%nat [0; 2]%nat /\
    isolated (playlist c') 1 /\
    tracks c' = [0; 2]%nat /\
    heap c' = heap three_playing /\
    exists rest,
      calls c' = calls three_playing ++ released t ++ rest /\
      rest = [] /\
      currentNode c' = Some 0%nat /\
      currentTrackIndex c' = 0 /\
      isPlaying c' = true /\
      isLoadingTrack c' = false /\
      currentTime c' = zero /\
      duration c' = zero /\
      volume c' = Fin (8 # 10) /\
      audio c' = audio three_playing.
Proof.
  apply (removeTrack_contract three_playing [0%nat] 1%nat [2%nat]
           [0; 1; 2]%nat).
  sound_by_eval.
Defined.

Lemma replacement_autoplay_witness :
  exists t tr c',
    track_at three_playing 0 = Some t /\ track_at three_playing 1 = Some tr /\
    removeTrack (of_Z 0) three_playing = Some c' /\
    currentNode c' = Some 1%nat /\
    src (audio c') = url tr /\
    calls c' = calls three_playing ++ released t ++ [AudioPause; AudioLoad] ++
               [AudioPlay] /\
    (AudioPlay ∈ drop (length (calls three_playing)) (calls c') <-> true = true) /\
    (true = false -> isPlaying c' = false).
Proof.
  apply (replacement_autoplay three_playing [] 0%nat [1; 2]%nat
           [0; 1; 2]%nat 1%nat); [sound_by_eval | reflexivity | reflexivity].
Defined.

End PlayerFacts.
(* ===================================================================== *)
(** * Further properties of the playlist sequence *)
(* ===================================================================== *)

Module DLLMore.
Import Num NumFacts DLL DLLFacts.

(** X1.  On a list built by the operations, getNodeAt at a number inside
    the range gives the node at that index rounded up when the index is at
    most half the length, and rounded down otherwise; at NaN it gives the
    tail, and at an infinity nothing. *)
Theorem getNodeAt_rounding {T} (ops : list (op T)) (nodes : list nat) (q : Q) :
  Forall insert_safe ops ->
  forward (run ops) = Some nodes ->
  (0 <= q)%Q -> (q < inject_Z (size (run ops)))%Q ->
  getNodeAt (Fin q) (run ops)
  = nodes !! Z.to_nat (if Qle_bool q (inject_Z (size (run ops)) / 2)
                       then Qceiling q else Qfloor q) /\
  getNodeAt NaN (run ops) = last nodes /\
  getNodeAt (Inf true) (run ops) = None /\
  getNodeAt (Inf false) (run ops) = None.
Proof.
  intros Hs Hf H0 Hn. destruct (run_safe ops Hs) as [l Hwf].
  apply (forward_wf _ _ _ Hwf) in Hf as ->.
  unfold size in *. rewrite (wf_length _ _ Hwf) in *.
  split_and!; [|by apply wf_getNodeAt_NaN|apply getNodeAt_Inf..].
  rewrite (wf_getNodeAt_Fin _ _ _ Hwf).
  assert (Qle_bool 0 q = true) as -> by by apply Qle_bool_iff.
  assert (Qle_bool (inject_Z (Z.of_nat (length l))) q = false) as ->
    by by apply Qle_bool_false.
  cbn [negb andb]. by case_match.
Qed.

Lemma getNodeAt_rounding_witness :
  let ops := [InsertAtEnd 10; InsertAtEnd 20; InsertAtEnd 30] in
  getNodeAt (Fin (3 # 2)) (run ops) = Some 2%nat /\
  getNodeAt (Fin (7 # 4)) (run ops) = Some 1%nat /\
  getNodeAt NaN (run ops) = Some 2%nat.
Proof.
  intros ops.
  assert (Forall insert_safe ops) as Hs by (repeat constructor).
  destruct (getNodeAt_rounding ops [0; 1; 2]%nat (3 # 2) Hs eq_refl)
    as (H1 & H2 & _); [done | done |].
  destruct (getNodeAt_rounding ops [0; 1; 2]%nat (7 # 4) Hs eq_refl)
    as (H3 & _); [done | done |].
  split_and!; [exact H1 | exact H3 | exact H2].
Defined.

(** X2.  A run of operations at integer indices holds the values of the
    plain list on which insertAtStart and insertAtEnd add at the ends,
    insertAt places before the index brought into [0, length], removeAt
    deletes at an index of the range and does nothing at another, and
    moveNode takes the value out and places it before the target brought
    into the range of the shorter list. *)
Theorem toArray_model {T} (ops : list (op T)) :
  Forall integral_op ops -> toArray (run ops) = Some (model ops).
Proof.
  intros Hint. destruct (run_holds ops Hint) as [l Hl].
  by apply (holds_toArray _ l).
Qed.

Lemma toArray_model_witness :
  toArray (run [InsertAtEnd 10; InsertAtEnd 20; InsertAt 30 (of_Z 1);
                InsertAt 40 (of_Z 99); MoveNode (of_Z 3) (of_Z (-5));
                RemoveAt (of_Z 1); RemoveAt (of_Z 7)])
  = Some [40; 30; 20].
Proof.
  apply (toArray_model
           [InsertAtEnd 10; InsertAtEnd 20; InsertAt 30 (of_Z 1);
            InsertAt 40 (of_Z 99); MoveNode (of_Z 3) (of_Z (-5));
            RemoveAt (of_Z 1); RemoveAt (of_Z 7)]).
  repeat constructor; apply integral_of_Z.
Defined.

(** X3.  On a list built by the operations, the node getNodeAt gives at an
    integer index of the range has that index by indexOfNode; indexOfNode
    gives -1 for null and for a node the list does not hold, and it always
    returns. *)
Theorem indexOfNode_getNodeAt {T} (ops : list (op T)) (nodes : list nat) :
  Forall insert_safe ops ->
  forward (run ops) = Some nodes ->
  (forall i, 0 <= i < size (run ops) ->
     exists n, getNodeAt (of_Z i) (run ops) = Some n /\
               indexOfNode (Some n) (run ops) = Some i) /\
  indexOfNode None (run ops) = Some (-1) /\
  (forall n, n ∉ nodes -> indexOfNode (Some n) (run ops) = Some (-1)) /\
  (forall n, exists i, indexOfNode n (run ops) = Some i).
Proof.
  intros Hs Hf. destruct (run_safe ops Hs) as [l Hwf].
  apply (forward_wf _ _ _ Hwf) in Hf as ->.
  unfold size. rewrite (wf_length _ _ Hwf). split_and!.
  - intros i Hi. rewrite (wf_getNodeAt _ _ _ Hwf).
    destruct (Z.ltb_spec i 0); [lia|].
    destruct (l !! Z.to_nat i) as [n|] eqn:Hn;
      [|apply lookup_ge_None in Hn; lia].
    exists n. split; [done|]. rewrite (wf_indexOfNode _ _ _ Hwf). f_equal.
    destruct (index_from_spec n l 0) as [Hin _].
    destruct Hin as [Hr Hl]; [by eapply list_elem_of_lookup_2|].
    rewrite Z.sub_0_r in Hl.
    pose proof (NoDup_lookup _ _ _ _ (wf_nodup _ _ Hwf) Hl Hn). lia.
  - done.
  - intros n Hn. rewrite (wf_indexOfNode _ _ _ Hwf). f_equal.
    by apply index_from_spec.
  - intros [n|]; [|by eexists]. rewrite (wf_indexOfNode _ _ _ Hwf). by eexists.
Qed.

Lemma indexOfNode_getNodeAt_witness :
  let ops := [InsertAtEnd 10; InsertAtStart 20; InsertAtEnd 30] in
  (exists n, getNodeAt (of_Z 0) (run ops) = Some n /\
             indexOfNode (Some n) (run ops) = Some 0) /\
  indexOfNode (Some 7%nat) (run ops) = Some (-1).
Proof.
  intros ops.
  assert (Forall insert_safe ops) as Hs by (repeat constructor).
  destruct (indexOfNode_getNodeAt ops [1; 0; 2]%nat Hs eq_refl)
    as (H1 & _ & H3 & _).
  split; [apply H1; vm_compute; split; [discriminate | reflexivity]|].
  apply H3. set_solver.
Defined.

End DLLMore.

(* ===================================================================== *)
(** * Further properties of the extractor *)
(* ===================================================================== *)

Module ID3More.
Import ID3 ID3Facts.





(** X5.  advancePastEncodedString reads inside [data] only and returns an
    offset between the lesser of [offset] and [end] and [end], whatever the
    bytes and the encoding; it is [end] itself when [offset] is at or beyond
    it. *)
Theorem advancePastEncodedString_bounds data offset end_ encoding :
  0 <= offset -> end_ <= len data ->
  (exists o, advancePastEncodedString data offset end_ encoding = Val o /\
             Z.min offset end_ <= o <= end_) /\
  (end_ <= offset ->
   advancePastEncodedString data offset end_ encoding = Val end_).
Proof.
  intros Ho He. split.
  - by apply advancePastEncodedString_ok.
  - intros Hge. unfold advancePastEncodedString.
    by destruct (Z.geb_spec offset end_); [|lia].
Qed.

Lemma advancePastEncodedString_bounds_witness :
  (exists o, advancePastEncodedString [x61; x62; x00; x63] 0 4 0 = Val o /\
             Z.min 0 4 <= o <= 4) /\
  (4 <= 9 -> advancePastEncodedString [x61; x62; x00; x63] 9 4 1 = Val 4).
Proof.
  split.
  - apply (advancePastEncodedString_bounds [x61; x62; x00; x63] 0 4 0);
      [lia | vm_compute; discriminate].
  - apply (advancePastEncodedString_bounds [x61; x62; x00; x63] 9 4 1);
      [lia | vm_compute; discriminate].
Defined.

(** X6.  decodeFrameId reads inside the buffer only; it gives the empty
    string when fewer than four bytes are left at [offset], and otherwise
    either the empty string or the four characters at [offset], each of them
    an upper-case letter or a digit. *)
Theorem decodeFrameId_charset bytes offset :
  0 <= offset ->
  exists frameId,
    decodeFrameId bytes offset = Val frameId /\
    (len bytes < offset + 4 -> frameId = []) /\
    (frameId <> [] ->
     length frameId = 4%nat /\
     Forall (fun c => 65 <= c <= 90 \/ 48 <= c <= 57) frameId /\
     forall k : nat, (k < 4)%nat ->
       Val <$> frameId !! k = Some (read bytes (offset + Z.of_nat k))).
Proof.
  intros Ho. unfold decodeFrameId.
  destruct (Z.gtb_spec (offset + 4) (len bytes)).
  { exists []. by split_and!. }
  destruct (read_ok bytes offset) as (c0 & E0 & _); [lia|].
  destruct (read_ok bytes (offset + 1)) as (c1 & E1 & _); [lia|].
  destruct (read_ok bytes (offset + 2)) as (c2 & E2 & _); [lia|].
  destruct (read_ok bytes (offset + 3)) as (c3 & E3 & _); [lia|].
  rewrite E0, E1, E2, E3. cbn [mbind res_bind].
  destruct (forallb is_id_char [c0; c1; c2; c3]) eqn:Hall.
  - eexists. split; [done|]. split; [lia|]. intros _. split; [done|]. split.
    + assert (forall c, is_id_char c = true ->
                        65 <= c <= 90 \/ 48 <= c <= 57) as Hid.
      { intros c Hc. unfold is_id_char in Hc.
        apply orb_prop in Hc as [Hc|Hc];
          apply andb_prop in Hc as [?%Z.leb_le ?%Z.leb_le]; lia. }
      simpl in Hall. rewrite !andb_true_iff in Hall.
      destruct Hall as (? & ? & ? & ? & _).
      repeat (apply Forall_cons_2; [by apply Hid|]). apply Forall_nil_2.
    + intros k Hk. destruct k as [|[|[|[|k]]]]; [..|lia].
      * change (Z.of_nat 0) with 0. by rewrite Z.add_0_r, E0.
      * change (Z.of_nat 1) with 1. by rewrite E1.
      * change (Z.of_nat 2) with 2. by rewrite E2.
      * change (Z.of_nat 3) with 3. by rewrite E3.
  - exists []. by split_and!.
Qed.

Lemma decodeFrameId_charset_witness :
  exists frameId,
    decodeFrameId [x41; x50; x49; x43; x00] 0 = Val frameId /\
    (len [x41; x50; x49; x43; x00] < 0 + 4 -> frameId = []) /\
    (frameId <> [] ->
     length frameId = 4%nat /\
     Forall (fun c => 65 <= c <= 90 \/ 48 <= c <= 57) frameId /\
     forall k : nat, (k < 4)%nat ->
       Val <$> frameId !! k
       = Some (read [x41; x50; x49; x43; x00] (0 + Z.of_nat k))).
Proof. apply (decodeFrameId_charset [x41; x50; x49; x43; x00] 0). lia. Defined.

End ID3More.

(* ===================================================================== *)
(** * Further properties of the controller *)
(* ===================================================================== *)

Module PlayerMore.
Import Num NumFacts DLL DLLFacts Player PlayerFacts.

Ltac q_cases :=
  repeat first
    [ progress cbn [negb andb orb]
    | progress cbv beta iota
    | match goal with
      | |- context [Qle_bool ?a ?b] =>
          let E := fresh "E" in
          destruct (Qle_bool a b) eqn:E;
          [apply Qle_bool_iff in E | apply Qle_bool_false in E]
      | |- context [Qeq_bool ?a ?b] =>
          let E := fresh "E" in
          destruct (Qeq_bool a b) eqn:E;
          [apply Qeq_bool_iff in E | apply Qeq_bool_neq in E]
      end ].

Ltac q_solve :=
  first [ done
        | exfalso; lra
        | apply Qle_bool_iff; lra
        | apply Qeq_bool_iff; lra
        | split; q_solve ].

(** X7.  For a finite value that is not negative, and a displayed duration
    that is a finite number, seekTo assigns the same time to the element and
    to the display, and that time lies between 0 and the effective duration:
    the element's duration when finite and positive, else the larger of the
    displayed duration and the value. *)
Theorem seekTo_clamps_nonnegative (q d : Q) (c : App) :
  (0 <= q)%Q -> duration c = Fin d ->
  let c' := seekTo (Fin q) c in
  a_currentTime (audio c') = currentTime c' /\
  num_le zero (currentTime c') = true /\
  num_le (currentTime c') (effectiveDuration (Fin q) c) = true.
Proof.
  intros Hq Hd c'. subst c'. unfold seekTo, effectiveDuration.
  cbn [num_isFinite negb]. cbv zeta. rewrite Hd.
  split; [done|].
  cbn [currentTime with_currentTime a_currentTime audio set_audio_currentTime
       with_audio].
  destruct (a_duration (audio c)) as [|sign|p];
    unfold num_isFinite, num_gt, num_max, num_min, num_or, num_truthy, num_le,
      zero;
    q_cases; q_solve.
Qed.

Lemma seekTo_clamps_nonnegative_witness :
  let c := seekTo (Fin 500) three_playing in
  a_currentTime (audio c) = currentTime c /\
  num_le zero (currentTime c) = true /\
  num_le (currentTime c) (effectiveDuration (Fin 500) three_playing) = true.
Proof.
  apply (seekTo_clamps_nonnegative 500 0 three_playing); [done | reflexivity].
Defined.

(** X8.  For a number that is not NaN, onVolumeChange stores the same
    volume in the component and in the element, and it is the number brought
    into [0, 1]: the number itself when it lies there, 0 below and 1
    above. *)
Theorem onVolumeChange_clamps (newVolume : num) (c : App) :
  newVolume <> NaN ->
  let c' := onVolumeChange newVolume c in
  a_volume (audio c') = volume c' /\
  num_le zero (volume c') = true /\ num_le (volume c') one = true /\
  (num_le zero newVolume = true -> num_le newVolume one = true ->
   num_eq (volume c') newVolume = true) /\
  (num_lt newVolume zero = true -> volume c' = zero) /\
  (num_gt newVolume one = true -> volume c' = one).
Proof.
  intros Hn c'. subst c'. unfold onVolumeChange. cbv zeta.
  cbn [volume with_volume a_volume audio set_audio_volume with_audio].
  split; [done|].
  destruct newVolume as [|[]|q]; try done.
  unfold num_max, num_min, num_lt, num_gt, num_le, num_eq, zero, one.
  q_cases; try q_solve.
  all: split_and!; try q_solve; intros; q_solve.
Qed.

Lemma onVolumeChange_clamps_witness :
  volume (onVolumeChange (Fin (3 # 2)) three_playing) = one /\
  volume (onVolumeChange (Inf false) three_playing) = zero /\
  num_eq (volume (onVolumeChange (Fin (1 # 4)) three_playing)) (Fin (1 # 4))
  = true.
Proof.
  split_and!.
  - apply (onVolumeChange_clamps (Fin (3 # 2)) three_playing); done.
  - apply (onVolumeChange_clamps (Inf false) three_playing); done.
  - apply (onVolumeChange_clamps (Fin (1 # 4)) three_playing); done.
Defined.

(** X9.  playTrack at the index of the track that is already current
    neither assigns nor reloads the source: it only calls play(), and leaves
    the cursor, the times and the rest of the component as they are. *)
Theorem playTrack_current c l vs (k : nat) n :
  sound c l vs -> length (tracks c) = length l ->
  l !! k = Some n -> currentNode c = Some n ->
  exists c',
    playTrack (of_Z (Z.of_nat k)) c = Some c' /\
    calls c' = calls c ++ [AudioPlay] /\
    audio c' = audio c /\
    currentNode c' = Some n /\
    currentTrackIndex c' = Z.of_nat k /\
    currentTime c' = currentTime c /\ duration c' = duration c /\
    isPlaying c' = isPlaying c /\ isLoadingTrack c' = isLoadingTrack c /\
    tracks c' = tracks c /\ playlist c' = playlist c.
Proof.
  intros [[Hwf Hv] _ _] Hlen Hk Hc. unfold playTrack.
  change zero with (of_Z 0). rewrite num_lt_of_Z, num_geq_of_Z, Hlen.
  pose proof (lookup_lt_Some _ _ _ Hk) as Hlt.
  destruct (Z.ltb_spec (Z.of_nat k) 0); [lia|].
  destruct (Z.geb_spec (Z.of_nat k) (Z.of_nat (length l))); [lia|].
  cbn [orb]. rewrite (wf_getNodeAt_nat _ _ _ Hwf), Hk.
  rewrite (selectNode_same _ _ _ _ Hwf Hc). eexists. split; [done|].
  cbn. split_and!; try done.
  destruct (index_from_spec n l 0) as [Hin _].
  destruct Hin as [Hr Hl]; [by eapply list_elem_of_lookup_2|].
  rewrite Z.sub_0_r in Hl.
  pose proof (NoDup_lookup _ _ _ _ (wf_nodup _ _ Hwf) Hl Hk). lia.
Qed.

Lemma playTrack_current_witness :
  exists c',
    playTrack (of_Z 0) three_playing = Some c' /\
    calls c' = calls three_playing ++ [AudioPlay] /\
    audio c' = audio three_playing /\
    currentNode c' = Some 0%nat /\
    currentTrackIndex c' = 0.
Proof.
  destruct (playTrack_current three_playing [0; 1; 2]%nat [0; 1; 2]%nat
              0%nat 0%nat) as (c' & H1 & H2 & H3 & H4 & H5 & _);
    [sound_by_eval | reflexivity | reflexivity | reflexivity |].
  exists c'. by split_and!.
Defined.

End PlayerMore.
(* ===================================================================== *)
(** * What every session keeps *)
(* ===================================================================== *)

Module SessionFacts.
Import Num NumFacts DLL DLLFacts Player PlayerFacts PlayerMore.






(** ** Selecting files *)

Lemma insert_tracks_eval ts c l vs :
  holds (playlist c) l vs ->
  exists pl l',
    insert_tracks ts c
    = (with_playlist pl (with_heap (heap c ++ ts) c), head l') /\
    holds pl (l ++ l') (vs ++ seq (length (heap c)) (length ts)) /\
    length l' = length ts.
Proof.
  intros Hh. induction ts as [|t ts IH] using rev_ind.
  - exists (playlist c), []. split_and!; [|by rewrite !app_nil_r|done].
    unfold insert_tracks. simpl. rewrite app_nil_r. by destruct c.
  - destruct IH as (pl & l' & E & Hh' & Hlen).
    unfold insert_tracks in *. rewrite foldl_app. cbn [foldl]. rewrite E.
    cbn [heap with_playlist with_heap playlist].
    destruct (insertAtEnd (length (heap c ++ ts)) pl) as [pl' node] eqn:Ei.
    pose proof (insertAtEnd_wf (length (heap c ++ ts)) pl _ (proj1 Hh'))
      as [Hnode _].
    pose proof (apply_op_holds (InsertAtEnd (length (heap c ++ ts))) pl _ _
                  I Hh') as Hh''.
    cbn [apply_op op_nodes op_values] in Hh''. rewrite Ei in Hnode, Hh''.
    cbn [fst snd] in Hnode, Hh''. subst node.
    exists pl', (l' ++ [length (store pl)]). split_and!.
    + f_equal; [by rewrite <- app_assoc|]. by destruct l'.
    + rewrite length_app, seq_app. cbn [length seq].
      rewrite !app_assoc. rewrite length_app in Hh''.
      by rewrite <- !app_assoc in *.
    + rewrite !length_app. simpl. lia.
Qed.


(** ** Choosing and stepping through tracks *)





(** ** Removing a track *)


(** ** Reordering the queue *)




(** ** What the platform reports *)


(** ** Every event *)




(** ** Stepping through the queue *)

Lemma index_from_middle (l1 l2 : list nat) a :
  NoDup (l1 ++ a :: l2) -> index_from a (l1 ++ a :: l2) 0 = Z.of_nat (length l1).
Proof.
  intros Hnd. destruct (index_from_spec a (l1 ++ a :: l2) 0) as [Hin _].
  destruct Hin as [Hr Hl]; [set_solver|]. rewrite Z.sub_0_r in Hl.
  pose proof (NoDup_lookup _ _ _ _ Hnd Hl (list_lookup_middle l1 l2 a _ eq_refl)).
  lia.
Qed.

(** seekTo(0) sets both times to 0, whatever the durations are. *)
Lemma seekTo_zero c :
  seekTo zero c
  = with_currentTime zero (set_audio_currentTime zero c).
Proof.
  unfold seekTo. cbn [num_isFinite zero negb]. cbv zeta.
  assert (num_min (num_max zero zero)
            (num_or (if num_isFinite (a_duration (audio c)) &&
                        num_gt (a_duration (audio c)) zero
                     then a_duration (audio c)
                     else num_max (duration c) zero) zero) = zero) as ->; [|done].
  destruct (a_duration (audio c)) as [|sign|p], (duration c) as [|sign'|d];
    try destruct sign; try destruct sign';
    unfold num_isFinite, num_gt, num_max, num_min, num_or, num_truthy, num_le,
      zero;
    q_cases; q_solve.
Qed.

(** X11.  nextTrack with a cursor: when the current node has a successor
    it becomes the cursor, its index is shown, its URL is assigned and
    loaded, the times are reset and play() is called; at the end of the queue
    the cursor stays, pause() is called, isPlaying is false and both times
    are 0.  Snapshot, playlist and track objects stay as they are. *)
Theorem nextTrack_contract c l1 a l2 vs :
  sound c (l1 ++ a :: l2) vs -> currentNode c = Some a ->
  exists c',
    nextTrack c = Some c' /\
    heap c' = heap c /\ tracks c' = tracks c /\ playlist c' = playlist c /\
    match l2 with
    | b :: _ =>
        exists tr,
          track_at c b = Some tr /\
          currentNode c' = Some b /\
          currentTrackIndex c' = Z.of_nat (length l1) + 1 /\
          src (audio c') = url tr /\
          calls c' = calls c ++ [AudioLoad; AudioPlay] /\
          currentTime c' = zero /\
          duration c' = default zero (t_duration tr) /\
          isLoadingTrack c' = true /\ isPlaying c' = isPlaying c
    | [] =>
        currentNode c' = Some a /\
        currentTrackIndex c' = currentTrackIndex c /\
        isPlaying c' = false /\
        calls c' = calls c ++ [AudioPause] /\
        currentTime c' = zero /\ a_currentTime (audio c') = zero /\
        src (audio c') = src (audio c) /\ duration c' = duration c
    end.
Proof.
  intros Hs Hc. pose proof Hs as [[Hwf Hv] Hheap Hcur].
  destruct (wf_neighbours _ _ _ _ Hwf) as [Hn _].
  unfold nextTrack. rewrite Hc, Hn.
  destruct l2 as [|b l2]; cbn [head].
  - rewrite seekTo_zero. eexists. split; [done|]. by split_and!.
  - pose proof (wf_nodup _ _ Hwf) as Hnd.
    assert (b <> a) as Hba.
    { intros ->. apply NoDup_app in Hnd as (_ & _ & [Ha _]%NoDup_cons).
      apply Ha. left. }
    destruct (sound_track_at _ _ _ b Hs) as [tr Htr]; [set_solver|].
    rewrite (selectNode_other _ _ _ tr _ Hwf Htr) by congruence.
    eexists. split; [done|]. split_and!; try done.
    exists tr. split_and!; try done. cbn [currentTrackIndex].
    replace (l1 ++ a :: b :: l2) with ((l1 ++ [a]) ++ b :: l2)
      by by rewrite <- app_assoc.
    rewrite index_from_middle by by rewrite <- app_assoc.
    rewrite length_app. simpl. lia.
Qed.

Lemma nextTrack_contract_witness :
  exists c',
    nextTrack three_playing = Some c' /\
    currentNode c' = Some 1%nat /\ currentTrackIndex c' = 1 /\
    src (audio c') = "b" /\
    calls c' = calls three_playing ++ [AudioLoad; AudioPlay].
Proof.
  destruct (nextTrack_contract three_playing [] 0%nat [1; 2]%nat
              [0; 1; 2]%nat)
    as (c' & E & _ & _ & _ & tr & Htr & H1 & H2 & H3 & H4 & _);
    [sound_by_eval | reflexivity |].
  exists c'. injection Htr as <-. by split_and!.
Defined.

(** X12.  previousTrack with a cursor: more than five seconds into the
    track it restarts the track (both times 0, cursor and calls as they
    are); otherwise the predecessor, when there is one, becomes the cursor,
    is loaded and played; at the head of the queue nothing changes. *)
Theorem previousTrack_contract c l1 a l2 vs :
  sound c (l1 ++ a :: l2) vs -> currentNode c = Some a ->
  exists c',
    previousTrack c = Some c' /\
    heap c' = heap c /\ tracks c' = tracks c /\ playlist c' = playlist c /\
    if num_gt (a_currentTime (audio c)) (Fin 5) then
      currentNode c' = Some a /\
      currentTrackIndex c' = currentTrackIndex c /\
      currentTime c' = zero /\ a_currentTime (audio c') = zero /\
      calls c' = calls c /\ isPlaying c' = isPlaying c /\
      src (audio c') = src (audio c)
    else
      match last l1 with
      | Some b =>
          exists tr,
            track_at c b = Some tr /\
            currentNode c' = Some b /\
            currentTrackIndex c' = Z.of_nat (length l1) - 1 /\
            src (audio c') = url tr /\
            calls c' = calls c ++ [AudioLoad; AudioPlay] /\
            currentTime c' = zero /\
            duration c' = default zero (t_duration tr) /\
            isLoadingTrack c' = true /\ isPlaying c' = isPlaying c
      | None => c' = c
      end.
Proof.
  intros Hs Hc. pose proof Hs as [[Hwf Hv] Hheap Hcur].
  destruct (wf_neighbours _ _ _ _ Hwf) as [_ Hp].
  unfold previousTrack. rewrite Hc.
  destruct (num_gt _ _).
  { rewrite seekTo_zero. eexists. split; [done|]. by split_and!. }
  rewrite Hp. destruct (last l1) as [b|] eqn:Hl; [|by exists c].
  apply last_Some in Hl as [l1' ->].
  pose proof (wf_nodup _ _ Hwf) as Hnd.
  assert (b <> a) as Hba.
  { intros ->. apply NoDup_app in Hnd as (_ & Hd & _).
    apply (Hd a); [set_solver|left]. }
  destruct (sound_track_at _ _ _ b Hs) as [tr Htr]; [set_solver|].
  rewrite (selectNode_other _ _ _ tr _ Hwf Htr) by congruence.
  eexists. split; [done|]. split_and!; try done.
  exists tr. split_and!; try done. cbn [currentTrackIndex].
  rewrite <- app_assoc in *. cbn [app] in *.
  rewrite index_from_middle by done.
  rewrite length_app. simpl. lia.
Qed.

Lemma previousTrack_contract_witness :
  previousTrack three_playing = Some three_playing.
Proof.
  destruct (previousTrack_contract three_playing [] 0%nat [1; 2]%nat
              [0; 1; 2]%nat) as (c' & E & _ & _ & _ & H);
    [sound_by_eval | reflexivity |].
  cbn in H. by rewrite H in E.
Defined.

(** ** Dragging a row *)

Lemma moved_perm {A} (i j : Z) (l : list A) : moved i j l ≡ₚ l.
Proof.
  unfold moved. repeat case_match; try done.
  unfold place. rewrite <- Permutation_middle, take_drop.
  symmetry. by apply delete_Permutation.
Qed.

(** X13.  onQueueDrop from one row to another, at integer indices: the
    track of the row dragged is taken out and placed before the target
    brought into the range; the snapshot shows the new order, the cursor
    stays on the same track and the index shown follows it; nothing is
    played, paused, loaded or released. *)
Theorem onQueueDrop_contract c l vs (i j : Z) :
  sound c l vs -> i <> j -> 0 <= i < Z.of_nat (length l) ->
  exists c',
    onQueueDrop (of_Z i) (of_Z j) c = Some c' /\
    sound c' (moved i j l) (moved i j vs) /\
    tracks c' = moved i j vs /\
    currentNode c' = currentNode c /\
    (forall n, currentNode c = Some n ->
       0 <= currentTrackIndex c' /\
       moved i j l !! Z.to_nat (currentTrackIndex c') = Some n) /\
    (currentNode c = None -> currentTrackIndex c' = -1) /\
    heap c' = heap c /\ audio c' = audio c /\ calls c' = calls c /\
    isPlaying c' = isPlaying c /\ isLoadingTrack c' = isLoadingTrack c /\
    currentTime c' = currentTime c /\ duration c' = duration c.
Proof.
  intros Hs Hij Hi. pose proof Hs as [Hh Hheap Hcur].
  pose proof Hh as [Hwf Hv].
  unfold onQueueDrop. rewrite num_eq_of_Z.
  destruct (Z.eqb_spec i j) as [|_]; [done|].
  destruct (moveNode_wf i j _ _ Hwf) as [Hm Hwf'].
  pose proof (apply_op_holds (MoveNode (of_Z i) (of_Z j)) _ _ _
                (conj (integral_of_Z i) (integral_of_Z j)) Hh) as Hh'.
  cbn [apply_op op_nodes op_values] in Hh'. rewrite !to_Z_of_Z in Hh'.
  rewrite (wf_getNodeAt _ _ _ Hwf) in Hm.
  destruct (Z.ltb_spec i 0); [lia|].
  destruct (l !! Z.to_nat i) as [m|] eqn:El;
    [|apply lookup_ge_None in El; lia].
  destruct (moveNode (of_Z i) (of_Z j) (playlist c)) as [pl mv].
  cbn [fst snd] in *. subst mv.
  assert (exists c1, (if bool_decide (currentNode (with_playlist pl c) = Some m)
                      then index ← indexOfNode (currentNode (with_playlist pl c))
                                     (playlist (with_playlist pl c));
                           Some (with_currentTrackIndex index (with_playlist pl c))
                      else Some (with_playlist pl c)) = Some c1 /\
                     refreshPlaylistSnapshot c1
                     = refreshPlaylistSnapshot (with_playlist pl c))
    as (c1 & -> & Hr).
  { case_bool_decide.
    - cbn [playlist with_playlist currentNode].
      rewrite (wf_indexOfNode' _ _ _ Hwf'). eexists. by split.
    - eexists. by split. }
  cbn [mbind option_bind]. rewrite Hr.
  rewrite (refreshPlaylistSnapshot_eval (with_playlist pl c) _ _ Hh').
  eexists. split; [done|].
  assert (forall n, currentNode c = Some n -> n ∈ moved i j l) as Hcur'.
  { intros n Hn. rewrite moved_perm. by apply Hcur. }
  split_and!; try done.
  - split; [done| |done]. simpl. by rewrite moved_perm.
  - intros n Hn. cbn [currentTrackIndex with_playlist currentNode].
    rewrite Hn. cbn [shown_index].
    destruct (index_from_spec n (moved i j l) 0) as [Hin _].
    destruct (Hin (Hcur' _ Hn)) as [Hrg Hl]. rewrite Z.sub_0_r in Hl.
    split; [lia | done].
  - intros Hn. cbn [currentTrackIndex with_playlist currentNode].
    by rewrite Hn.
Qed.

Lemma onQueueDrop_contract_witness :
  exists c',
    onQueueDrop (of_Z 0) (of_Z 2) three_playing = Some c' /\
    tracks c' = [1; 2; 0]%nat /\
    currentNode c' = Some 0%nat /\
    currentTrackIndex c' = 2 /\
    calls c' = calls three_playing.
Proof.
  destruct (onQueueDrop_contract three_playing [0; 1; 2]%nat [0; 1; 2]%nat
              0 2)
    as (c' & E & _ & H1 & H2 & H3 & _ & _ & _ & H4 & _);
    [sound_by_eval | lia | simpl; lia |].
  exists c'. split_and!; [done|done|done| |done].
  destruct (H3 0%nat eq_refl) as [Hpos Hat].
  destruct (Z.to_nat (currentTrackIndex c')) as [|[|[|k]]] eqn:Ek;
    try discriminate Hat. lia.
Defined.

(** ** Adding files *)

(** X14.  Adding tracks appends them, in the order given, after the rows
    already there.  With a cursor set nothing else changes: the cursor, the
    element and the calls are as before.  With no cursor the first track
    added becomes the current one: it is the cursor, its index is shown, its
    URL is assigned and loaded, and play() is called. *)
Theorem addTracks_contract c l vs t ts :
  sound c l vs ->
  exists c' l',
    addTracks (t :: ts) c = Some c' /\
    heap c' = heap c ++ t :: ts /\
    tracks c' = vs ++ seq (length (heap c)) (S (length ts)) /\
    sound c' (l ++ l') (tracks c') /\
    length l' = S (length ts) /\
    match currentNode c with
    | Some n =>
        currentNode c' = Some n /\ calls c' = calls c /\
        audio c' = audio c /\ isPlaying c' = isPlaying c
    | None =>
        currentNode c' = head l' /\
        currentTrackIndex c' = Z.of_nat (length l) /\
        currentTrack c' = Some t /\
        src (audio c') = url t /\
        calls c' = calls c ++ [AudioLoad; AudioPlay]
    end.
Proof.
  intros [Hh Hheap Hcur].
  destruct (insert_tracks_eval (t :: ts) c _ _ Hh)
    as (pl & l' & E & Hh' & Hlen).
  unfold addTracks. rewrite E.
  set (vs' := vs ++ seq (length (heap c)) (length (t :: ts))) in *.
  rewrite (refreshPlaylistSnapshot_eval
             (with_playlist pl (with_heap (heap c ++ t :: ts) c)) _ _ Hh').
  cbn [mbind option_bind currentNode with_playlist with_heap].
  assert (Forall (fun r => is_Some ((heap c ++ t :: ts) !! r)) vs') as Hheap'.
  { apply Forall_app. split.
    - eapply Forall_impl; [exact Hheap|]. intros r [x Hx]. exists x.
      by apply lookup_app_l_Some.
    - apply Forall_forall. intros r [? ?]%elem_of_seq.
      apply lookup_lt_is_Some. rewrite length_app. lia. }
  destruct (currentNode c) as [n|] eqn:En.
  - eexists _, l'. split; [done|]. split_and!; try done.
    split; [done|done|]. simpl. intros ? [= <-].
    apply elem_of_app. left. by apply Hcur.
  - destruct l' as [|n l']; [done|]. cbn [head].
    destruct Hh' as [Hwf' Hv'].
    assert (get_value pl n = Some (length (heap c))) as Hg.
    { pose proof (Forall2_length _ _ _ (proj2 Hh)) as Hll.
      eapply (Forall2_lookup_lr _ _ _ (length l)) in Hv'; [exact Hv'| |].
      - by apply list_lookup_middle.
      - unfold vs'. by apply list_lookup_middle. }
    erewrite selectNode_other; [|exact Hwf'| |done].
    2:{ unfold track_at. cbn [playlist heap with_playlist with_heap].
        rewrite Hg. simpl.
        by apply list_lookup_middle. }
    eexists _, (n :: l'). split; [done|].
    assert (index_from n (l ++ n :: l') 0 = Z.of_nat (length l)) as Hidx.
    { apply index_from_middle. by destruct Hwf'. }
    split_and!; try done.
    + split; [done|done|]. simpl. intros ? [= <-]. set_solver.
    + unfold currentTrack, track_at.
      cbn [currentNode playlist heap with_playlist with_heap mbind option_bind].
      rewrite Hg. simpl. by apply list_lookup_middle.
Qed.

Lemma addTracks_contract_witness :
  exists c',
    addTracks [song "d" None; song "e" None] three_playing = Some c' /\
    tracks c' = [0; 1; 2; 3; 4]%nat /\
    currentNode c' = Some 0%nat /\
    calls c' = calls three_playing.
Proof.
  destruct (addTracks_contract three_playing [0; 1; 2]%nat [0; 1; 2]%nat
              (song "d" None) [song "e" None])
    as (c' & l' & E & _ & H1 & _ & _ & H2 & H3 & _); [sound_by_eval|].
  exists c'. by split_and!.
Defined.

(** ** Leaving *)

Lemma release_all ts : forall c,
  foldl (fun c track => releaseTrackResources track c) c ts
  = mkApp (heap c) (tracks c) (currentTrackIndex c) (isPlaying c)
          (isLoadingTrack c) (currentTime c) (duration c) (volume c) (audio c)
          (playlist c) (currentNode c)
          (calls c ++ concat (released <$> ts)).
Proof.
  induction ts as [|t ts IH]; intros c; cbn [foldl fmap list_fmap concat].
  - rewrite app_nil_r. by destruct c.
  - rewrite IH, releaseTrackResources_eq. cbn. by rewrite <- app_assoc.
Qed.

Lemma released_in_all (t : Track) ts k :
  t ∈ ts -> k ∈ released t -> k ∈ concat (released <$> ts).
Proof.
  induction ts as [|t' ts IH]; intros Ht Hk; [by apply elem_of_nil in Ht|].
  cbn [fmap list_fmap concat]. apply elem_of_app.
  apply elem_of_cons in Ht as [->|Ht]; [by left | right; by apply IH].
Qed.

(** X15.  ngOnDestroy pauses the element and then releases every track of
    the playlist, in playlist order: the object URL of each track is
    revoked, and the URL of its artwork when it has one (a URL is never the
    empty string); no other call is made and nothing else changes. *)
Theorem ngOnDestroy_releases c l vs :
  sound c l vs ->
  Forall (fun t => artworkUrl t <> Some EmptyString) (heap c) ->
  exists c' ts,
    ngOnDestroy c = Some c' /\
    Forall2 (fun r t => heap c !! r = Some t) vs ts /\
    calls c' = calls c ++ AudioPause :: concat (released <$> ts) /\
    (forall t, t ∈ ts ->
       RevokeObjectURL (url t) ∈ calls c' /\
       forall u, artworkUrl t = Some u -> RevokeObjectURL u ∈ calls c') /\
    playlist c' = playlist c /\ tracks c' = tracks c /\ heap c' = heap c /\
    currentNode c' = currentNode c /\ audio c' = audio c.
Proof.
  intros [Hh Hheap Hcur] _. unfold ngOnDestroy. cbv zeta.
  cbn [playlist audio_pause do_call heap].
  rewrite (holds_toArray _ _ _ Hh). cbn [mbind option_bind].
  destruct (mapM (fun r => heap c !! r) vs) as [ts|] eqn:Ets.
  2:{ exfalso. apply eq_None_not_Some in Ets. apply Ets.
      by apply mapM_is_Some. }
  cbn [mbind option_bind]. rewrite release_all.
  eexists _, ts. split; [done|]. apply mapM_Some_1 in Ets.
  split_and!; try done.
  - cbn [calls audio_pause do_call]. by rewrite <- app_assoc.
  - intros t Ht. cbn [calls audio_pause do_call].
    assert (forall k, k ∈ released t ->
              k ∈ (calls c ++ [AudioPause]) ++ concat (released <$> ts)) as Hin.
    { intros k Hk. apply elem_of_app. right. by apply (released_in_all t). }
    split.
    + apply Hin. left.
    + intros u Hu. apply Hin. unfold released. rewrite Hu. right. left.
Qed.

Lemma ngOnDestroy_releases_witness :
  exists c',
    ngOnDestroy three_playing = Some c' /\
    calls c' = calls three_playing ++
               [AudioPause; RevokeObjectURL "a"; RevokeObjectURL "a.png";
                RevokeObjectURL "b"; RevokeObjectURL "c"].
Proof.
  destruct (ngOnDestroy_releases three_playing [0; 1; 2]%nat [0; 1; 2]%nat)
    as (c' & ts & E & Hts & Hcalls & _);
    [sound_by_eval | by repeat constructor |].
  exists c'. split; [done|]. rewrite Hcalls.
  assert (ts = [song "a" (Some "a.png"); song "b" None; song "c" None]) as ->;
    [|done].
  repeat match goal with
         | H : Forall2 _ (_ :: _) _ |- _ =>
             apply Forall2_cons_inv_l in H as (? & ? & [= <-] & H & ->)
         | H : Forall2 _ [] _ |- _ => apply Forall2_nil_inv_l in H as ->
         end.
  done.
Defined.

End SessionFacts.
